(** * onnx_model_utils: shape fixing and producer/consumer maps

    A shallow embedding of [tools/python/util/onnx_model_utils.py]: the
    traversal of a graph and its subgraphs, the rewriting of symbolic and
    unknown dimensions, the fixed-size test on a value, and the maps that
    link every node to the nodes producing its inputs and consuming its
    outputs. *)

From stdpp Require Import gmap strings list fin_maps sorting pretty.
From Stdlib Require Import ZArith Lia Ascii.

Local Open Scope string_scope.
Local Open Scope list_scope.

(** ** The protobuf messages

    Only the fields the utilities read or write are kept. A field that
    protobuf tracks for presence is an [option]; a [oneof] is an inductive
    type with a constructor for the case where no member is set. *)

(** [TensorShapeProto.Dimension]: the oneof [value] holds [dim_value]
    (int64), [dim_param] (a symbolic name) or nothing (unknown dimension);
    [denotation] is the one field outside the oneof. *)
Inductive DimensionValue : Type :=
| dim_value (v : Z)
| dim_param (p : string)
| dim_unset.

Record Dimension : Type := {
  d_value : DimensionValue;
  d_denotation : option string
}.

Record TensorShapeProto : Type := { dim : list Dimension }.

(** The range of the field [dim_value]. Assigning the field a value
    outside it raises, after [dim.Clear()] has reset the dimension. The
    definitions below give what an assignment within the range leaves, and
    the properties assume [is_int64] of every value that is written. *)
Definition is_int64 (v : Z) : Prop := (- 2 ^ 63 ≤ v < 2 ^ 63)%Z.

(** [TypeProto.Tensor]: the element type and an optional shape. *)
Record Tensor : Type := {
  elem_type : Z;
  shape : option TensorShapeProto
}.

(** [TypeProto]: the utilities only ask whether the member [tensor_type] is
    set. Every other member of the oneof (sequence, map, ...) is kept as an
    opaque tag. *)
Inductive TypeProto : Type :=
| tensor_type (t : Tensor)
| other_type (kind : string)
| type_unset.

Record ValueInfoProto : Type := {
  vi_name : string;
  vi_type : TypeProto
}.

(** An initializer is a [TensorProto]; only its name matters here. *)
Record TensorProto : Type := { t_name : string }.

(** Graphs, nodes and attributes. An attribute may hold a subgraph in its
    field [g] (the bodies of Scan, Loop and If). *)
Inductive GraphProto : Type :=
  Build_GraphProto {
    g_node : list NodeProto;
    g_input : list ValueInfoProto;
    g_output : list ValueInfoProto;
    g_value_info : list ValueInfoProto;
    g_initializer : list TensorProto
  }
with NodeProto : Type :=
  Build_NodeProto {
    n_name : string;
    op_type : string;
    n_input : list string;
    n_output : list string;
    n_attribute : list AttributeProto
  }
with AttributeProto : Type :=
  Build_AttributeProto {
    a_name : string;
    g : option GraphProto
  }.

(** Reading a message field that is not set yields the default instance. *)
Definition default_shape : TensorShapeProto := {| dim := [] |}.

Definition shape_of (t : Tensor) : TensorShapeProto :=
  default default_shape (shape t).

(** The truth value Python gives a message object in a condition
    ([if shape:]). The protobuf message classes define neither [__bool__]
    nor [__len__], so every message object is true, the default instance
    read from a field that is not set included. *)
Definition message_truth {M : Type} (m : M) : bool := true.

(** ** Errors

    Every failure of the module is a [ValueError]; one constructor per
    [raise], carrying the values its message is formatted from. *)
Inductive ValueError : Type :=
| NotATensor (input_name : string)
| RankMismatch (existing replacement : nat)
| FixedSizeConflict (existing requested : Z) (dimension : nat)
| InputNotFound (input_name : string) (valid_names : list string)
| MissingInputs (names : list string).

(** [",".join(names)] *)
Fixpoint join (sep : string) (names : list string) : string :=
  match names with
  | [] => ""
  | [x] => x
  | x :: rest => x +:+ sep +:+ join sep rest
  end.

(** The text of the exception, as the f-strings of the source build it. *)
Definition message (e : ValueError) : string :=
  match e with
  | NotATensor input_name =>
      "Input " +:+ input_name +:+ " is not a tensor"
  | RankMismatch existing replacement =>
      "Rank mismatch. Existing:" +:+ pretty existing +:+
      " Replacement:" +:+ pretty replacement
  | FixedSizeConflict existing requested dimension =>
      "Can't replace existing fixed size of " +:+ pretty existing +:+
      " with " +:+ pretty requested +:+
      " for dimension " +:+ pretty dimension
  | InputNotFound input_name valid_names =>
      "Input " +:+ input_name +:+ " was not found in graph inputs. " +:+
      "Valid input names are: " +:+ join "," valid_names
  | MissingInputs names =>
      "This appears to be an invalid model with missing inputs of " +:+
      join "," names
  end.

(** ** iterate_graph_per_graph_func

    [per_graph_func] rewrites the graph it is given in place; here it maps
    the graph to the graph it leaves. It is called on [graph] first, then
    the traversal walks the nodes and recurses into every attribute whose
    field [g] is set. The callback is not to touch the node sequence that
    is being iterated: the nodes walked are those [graph] has on entry, and
    every other field is taken from the callback's result. *)
Section iterate_per_graph.
Variable per_graph_func : GraphProto -> GraphProto.

Fixpoint iterate_graph_per_graph_func (graph : GraphProto) : GraphProto :=
  let graph' := per_graph_func graph in
  {| g_node :=
       map (fun node =>
              {| n_name := n_name node;
                 op_type := op_type node;
                 n_input := n_input node;
                 n_output := n_output node;
                 n_attribute :=
                   map (fun attr =>
                          match g attr with
                          | Some sub =>
                              {| a_name := a_name attr;
                                 g := Some (iterate_graph_per_graph_func sub) |}
                          | None => attr
                          end)
                       (n_attribute node) |})
           (g_node graph);
     g_input := g_input graph';
     g_output := g_output graph';
     g_value_info := g_value_info graph';
     g_initializer := g_initializer graph' |}.
End iterate_per_graph.

(** ** _replace_symbolic_dim_value *)

(** The body of the innermost loop: a dimension whose [dim_param] is the
    name to replace is cleared ([dim.Clear()] resets every field, the
    denotation too) and given the value, a value within [is_int64]. *)
Definition replace_dim (param_to_replace : string) (value : Z)
    (d : Dimension) : Dimension :=
  match d_value d with
  | dim_param p =>
      if decide (p = param_to_replace)
      then {| d_value := dim_value value; d_denotation := None |}
      else d
  | _ => d
  end.

(** [update_dim_values] for one value-info. A shape that is not set reads
    as the default instance, whose [dim] is empty: nothing is written and
    the field stays unset. *)
Definition update_dim_value (param_to_replace : string) (value : Z)
    (vi : ValueInfoProto) : ValueInfoProto :=
  match vi_type vi with
  | tensor_type t =>
      if message_truth (shape_of t)
      then {| vi_name := vi_name vi;
              vi_type :=
                tensor_type
                  {| elem_type := elem_type t;
                     shape :=
                       (fun s => {| dim := map (replace_dim param_to_replace value) (dim s) |})
                         <$> shape t |} |}
      else vi
  | _ => vi
  end.

Definition update_dim_values (param_to_replace : string) (value : Z)
    (value_infos : list ValueInfoProto) : list ValueInfoProto :=
  map (update_dim_value param_to_replace value) value_infos.

Definition _replace_symbolic_dim_value (graph : GraphProto)
    (param_to_replace : string) (value : Z) : GraphProto :=
  {| g_node := g_node graph;
     g_input := update_dim_values param_to_replace value (g_input graph);
     g_output := update_dim_values param_to_replace value (g_output graph);
     g_value_info := update_dim_values param_to_replace value (g_value_info graph);
     g_initializer := g_initializer graph |}.

(** ** _make_dim_param_fixed

    The callback only writes the declarations of the graph it is given,
    and it writes [value] into [dim_value]: the result is what the call
    leaves for a value within [is_int64]. *)
Definition _make_dim_param_fixed (graph : GraphProto) (param_name : string)
    (value : Z) : GraphProto :=
  iterate_graph_per_graph_func
    (fun graph => _replace_symbolic_dim_value graph param_name value) graph.

(** ** _make_input_shape_fixed

    The function mutates the graph and may raise after some dimensions have
    been rewritten. The result is the graph as the call leaves it, with the
    exception raised, if any. *)

(** The first graph input called [input_name], with its position. *)
Fixpoint find_input (inputs : list ValueInfoProto) (input_name : string)
    (pos : nat) : option (nat * ValueInfoProto) :=
  match inputs with
  | [] => None
  | i :: rest =>
      if decide (vi_name i = input_name) then Some (pos, i)
      else find_input rest input_name (S pos)
  end.

(** The dimensions of the graph input at position [pos], as they are now. *)
Definition input_dims (graph : GraphProto) (pos : nat) : list Dimension :=
  match g_input graph !! pos with
  | Some i =>
      match vi_type i with
      | tensor_type t => dim (shape_of t)
      | _ => []
      end
  | None => []
  end.

(** Overwrite dimension [idx] of the graph input at position [pos]; the
    dimension written holds a value within [is_int64]. *)
Definition set_input_dim (graph : GraphProto) (pos idx : nat)
    (d : Dimension) : GraphProto :=
  {| g_node := g_node graph;
     g_input :=
       alter (fun i =>
                match vi_type i with
                | tensor_type t =>
                    {| vi_name := vi_name i;
                       vi_type :=
                         tensor_type
                           {| elem_type := elem_type t;
                              shape :=
                                (fun s => {| dim := <[idx := d]> (dim s) |})
                                  <$> shape t |} |}
                | _ => i
                end)
             pos (g_input graph);
     g_output := g_output graph;
     g_value_info := g_value_info graph;
     g_initializer := g_initializer graph |}.

(** The loop [for dim in shape.dim] with its counter [idx]. The input [i]
    is an object of the graph, so a replacement of a [dim_param] made
    through the whole graph is seen by the later iterations: every step
    reads dimension [idx] from the current graph. [remaining] counts the
    dimensions still to visit. The loop is entered with shapes of equal
    rank, so both lookups succeed at every step. A requested value is
    written into [dim_value] when the dimension is symbolic or unknown:
    the result is what the loop leaves for values within [is_int64]. *)
Fixpoint fix_dims (graph : GraphProto) (pos : nat) (fixed_shape : list Z)
    (idx remaining : nat) : GraphProto * option ValueError :=
  match remaining with
  | O => (graph, None)
  | S remaining' =>
      match input_dims graph pos !! idx, fixed_shape !! idx with
      | Some d, Some requested =>
          match d_value d with
          | dim_value existing =>
              if decide (existing ≠ requested)
              then (graph, Some (FixedSizeConflict existing requested (idx + 1)))
              else fix_dims graph pos fixed_shape (S idx) remaining'
          | dim_param p =>
              fix_dims (_make_dim_param_fixed graph p requested)
                       pos fixed_shape (S idx) remaining'
          | dim_unset =>
              fix_dims (set_input_dim graph pos idx
                          {| d_value := dim_value requested; d_denotation := None |})
                       pos fixed_shape (S idx) remaining'
          end
      | _, _ => (graph, None)
      end
  end.

Definition _make_input_shape_fixed (graph : GraphProto) (input_name : string)
    (fixed_shape : list Z) : GraphProto * option ValueError :=
  match find_input (g_input graph) input_name 0 with
  | Some (pos, i) =>
      match vi_type i with
      | tensor_type t =>
          let shape := shape_of t in
          if decide (length (dim shape) ≠ length fixed_shape)
          then (graph, Some (RankMismatch (length (dim shape)) (length fixed_shape)))
          else fix_dims graph pos fixed_shape 0 (length (dim shape))
      | _ => (graph, Some (NotATensor input_name))
      end
  | None =>
      (graph, Some (InputNotFound input_name (map vi_name (g_input graph))))
  end.

(** ** is_fixed_size_tensor *)

(** The loop over [shape.dim]: it leaves [is_fixed] true unless it meets a
    dimension without a value greater than zero, where it stops. *)
Fixpoint all_dims_fixed (dims : list Dimension) : bool :=
  match dims with
  | [] => true
  | d :: rest =>
      match d_value d with
      | dim_value v => if decide (v > 0)%Z then all_dims_fixed rest else false
      | _ => false
      end
  end.

Definition is_fixed_size_tensor (value : ValueInfoProto) : bool :=
  match vi_type value with
  | tensor_type t =>
      let shape := shape_of t in
      if message_truth shape then all_dims_fixed (dim shape) else false
  | _ => false
  end.

(** ** Producer and consumer maps *)

(** The maps are keyed by node objects, hashed by [id]: two nodes are the
    same key only when they are the same object. A node object of the
    analysed graph is identified here by its place in the tree of messages:
    the index of the node in its graph, preceded, for a node of a subgraph,
    by the place of the owning node and the index of the attribute holding
    the subgraph. *)
Abbreviation NodeId := (list nat).

(** The two dictionaries the traversal fills in. *)
Record Links : Type := {
  node_to_producers : gmap NodeId (gset NodeId);
  node_to_consumers : gmap NodeId (gset NodeId)
}.

Definition no_links : Links :=
  {| node_to_producers := ∅; node_to_consumers := ∅ |}.

(** [n in d[key]], false when [key] is not in the dictionary. *)
Definition linked (d : gmap NodeId (gset NodeId)) (key n : NodeId) : Prop :=
  ∃ s, d !! key = Some s ∧ n ∈ s.

(** [d[key] = set()] unless [key] is there, then [d[key].add(n)]. *)
Definition add_link (d : gmap NodeId (gset NodeId)) (key n : NodeId)
    : gmap NodeId (gset NodeId) :=
  let d' := if decide (is_Some (d !! key)) then d else <[key := ∅]> d in
  alter (fun s => s ∪ {[n]}) key d'.

Definition _create_producer_consumer_link (links : Links)
    (producer consumer : NodeId) : Links :=
  {| node_to_producers := add_link (node_to_producers links) consumer producer;
     node_to_consumers := add_link (node_to_consumers links) producer consumer |}.

(** [for o in node.output: producers[o] = node] *)
Definition record_outputs {A : Type} (producers : gmap string A)
    (outputs : list string) (node : A) : gmap string A :=
  foldl (fun producers o => <[o := node]> producers) producers outputs.

Section scope.
(** The recursive call of [_map_node_dependencies] on a subgraph. *)
Variable recurse : GraphProto -> NodeId -> Links -> gset string * Links.
Variables graph_inputs initializers : gset string.

Definition is_local_value (producers : gmap string NodeId)
    (value : string) : bool :=
  bool_decide (value ∈ dom producers)
  || bool_decide (value ∈ initializers)
  || bool_decide (value ∈ graph_inputs).

(** [for attr in node.attribute]: the implicit inputs of every subgraph
    are appended to [inputs]. A set is appended in the order of its
    iteration; the links and the implicit inputs that result do not
    depend on that order. [j] is the index of the attribute. *)
Fixpoint gather_inputs (attrs : list AttributeProto) (node : NodeId)
    (j : nat) (inputs : list string) (links : Links)
    : list string * Links :=
  match attrs with
  | [] => (inputs, links)
  | attr :: attrs' =>
      match g attr with
      | Some sub =>
          let '(subgraph_implicit_inputs, links') :=
            recurse sub (node ++ [j]) links in
          gather_inputs attrs' node (S j)
            (inputs ++ elements subgraph_implicit_inputs) links'
      | None => gather_inputs attrs' node (S j) inputs links
      end
  end.

(** [for i in inputs] *)
Fixpoint link_inputs (inputs : list string)
    (producers : gmap string NodeId) (node : NodeId)
    (implicit_inputs : gset string) (links : Links)
    : gset string * Links :=
  match inputs with
  | [] => (implicit_inputs, links)
  | i :: inputs' =>
      if decide (i = "")
      then link_inputs inputs' producers node implicit_inputs links
      else if is_local_value producers i
      then match producers !! i with
           | Some producer =>
               link_inputs inputs' producers node implicit_inputs
                 (_create_producer_consumer_link links producer node)
           | None =>
               link_inputs inputs' producers node implicit_inputs links
           end
      else link_inputs inputs' producers node
             (implicit_inputs ∪ {[i]}) links
  end.

(** [for node in graph.node]; [k] is the index of the node in the graph
    whose place is [scope]. *)
Fixpoint map_nodes (nodes : list NodeProto) (scope : NodeId) (k : nat)
    (producers : gmap string NodeId) (implicit_inputs : gset string)
    (links : Links) : gset string * Links :=
  match nodes with
  | [] => (implicit_inputs, links)
  | node :: nodes' =>
      let '(inputs, links1) :=
        gather_inputs (n_attribute node) (scope ++ [k]) 0 (n_input node) links in
      let '(implicit_inputs', links2) :=
        link_inputs inputs producers (scope ++ [k]) implicit_inputs links1 in
      map_nodes nodes' scope (S k)
        (record_outputs producers (n_output node) (scope ++ [k]))
        implicit_inputs' links2
  end.
End scope.

(** [_map_node_dependencies]: fills the two dictionaries and returns the
    implicit inputs of the graph. [scope] is the place of the graph in the
    tree ([[]] for the top-level graph). *)
Fixpoint _map_node_dependencies (graph : GraphProto) (scope : NodeId)
    (links : Links) {struct graph} : gset string * Links :=
  let graph_inputs : gset string := list_to_set (map vi_name (g_input graph)) in
  let initializers : gset string := list_to_set (map t_name (g_initializer graph)) in
  map_nodes _map_node_dependencies graph_inputs initializers
    (g_node graph) scope 0 ∅ ∅ links.

(** [sorted] on strings: ascending in the order of the characters' codes. *)
Definition str_le (a b : string) : Prop := (a <=? b)%string = true.

#[global] Instance str_le_dec a b : Decision (str_le a b).
Proof. unfold str_le. apply _. Defined.

Definition sorted (names : list string) : list string :=
  merge_sort str_le names.

(** The class [onnx.NodeProto] as the interpreter holds it: its [__hash__]
    attribute, a function of the object. An object is seen through what
    [id] returns for it and through its content. *)
Record NodeObject : Type := {
  id : Z;
  content : NodeProto
}.

Inductive HashResult : Type :=
| hash_is (h : Z)
| hash_raises.

Record NodeProtoClass : Type := {
  __hash__ : NodeObject -> HashResult
}.

(** ** get_producer_consumer_maps

    The call first assigns [NodeProto.__hash__], an effect on the class the
    whole process shares, so the class is passed in and out. *)
Definition get_producer_consumer_maps (graph : GraphProto)
    (cls : NodeProtoClass)
    : NodeProtoClass *
      (ValueError + gmap NodeId (gset NodeId) * gmap NodeId (gset NodeId)) :=
  let cls' := {| __hash__ := fun self => hash_is (id self) |} in
  let '(implicit_inputs, links) := _map_node_dependencies graph [] no_links in
  if decide (implicit_inputs ≠ ∅)
  then (cls', inl (MissingInputs (sorted (elements implicit_inputs))))
  else (cls', inr (node_to_producers links, node_to_consumers links)).

(** ** Notions the properties are stated with *)

(** The implicit inputs [_map_node_dependencies] returns for a graph. They
    depend neither on the place of the graph nor on the links made so far
    (see [implicit_inputs_any]). *)
Definition implicit_inputs_of (graph : GraphProto) : gset string :=
  (_map_node_dependencies graph [] no_links).1.

(** What an attribute adds to the inputs of its node. *)
Definition attr_inputs (attr : AttributeProto) : list string :=
  match g attr with
  | Some sub => elements (implicit_inputs_of sub)
  | None => []
  end.

(** The list [inputs] of a node when the loop over it starts: the inputs
    of the node, then the implicit inputs of its subgraphs. *)
Definition effective_inputs (node : NodeProto) : list string :=
  n_input node ++ concat (map attr_inputs (n_attribute node)).

(** The dictionary [producers] when the node of index [k] is reached:
    every output name of the nodes before it, mapped to the index of the
    last of them that has it. *)
Fixpoint producer_table (nodes : list NodeProto) (k : nat)
    (producers : gmap string nat) : gmap string nat :=
  match nodes with
  | [] => producers
  | node :: nodes' =>
      producer_table nodes' (S k) (record_outputs producers (n_output node) k)
  end.

Definition producers_before (nodes : list NodeProto) (k : nat)
    : gmap string nat :=
  producer_table (take k nodes) 0 ∅.

Definition graph_inputs_of (graph : GraphProto) : gset string :=
  list_to_set (map vi_name (g_input graph)).

Definition initializers_of (graph : GraphProto) : gset string :=
  list_to_set (map t_name (g_initializer graph)).

(** [is_local_value] as the node of index [k] of the graph sees it. *)
Definition resolvable (graph : GraphProto) (k : nat) (x : string) : bool :=
  is_local_value (graph_inputs_of graph) (initializers_of graph)
    ((fun i => [i]) <$> producers_before (g_node graph) k) x.

(** The graph found at a place of the tree: [[]] is the graph itself,
    [k :: j :: place] goes through attribute [j] of node [k]. *)
Fixpoint subgraph_at (graph : GraphProto) (place : NodeId)
    : option GraphProto :=
  match place with
  | [] => Some graph
  | k :: j :: place' =>
      node ← g_node graph !! k;
      attr ← n_attribute node !! j;
      sub ← g attr;
      subgraph_at sub place'
  | _ => None
  end.

(** A call of [_create_producer_consumer_link] made while the nodes of
    [graph], placed at [scope], are processed: node [k] has the name [x]
    among its inputs, [x] is not empty, and [producers] maps it to node
    [i]. *)
Definition local_edge (graph : GraphProto) (scope : NodeId)
    (producer consumer : NodeId) : Prop :=
  ∃ i k node x,
    producer = scope ++ [i] ∧ consumer = scope ++ [k] ∧
    g_node graph !! k = Some node ∧
    x ∈ effective_inputs node ∧ x ≠ "" ∧
    producers_before (g_node graph) k !! x = Some i.

(** The same, in the graph or in any graph nested in it. *)
Definition edge (graph : GraphProto) (scope : NodeId)
    (producer consumer : NodeId) : Prop :=
  ∃ place sub,
    subgraph_at graph place = Some sub ∧
    local_edge sub (scope ++ place) producer consumer.

(** The links after a list of calls. *)
Definition link_all (links : Links) (edges : list (NodeId * NodeId)) : Links :=
  foldl (fun links e => _create_producer_consumer_link links e.1 e.2) links edges.

(** ** Notions used by the proofs *)

(** The calls of [_create_producer_consumer_link] the loop over [inputs]
    makes for a node, in order. *)
Definition input_edges (inputs : list string)
    (producers : gmap string NodeId) (node : NodeId)
    : list (NodeId * NodeId) :=
  omap (fun x => if decide (x = "") then None
                 else (fun p => (p, node)) <$> producers !! x) inputs.

(** The names the loop over [inputs] adds to [implicit_inputs]. *)
Definition input_implicit (graph_inputs initializers : gset string)
    (inputs : list string) (producers : gmap string NodeId) : gset string :=
  list_to_set
    (filter (fun x => x ≠ "" ∧
                      is_local_value graph_inputs initializers producers x = false)
            inputs).

(** What a call on [graph] does: it returns the implicit inputs of the
    graph and makes a list of links whose pairs are the edges of the graph. *)
Definition traced (graph : GraphProto) : Prop :=
  ∀ scope, ∃ edges,
    (∀ links, _map_node_dependencies graph scope links
              = (implicit_inputs_of graph, link_all links edges)) ∧
    (∀ p c, (p, c) ∈ edges ↔ edge graph scope p c).

(** The depth to which subgraphs are nested in a graph. *)
Fixpoint nesting_depth (graph : GraphProto) : nat :=
  S (max_list
       (map (fun node =>
               max_list
                 (map (fun attr =>
                         match g attr with
                         | Some sub => nesting_depth sub
                         | None => O
                         end)
                      (n_attribute node)))
            (g_node graph))).

(** The indices of the nodes that have [x] among their outputs. *)
Fixpoint producer_indices_from (nodes : list NodeProto) (k : nat)
    (x : string) : list nat :=
  match nodes with
  | [] => []
  | node :: nodes' =>
      if decide (x ∈ n_output node)
      then k :: producer_indices_from nodes' (S k) x
      else producer_indices_from nodes' (S k) x
  end.

Definition producer_indices (graph : GraphProto) (x : string) : list nat :=
  producer_indices_from (g_node graph) 0 x.

(** [x] is a declared input, an initializer or an output of a node of the
    graph: what [is_local_value] answers once every node is recorded. *)
Definition defined_in_scope (graph : GraphProto) (x : string) : bool :=
  resolvable graph (length (g_node graph)) x.

#[global] Instance linked_dec d key n : Decision (linked d key n).
Proof.
  unfold linked. destruct (d !! key) as [s|].
  - destruct (decide (n ∈ s)) as [Hin|Hnin].
    + left. exists s. split; [reflexivity|exact Hin].
    + right. intros (s' & Hs' & Hin). apply Hnin. congruence.
  - right. intros (s' & Hs' & _). discriminate.
Defined.

(** The links [get_producer_consumer_maps] builds for a graph before it
    looks at the implicit inputs. *)
Definition links_of (graph : GraphProto) : Links :=
  (_map_node_dependencies graph [] no_links).2.

(** Whether the character [c] occurs in [s]. *)
Fixpoint occurs (c : ascii) (s : string) : bool :=
  match s with
  | EmptyString => false
  | String c' rest => bool_decide (c' = c) || occurs c rest
  end.

(** [s.split(sep)] for a separator of one character: the pieces of [s]
    between the occurrences of [sep]. *)
Fixpoint split_on (sep : ascii) (s : string) : list string :=
  match s with
  | EmptyString => [""]
  | String c rest =>
      if decide (c = sep) then "" :: split_on sep rest
      else match split_on sep rest with
           | piece :: pieces => String c piece :: pieces
           | [] => [String c ""]
           end
  end.

(** ** Graphs used as examples *)

Definition mk_node (inputs outputs : list string)
    (attrs : list AttributeProto) : NodeProto :=
  {| n_name := ""; op_type := "Op"; n_input := inputs; n_output := outputs;
     n_attribute := attrs |}.

Definition mk_graph (nodes : list NodeProto) (inputs : list string)
    : GraphProto :=
  {| g_node := nodes;
     g_input := map (fun s => {| vi_name := s; vi_type := type_unset |}) inputs;
     g_output := []; g_value_info := []; g_initializer := [] |}.

Definition body (sub : GraphProto) : AttributeProto :=
  {| a_name := "body"; g := Some sub |}.

Definition any_class : NodeProtoClass := {| __hash__ := fun _ => hash_raises |}.

Definition id_class : NodeProtoClass :=
  {| __hash__ := fun self => hash_is (id self) |}.

(** a -> [0] -> x -> [1] -> y *)
Definition chain_graph : GraphProto :=
  mk_graph [mk_node ["a"] ["x"] []; mk_node ["x"] ["y"] []] ["a"].

(** Node 0 makes x; node 1 owns a subgraph whose only node reads x. *)
Definition closure_graph : GraphProto :=
  mk_graph [mk_node ["a"] ["x"] [];
            mk_node [] ["y"] [body (mk_graph [mk_node ["x"] ["z"] []] [])]]
           ["a"].

(** The same two nodes, the owner of the subgraph first. *)
Definition late_producer_graph : GraphProto :=
  mk_graph [mk_node [] ["y"] [body (mk_graph [mk_node ["x"] ["z"] []] [])];
            mk_node ["a"] ["x"] []]
           ["a"].

(** Nodes 0 and 1 both make x; node 2 reads it. *)
Definition shadow_graph : GraphProto :=
  mk_graph [mk_node ["a"] ["x"] []; mk_node ["a"] ["x"] [];
            mk_node ["x"] ["y"] []] ["a"].

(** Node 0 makes x and w, node 1 makes x again, node 2 reads x and w. *)
Definition shadow_two_outputs_graph : GraphProto :=
  mk_graph [mk_node ["a"] ["x"; "w"] []; mk_node ["a"] ["x"] [];
            mk_node ["x"; "w"] ["y"] []] ["a"].

(** Node 0 reads x, which only node 1 makes. *)
Definition forward_reference_graph : GraphProto :=
  mk_graph [mk_node ["x"] ["y"] []; mk_node ["a"] ["x"] []] ["a"].

(** Nodes 0 and 1 make x, node 2 reads it, node 3 makes x once more. *)
Definition rewritten_later_graph : GraphProto :=
  mk_graph [mk_node ["a"] ["x"] []; mk_node ["a"] ["x"] [];
            mk_node ["x"] ["y"] []; mk_node ["a"] ["x"] []] ["a"].

(** Node 0 makes w; node 1 reads w and x; only node 2, after it, makes x. *)
Definition out_of_order_graph : GraphProto :=
  mk_graph [mk_node ["a"] ["w"] []; mk_node ["w"; "x"] ["y"] [];
            mk_node ["a"] ["x"] []] ["a"].

(** ** What fixing a symbolic dimension promises

    These relations say, field by field, how a graph after
    [_make_dim_param_fixed] relates to the graph before. *)

(** A dimension named [param_name] becomes the value and nothing else;
    any other dimension is as it was. *)
Definition dim_fixed (param_name : string) (value : Z)
    (d d' : Dimension) : Prop :=
  (d_value d = dim_param param_name →
   d' = {| d_value := dim_value value; d_denotation := None |}) ∧
  (d_value d ≠ dim_param param_name → d' = d).

Definition shape_fixed (param_name : string) (value : Z)
    (s s' : option TensorShapeProto) : Prop :=
  match s, s' with
  | Some s, Some s' => Forall2 (dim_fixed param_name value) (dim s) (dim s')
  | None, None => True
  | _, _ => False
  end.

Definition value_info_fixed (param_name : string) (value : Z)
    (vi vi' : ValueInfoProto) : Prop :=
  vi_name vi' = vi_name vi ∧
  match vi_type vi, vi_type vi' with
  | tensor_type t, tensor_type t' =>
      elem_type t' = elem_type t ∧
      shape_fixed param_name value (shape t) (shape t')
  | ty, ty' => ty' = ty
  end.

(** Everything of a node but the content of its subgraphs. *)
Definition same_node_shell (node node' : NodeProto) : Prop :=
  n_name node' = n_name node ∧ op_type node' = op_type node ∧
  n_input node' = n_input node ∧ n_output node' = n_output node ∧
  Forall2 (fun attr attr' =>
             a_name attr' = a_name attr ∧ (is_Some (g attr') ↔ is_Some (g attr)))
          (n_attribute node) (n_attribute node').

Definition scope_fixed (param_name : string) (value : Z)
    (graph graph' : GraphProto) : Prop :=
  Forall2 (value_info_fixed param_name value) (g_input graph) (g_input graph') ∧
  Forall2 (value_info_fixed param_name value) (g_output graph) (g_output graph') ∧
  Forall2 (value_info_fixed param_name value)
          (g_value_info graph) (g_value_info graph') ∧
  g_initializer graph' = g_initializer graph ∧
  Forall2 same_node_shell (g_node graph) (g_node graph').

(** ** Values and graphs used as examples *)

Definition fixed_dim (v : Z) : Dimension :=
  {| d_value := dim_value v; d_denotation := None |}.

Definition symbolic_dim (p : string) : Dimension :=
  {| d_value := dim_param p; d_denotation := None |}.

Definition unknown_dim : Dimension :=
  {| d_value := dim_unset; d_denotation := None |}.

Definition tensor_value (name : string) (dims : list Dimension)
    : ValueInfoProto :=
  {| vi_name := name;
     vi_type := tensor_type {| elem_type := 1; shape := Some {| dim := dims |} |} |}.

(** A float tensor for which no shape was declared. *)
Definition shapeless_value : ValueInfoProto :=
  {| vi_name := "x";
     vi_type := tensor_type {| elem_type := 1; shape := None |} |}.

(** One input x of shape [1, 3, 224, 224]. *)
Definition image_graph : GraphProto :=
  {| g_node := [];
     g_input := [tensor_value "x" [fixed_dim 1; fixed_dim 3; fixed_dim 224; fixed_dim 224]];
     g_output := []; g_value_info := []; g_initializer := [] |}.

(** An input and an internal value that share the symbolic dimension
    batch, and a node whose subgraph declares a value with it too. *)
Definition batch_graph : GraphProto :=
  {| g_node :=
       [mk_node ["data"] ["hidden"]
          [body {| g_node := [];
                   g_input := [];
                   g_output := [];
                   g_value_info :=
                     [tensor_value "inner" [symbolic_dim "batch"; symbolic_dim "seq"]];
                   g_initializer := [] |}]];
     g_input :=
       [tensor_value "data"
          [symbolic_dim "batch"; fixed_dim 3; fixed_dim 224; fixed_dim 224]];
     g_output := [];
     g_value_info := [tensor_value "hidden" [symbolic_dim "batch"; fixed_dim 64]];
     g_initializer := [] |}.

Definition batch_graph_fixed : GraphProto :=
  {| g_node :=
       [mk_node ["data"] ["hidden"]
          [body {| g_node := [];
                   g_input := [];
                   g_output := [];
                   g_value_info :=
                     [tensor_value "inner" [fixed_dim 8; symbolic_dim "seq"]];
                   g_initializer := [] |}]];
     g_input :=
       [tensor_value "data" [fixed_dim 8; fixed_dim 3; fixed_dim 224; fixed_dim 224]];
     g_output := [];
     g_value_info := [tensor_value "hidden" [fixed_dim 8; fixed_dim 64]];
     g_initializer := [] |}.

(** * The rest of the module *)

(** ** iterate_graph_per_node_func

    [per_node_func] is called for its effect on what the keyword arguments
    refer to; here that is a state it maps to the state it leaves. The
    callbacks covered only read the node they are given: one that writes
    the attributes of its node changes what the loop after it visits. Every node is passed to the callback,
    then the traversal recurses into each attribute of the node whose
    field [g] is set, in the order of the attributes. *)
Section iterate_per_node.
Context {State : Type}.
Variable per_node_func : NodeProto -> State -> State.

Fixpoint iterate_graph_per_node_func (graph : GraphProto) (state : State)
    {struct graph} : State :=
  foldl (fun state node =>
           foldl (fun state attr =>
                    match g attr with
                    | Some sub => iterate_graph_per_node_func sub state
                    | None => state
                    end)
                 (per_node_func node state) (n_attribute node))
        state (g_node graph).
End iterate_per_node.

(** The nodes in the order in which the traversal passes them to its
    callback: what a callback that appends its node to a list collects. *)
Definition visited_nodes (graph : GraphProto) : list NodeProto :=
  iterate_graph_per_node_func (fun node seen => seen ++ [node]) graph [].

(** [node] is a node of the graph or of a graph nested in it. *)
Definition node_of (graph : GraphProto) (node : NodeProto) : Prop :=
  ∃ place sub k,
    subgraph_at graph place = Some sub ∧ g_node sub !! k = Some node.

(** The calls made on a graph: a list of nodes over which every callback
    is folded, with the nodes it holds. *)
Definition calls_of (graph : GraphProto) (calls : list NodeProto) : Prop :=
  (∀ State (f : NodeProto → State → State) state,
     iterate_graph_per_node_func f graph state
     = foldl (fun state node => f node state) state calls) ∧
  (∀ node, node ∈ calls ↔ node_of graph node).


(** ** Where a symbolic dimension is used *)

Definition dim_uses (param_name : string) (d : Dimension) : bool :=
  match d_value d with
  | dim_param p => bool_decide (p = param_name)
  | _ => false
  end.

Definition dims_use (param_name : string) (dims : list Dimension) : bool :=
  existsb (dim_uses param_name) dims.

Definition value_info_uses (param_name : string) (vi : ValueInfoProto) : bool :=
  match vi_type vi with
  | tensor_type t => dims_use param_name (dim (shape_of t))
  | _ => false
  end.

(** Some tensor shape among the inputs, outputs and value-infos of the
    graph, or of a graph nested in it, has a dimension named
    [param_name]. *)
Fixpoint graph_uses (param_name : string) (graph : GraphProto) : bool :=
  existsb (value_info_uses param_name) (g_input graph)
  || existsb (value_info_uses param_name) (g_output graph)
  || existsb (value_info_uses param_name) (g_value_info graph)
  || existsb (fun node =>
                existsb (fun attr =>
                           match g attr with
                           | Some sub => graph_uses param_name sub
                           | None => false
                           end)
                        (n_attribute node))
             (g_node graph).

(** ** What fixing the shape of an input keeps

    A dimension is kept when it is as it was, or when it held no value and
    now holds one. *)
Definition dim_kept (d d' : Dimension) : Prop :=
  d' = d ∨
  ((∀ e, d_value d ≠ dim_value e) ∧
   ∃ e, d' = {| d_value := dim_value e; d_denotation := None |}).

Definition shape_kept (s s' : option TensorShapeProto) : Prop :=
  match s, s' with
  | Some s, Some s' => Forall2 dim_kept (dim s) (dim s')
  | None, None => True
  | _, _ => False
  end.

Definition value_info_kept (vi vi' : ValueInfoProto) : Prop :=
  vi_name vi' = vi_name vi ∧
  match vi_type vi, vi_type vi' with
  | tensor_type t, tensor_type t' =>
      elem_type t' = elem_type t ∧ shape_kept (shape t) (shape t')
  | ty, ty' => ty' = ty
  end.

Definition scope_kept (graph graph' : GraphProto) : Prop :=
  Forall2 value_info_kept (g_input graph) (g_input graph') ∧
  Forall2 value_info_kept (g_output graph) (g_output graph') ∧
  Forall2 value_info_kept (g_value_info graph) (g_value_info graph') ∧
  g_initializer graph' = g_initializer graph ∧
  Forall2 same_node_shell (g_node graph) (g_node graph').

(** The same tree of graphs, every graph of it kept. *)
Definition graph_kept (graph graph' : GraphProto) : Prop :=
  ∀ place,
    match subgraph_at graph place, subgraph_at graph' place with
    | Some sub, Some sub' => scope_kept sub sub'
    | None, None => True
    | _, _ => False
    end.

(** ** When the shape of an input can be fixed *)

(** The requested shape agrees with a declared one: a dimension that holds
    a value is asked to keep it, and two dimensions with the same symbolic
    name are asked to take the same value. *)
Definition compatible (dims : list Dimension) (fixed_shape : list Z) : Prop :=
  ∀ idx d r,
    dims !! idx = Some d → fixed_shape !! idx = Some r →
    match d_value d with
    | dim_value e => e = r
    | dim_param p =>
        ∀ j dj rj,
          (j < idx)%nat → dims !! j = Some dj → d_value dj = dim_param p →
          fixed_shape !! j = Some rj → rj = r
    | dim_unset => True
    end.

(** The checks of the loop of [_make_input_shape_fixed], on the dimensions
    still to visit: the replacement of a symbolic name reaches the later
    dimensions of the input itself. *)
Fixpoint shapes_agree (dims : list Dimension) (fixed_shape : list Z)
    {struct fixed_shape} : bool :=
  match dims, fixed_shape with
  | d :: dims', r :: fixed_shape' =>
      match d_value d with
      | dim_value e => bool_decide (e = r) && shapes_agree dims' fixed_shape'
      | dim_param p => shapes_agree (map (replace_dim p r) dims') fixed_shape'
      | dim_unset => shapes_agree dims' fixed_shape'
      end
  | _, _ => true
  end.

(** The error that loop stops with, if any, on the dimensions still to
    visit, the first of them having index [idx]. *)
Fixpoint first_conflict (dims : list Dimension) (fixed_shape : list Z)
    (idx : nat) {struct fixed_shape} : option ValueError :=
  match dims, fixed_shape with
  | d :: dims', r :: fixed_shape' =>
      match d_value d with
      | dim_value e =>
          if decide (e ≠ r) then Some (FixedSizeConflict e r (idx + 1))
          else first_conflict dims' fixed_shape' (S idx)
      | dim_param p =>
          first_conflict (map (replace_dim p r) dims') fixed_shape' (S idx)
      | dim_unset => first_conflict dims' fixed_shape' (S idx)
      end
  | _, _ => None
  end.

(** ** More notions for the maps *)

(** The node a place of the tree stands for. *)
Definition node_at (graph : GraphProto) (node : NodeId) : option NodeProto :=
  match reverse node with
  | k :: place =>
      sub ← subgraph_at graph (reverse place);
      g_node sub !! k
  | [] => None
  end.

(** The graph without its declared inputs called [x]. *)
Definition without_input (graph : GraphProto) (x : string) : GraphProto :=
  {| g_node := g_node graph;
     g_input := filter (fun vi => vi_name vi ≠ x) (g_input graph);
     g_output := g_output graph;
     g_value_info := g_value_info graph;
     g_initializer := g_initializer graph |}.

(** ** get_optimization_level *)

(** [onnxruntime.GraphOptimizationLevel] *)
Inductive GraphOptimizationLevel : Type :=
| ORT_DISABLE_ALL
| ORT_ENABLE_BASIC
| ORT_ENABLE_EXTENDED
| ORT_ENABLE_ALL.

(** The result is the level, or the text of the [ValueError] raised. *)
Definition get_optimization_level (level : string)
    : string + GraphOptimizationLevel :=
  if decide (level = "disable") then inr ORT_DISABLE_ALL
  else if decide (level = "basic") then inr ORT_ENABLE_BASIC
  else if decide (level = "extended") then inr ORT_ENABLE_EXTENDED
  else if decide (level = "all") then inr ORT_ENABLE_ALL
  else inl ("Invalid optimization level of " +:+ level).

(** * Properties *)

(** Decides a closed proposition by evaluation. *)
Ltac by_compute := apply (bool_decide_unpack _); vm_compute; exact I.

(** ** The two dictionaries *)

Lemma linked_add_link d key n key' n' :
  linked (add_link d key n) key' n' ↔ linked d key' n' ∨ (key' = key ∧ n' = n).
Proof.
  unfold linked, add_link.
  destruct (decide (key' = key)) as [->|Hne].
  - rewrite lookup_alter_eq. case_decide as Hs.
    + destruct Hs as [s Hs]. rewrite Hs. simpl. split.
      * intros (s' & [= <-] & Hin). set_solver.
      * intros [(s' & [= <-] & Hin)|[_ ->]]; eexists; split; eauto; set_solver.
    + rewrite lookup_insert_eq. simpl. split.
      * intros (s' & [= <-] & Hin). set_solver.
      * intros [(s' & Hs' & _)|[_ ->]].
        -- exfalso. apply Hs. eauto.
        -- eexists; split; eauto. set_solver.
  - rewrite lookup_alter_ne by done. case_decide.
    + naive_solver.
    + rewrite lookup_insert_ne by done. naive_solver.
Qed.

Lemma add_link_nonempty d key n :
  (∀ k s, d !! k = Some s → s ≠ ∅) →
  ∀ k s, add_link d key n !! k = Some s → s ≠ ∅.
Proof.
  intros Hd k s. unfold add_link.
  destruct (decide (k = key)) as [->|Hne].
  - rewrite lookup_alter_eq. intros Hs.
    apply fmap_Some in Hs as (s' & _ & ->). set_solver.
  - rewrite lookup_alter_ne by done. case_decide.
    + apply Hd.
    + rewrite lookup_insert_ne by done. apply Hd.
Qed.

Lemma linked_link_all_producers edges links c p :
  linked (node_to_producers (link_all links edges)) c p ↔
  linked (node_to_producers links) c p ∨ (p, c) ∈ edges.
Proof.
  revert links. induction edges as [|[p' c'] edges IH]; intros links; simpl.
  - set_solver.
  - unfold link_all in *. simpl. rewrite IH. simpl. rewrite linked_add_link.
    rewrite elem_of_cons. naive_solver.
Qed.

Lemma linked_link_all_consumers edges links c p :
  linked (node_to_consumers (link_all links edges)) p c ↔
  linked (node_to_consumers links) p c ∨ (p, c) ∈ edges.
Proof.
  revert links. induction edges as [|[p' c'] edges IH]; intros links; simpl.
  - set_solver.
  - unfold link_all in *. simpl. rewrite IH. simpl. rewrite linked_add_link.
    rewrite elem_of_cons. naive_solver.
Qed.

Lemma link_all_app links e1 e2 :
  link_all links (e1 ++ e2) = link_all (link_all links e1) e2.
Proof. apply foldl_app. Qed.

Lemma link_inputs_spec gi ini inputs producers node imp links :
  link_inputs gi ini inputs producers node imp links =
  (imp ∪ input_implicit gi ini inputs producers,
   link_all links (input_edges inputs producers node)).
Proof.
  revert imp links. unfold input_implicit.
  induction inputs as [|i inputs IH]; intros imp links; simpl.
  - f_equal. set_solver.
  - destruct (decide (i = "")) as [->|Hi].
    + rewrite IH. rewrite filter_cons_False by naive_solver. done.
    + destruct (is_local_value gi ini producers i) eqn:Hloc.
      * rewrite filter_cons_False by (rewrite Hloc; naive_solver).
        destruct (producers !! i) as [producer|] eqn:Hp; simpl; by rewrite IH.
      * rewrite filter_cons_True by done.
        assert (producers !! i = None) as ->.
        { apply not_elem_of_dom. intros Hin.
          unfold is_local_value in Hloc.
          rewrite (bool_decide_eq_true_2 _ Hin) in Hloc. done. }
        simpl. rewrite IH. f_equal. set_solver.
Qed.

Lemma elem_of_input_implicit gi ini inputs producers x :
  x ∈ input_implicit gi ini inputs producers ↔
  x ∈ inputs ∧ x ≠ "" ∧ is_local_value gi ini producers x = false.
Proof.
  unfold input_implicit. rewrite elem_of_list_to_set, list_elem_of_filter.
  naive_solver.
Qed.

Lemma elem_of_input_edges inputs producers node p c :
  (p, c) ∈ input_edges inputs producers node ↔
  c = node ∧ ∃ x, x ∈ inputs ∧ x ≠ "" ∧ producers !! x = Some p.
Proof.
  unfold input_edges. rewrite list_elem_of_omap. split.
  - intros (x & Hx & Hsome). case_decide; [done|].
    apply fmap_Some in Hsome as (p' & Hp & [= -> ->]). eauto.
  - intros (-> & x & Hx & Hne & Hp). exists x. split; [done|].
    rewrite decide_False by done. by rewrite Hp.
Qed.

Lemma is_local_value_dom {gi ini} (m m' : gmap string NodeId) x :
  dom m = dom m' → is_local_value gi ini m x = is_local_value gi ini m' x.
Proof. intros Hd. unfold is_local_value. by rewrite Hd. Qed.

Lemma input_implicit_dom gi ini inputs (m m' : gmap string NodeId) :
  dom m = dom m' → input_implicit gi ini inputs m = input_implicit gi ini inputs m'.
Proof.
  intros Hd. apply set_eq. intros x. rewrite !elem_of_input_implicit.
  by rewrite (is_local_value_dom m m' x Hd).
Qed.

Lemma record_outputs_fmap {A B} (f : A → B) (m : gmap string A) outs a :
  f <$> record_outputs m outs a = record_outputs (f <$> m) outs (f a).
Proof.
  unfold record_outputs. revert m.
  induction outs as [|o outs IH]; intros m; cbn [foldl]; [done|].
  rewrite IH. by rewrite fmap_insert.
Qed.

Lemma lookup_record_outputs {A} (m : gmap string A) outs a x :
  record_outputs m outs a !! x = if decide (x ∈ outs) then Some a else m !! x.
Proof.
  unfold record_outputs. revert m.
  induction outs as [|o outs IH]; intros m; cbn [foldl].
  - case_decide; [set_solver|done].
  - rewrite IH.
    destruct (decide (x ∈ outs)) as [Hin|Hnin].
    + rewrite decide_True; [done|]. set_solver.
    + destruct (decide (x = o)) as [->|Hne].
      * rewrite decide_True by set_solver. by rewrite lookup_insert_eq.
      * rewrite decide_False by set_solver. by rewrite lookup_insert_ne.
Qed.

Lemma producer_table_app l1 l2 k acc :
  producer_table (l1 ++ l2) k acc =
  producer_table l2 (k + length l1) (producer_table l1 k acc).
Proof.
  revert k acc. induction l1 as [|n l1 IH]; intros k acc; simpl.
  - by rewrite Nat.add_0_r.
  - rewrite IH. f_equal. lia.
Qed.

Lemma producers_before_S nodes k node :
  nodes !! k = Some node →
  producers_before nodes (S k) =
  record_outputs (producers_before nodes k) (n_output node) k.
Proof.
  intros Hk. unfold producers_before.
  rewrite (take_S_r _ _ _ Hk), producer_table_app. simpl.
  rewrite length_take_le; [done|]. apply lookup_lt_Some in Hk. lia.
Qed.

Lemma producers_before_0 nodes : producers_before nodes 0 = ∅.
Proof. done. Qed.

Lemma gather_inputs_spec attrs :
  (∀ attr sub, attr ∈ attrs → g attr = Some sub → traced sub) →
  ∀ node j inputs, ∃ edges,
    (∀ links, gather_inputs _map_node_dependencies attrs node j inputs links
              = (inputs ++ concat (map attr_inputs attrs), link_all links edges)) ∧
    (∀ p c, (p, c) ∈ edges ↔
            ∃ j' attr sub, attrs !! j' = Some attr ∧ g attr = Some sub ∧
                           edge sub (node ++ [j + j']) p c).
Proof.
  induction attrs as [|attr attrs IH]; intros Hsub node j inputs; simpl.
  - exists []. split; [intros; by rewrite app_nil_r|].
    intros p c. split; [inversion 1|]. by intros (j' & ? & ? & ? & _).
  - destruct (IH ltac:(intros a s Ha; apply Hsub; by right) node (S j)
                (inputs ++ attr_inputs attr)) as (E' & Hrun' & Hmem').
    destruct (g attr) as [sub|] eqn:Hg.
    + assert (attr_inputs attr = elements (implicit_inputs_of sub)) as Hai
        by (unfold attr_inputs; by rewrite Hg).
      destruct (Hsub attr sub ltac:(by left) Hg (node ++ [j])) as (E & Hrun & Hmem).
      exists (E ++ E'). split.
      * intros links. rewrite Hrun, <- Hai, Hrun', link_all_app.
        by rewrite <- app_assoc.
      * intros p c. rewrite elem_of_app, Hmem, Hmem'. split.
        -- intros [He|(j' & a & s & Hl & Hs & He)].
           ++ exists 0, attr, sub. by rewrite Nat.add_0_r.
           ++ exists (S j'), a, s. simpl. by rewrite Nat.add_succ_r.
        -- intros ([|j'] & a & s & Hl & Hs & He); simpl in Hl.
           ++ left. injection Hl as <-. rewrite Hg in Hs. injection Hs as <-.
              by rewrite Nat.add_0_r in He.
           ++ right. exists j', a, s. by rewrite Nat.add_succ_r in He.
    + assert (attr_inputs attr = []) as Hai
        by (unfold attr_inputs; by rewrite Hg).
      rewrite Hai, app_nil_r in Hrun'. rewrite Hai. exists E'. split.
      * intros links. by rewrite Hrun'.
      * intros p c. rewrite Hmem'. split.
        -- intros (j' & a & s & Hl & Hs & He).
           exists (S j'), a, s. simpl. by rewrite Nat.add_succ_r.
        -- intros ([|j'] & a & s & Hl & Hs & He); simpl in Hl.
           ++ injection Hl as <-. congruence.
           ++ exists j', a, s. by rewrite Nat.add_succ_r in He.
Qed.

(** ** The loops of [_map_node_dependencies] *)

Lemma map_nodes_spec gi ini all nodes pre :
  all = pre ++ nodes →
  (∀ node attr sub,
     node ∈ nodes → attr ∈ n_attribute node → g attr = Some sub → traced sub) →
  ∃ S : gset string,
    (∀ x, x ∈ S ↔
          ∃ k node, (length pre ≤ k)%nat ∧ all !! k = Some node ∧
                    x ∈ effective_inputs node ∧ x ≠ "" ∧
                    is_local_value gi ini
                      ((fun i => [i]) <$> producers_before all k) x = false) ∧
    ∀ scope, ∃ edges,
      (∀ imp links,
         map_nodes _map_node_dependencies gi ini nodes scope (length pre)
           ((fun i => scope ++ [i]) <$> producers_before all (length pre))
           imp links
         = (imp ∪ S, link_all links edges)) ∧
      (∀ p c, (p, c) ∈ edges ↔
         (∃ i k node x,
            (length pre ≤ k)%nat ∧ p = scope ++ [i] ∧ c = scope ++ [k] ∧
            all !! k = Some node ∧ x ∈ effective_inputs node ∧ x ≠ "" ∧
            producers_before all k !! x = Some i) ∨
         (∃ k node j attr sub,
            (length pre ≤ k)%nat ∧ all !! k = Some node ∧
            n_attribute node !! j = Some attr ∧ g attr = Some sub ∧
            edge sub ((scope ++ [k]) ++ [j]) p c)).
Proof.
  revert pre. induction nodes as [|node nodes IH]; intros pre Hall Hsub.
  - rewrite app_nil_r in Hall. subst all. exists ∅. split.
    + intros x. split; [set_solver|]. intros (k & n & Hk & Hl & _).
      apply lookup_lt_Some in Hl. lia.
    + intros scope. exists []. split.
      * intros imp links. simpl. f_equal. set_solver.
      * intros p c. split; [inversion 1|].
        intros [(i & k & n & x & Hk & _ & _ & Hl & _)|(k & n & j & a & s & Hk & Hl & _)];
          apply lookup_lt_Some in Hl; lia.
  - assert (Hk : all !! length pre = Some node).
    { subst all. by rewrite list_lookup_middle. }
    destruct (IH (pre ++ [node])) as (S' & HS' & Hrun').
    { by rewrite <- app_assoc. }
    { intros n a s Hn. apply Hsub. by right. }
    rewrite length_app in HS', Hrun'. simpl in HS', Hrun'.
    rewrite Nat.add_1_r in HS', Hrun'.
    set (k := length pre) in *.
    exists (input_implicit gi ini (effective_inputs node)
              ((fun i => [i]) <$> producers_before all k) ∪ S').
    split.
    + intros x. rewrite elem_of_union, elem_of_input_implicit, HS'. split.
      * intros [(Hx & Hne & Hloc)|(k' & n & Hk' & Hl & Hrest)].
        -- exists k, node. eauto.
        -- exists k', n. split; [lia|done].
      * intros (k' & n & Hk' & Hl & Hx & Hne & Hloc).
        destruct (decide (k' = k)) as [->|Hneq].
        -- left. rewrite Hk in Hl. injection Hl as <-. done.
        -- right. exists k', n. split; [lia|done].
    + intros scope.
      destruct (gather_inputs_spec (n_attribute node)
                  ltac:(intros a s Ha; eapply Hsub; [by left|done])
                  (scope ++ [k]) 0 (n_input node)) as (Eg & Hg & Hgmem).
      destruct (Hrun' scope) as (E' & HE' & HE'mem).
      set (producers := (fun i => scope ++ [i]) <$> producers_before all k) in *.
      exists (Eg ++ input_edges (effective_inputs node) producers (scope ++ [k]) ++ E').
      split.
      * intros imp links. simpl. rewrite Hg. fold (effective_inputs node).
        rewrite link_inputs_spec.
        rewrite (producers_before_S _ _ _ Hk), record_outputs_fmap in HE'.
        fold producers in HE'. rewrite HE'. rewrite !link_all_app.
        f_equal. rewrite <- (assoc_L (∪)). f_equal. f_equal.
        apply input_implicit_dom. unfold producers. by rewrite !dom_fmap_L.
      * intros p c. rewrite !elem_of_app, Hgmem, elem_of_input_edges, HE'mem.
        split.
        -- intros [(j & a & s & Hj & Hs & He)|[(-> & x & Hx & Hne & Hp)|
                    [(i & k' & n & x & Hk' & Hrest)|(k' & n & j & a & s & Hk' & Hrest)]]].
           ++ right. exists k, node, j, a, s. simpl in He. eauto 10.
           ++ left. unfold producers in Hp. rewrite lookup_fmap in Hp.
              apply fmap_Some in Hp as (i & Hi & ->).
              exists i, k, node, x. eauto 10.
           ++ left. exists i, k', n, x. split; [lia|done].
           ++ right. exists k', n, j, a, s. split; [lia|done].
        -- intros [(i & k' & n & x & Hk' & -> & -> & Hl & Hx & Hne & Hp)|
                   (k' & n & j & a & s & Hk' & Hl & Hj & Hs & He)].
           ++ destruct (decide (k' = k)) as [->|Hneq].
              ** right. left. split; [done|]. rewrite Hk in Hl. injection Hl as <-.
                 exists x. split; [done|]. split; [done|].
                 unfold producers. rewrite lookup_fmap, Hp. done.
              ** right. right. left. exists i, k', n, x. split; [lia|done].
           ++ destruct (decide (k' = k)) as [->|Hneq].
              ** left. rewrite Hk in Hl. injection Hl as <-.
                 exists j, a, s. simpl. done.
              ** right. right. right. exists k', n, j, a, s. split; [lia|done].
Qed.

Lemma nesting_depth_sub graph node attr sub :
  node ∈ g_node graph → attr ∈ n_attribute node → g attr = Some sub →
  (nesting_depth sub < nesting_depth graph)%nat.
Proof.
  intros Hn Ha Hs. destruct graph as [nodes ? ? ? ?]. simpl in *.
  apply Nat.lt_succ_r.
  etrans; [|apply max_list_elem_of_le, list_elem_of_fmap; exists node; split; [reflexivity|done]].
  etrans; [|apply max_list_elem_of_le, list_elem_of_fmap; exists attr; split; [reflexivity|done]].
  by rewrite Hs.
Qed.

Lemma GraphProto_nested_ind (P : GraphProto → Prop) :
  (∀ graph,
     (∀ node attr sub,
        node ∈ g_node graph → attr ∈ n_attribute node → g attr = Some sub →
        P sub) →
     P graph) →
  ∀ graph, P graph.
Proof.
  intros step graph.
  remember (nesting_depth graph) as d eqn:Hd.
  revert graph Hd. induction (lt_wf d) as [d _ IH]. intros graph ->.
  apply step. intros node attr sub Hn Ha Hs.
  eapply IH; [|reflexivity]. by eapply nesting_depth_sub.
Qed.

Lemma _map_node_dependencies_unfold graph scope links :
  _map_node_dependencies graph scope links =
  map_nodes _map_node_dependencies (graph_inputs_of graph) (initializers_of graph)
    (g_node graph) scope 0 ∅ ∅ links.
Proof. by destruct graph. Qed.

Lemma scope_spec graph :
  (∀ node attr sub,
     node ∈ g_node graph → attr ∈ n_attribute node → g attr = Some sub →
     traced sub) →
  traced graph ∧
  (∀ x, x ∈ implicit_inputs_of graph ↔
        ∃ k node, g_node graph !! k = Some node ∧
                  x ∈ effective_inputs node ∧ x ≠ "" ∧
                  resolvable graph k x = false).
Proof.
  intros Hsub.
  destruct (map_nodes_spec (graph_inputs_of graph) (initializers_of graph)
              (g_node graph) (g_node graph) [] eq_refl Hsub) as (S & HS & Hrun).
  simpl in HS, Hrun.
  assert (Himp : implicit_inputs_of graph = S).
  { unfold implicit_inputs_of. rewrite _map_node_dependencies_unfold.
    destruct (Hrun []) as (E & HE & _). specialize (HE ∅ no_links).
    rewrite producers_before_0, fmap_empty in HE. rewrite HE. simpl.
    set_solver. }
  split.
  - intros scope. destruct (Hrun scope) as (E & HE & HEmem). exists E. split.
    + intros links. rewrite _map_node_dependencies_unfold.
      specialize (HE ∅ links). rewrite producers_before_0, fmap_empty in HE.
      rewrite HE, Himp. f_equal. set_solver.
    + intros p c. rewrite HEmem. unfold edge. split.
      * intros [(i & k & n & x & _ & Hrest)|(k & n & j & a & s & _ & Hl & Hj & Hs & He)].
        -- exists [], graph. split; [done|]. rewrite app_nil_r.
           exists i, k, n, x. done.
        -- destruct He as (place & sub & Hat & Hloc).
           exists (k :: j :: place), sub. split.
           ++ simpl. rewrite Hl. simpl. rewrite Hj. simpl. rewrite Hs. done.
           ++ by rewrite <- !app_assoc in Hloc.
      * intros (place & sub & Hat & Hloc).
        destruct place as [|k [|j place]]; simpl in Hat; [|done|].
        -- injection Hat as <-. rewrite app_nil_r in Hloc.
           destruct Hloc as (i & k & n & x & Hrest). left.
           exists i, k, n, x. split; [lia|done].
        -- destruct (g_node graph !! k) as [n|] eqn:Hl; simpl in Hat; [|done].
           destruct (n_attribute n !! j) as [a|] eqn:Hj; simpl in Hat; [|done].
           destruct (g a) as [s|] eqn:Hs; simpl in Hat; [|done].
           right. exists k, n, j, a, s. split; [lia|]. do 3 (split; [done|]).
           exists place, sub. split; [done|]. by rewrite <- !app_assoc.
  - intros x. rewrite Himp, HS. unfold resolvable. split.
    + intros (k & n & _ & Hrest). eauto.
    + intros (k & n & Hrest). exists k, n. split; [lia|done].
Qed.

Theorem all_traced graph : traced graph.
Proof.
  induction graph as [graph IH] using GraphProto_nested_ind.
  by apply scope_spec.
Qed.

Lemma implicit_inputs_spec graph x :
  x ∈ implicit_inputs_of graph ↔
  ∃ k node, g_node graph !! k = Some node ∧
            x ∈ effective_inputs node ∧ x ≠ "" ∧
            resolvable graph k x = false.
Proof. apply scope_spec. intros. apply all_traced. Qed.

Lemma implicit_inputs_any graph scope links :
  (_map_node_dependencies graph scope links).1 = implicit_inputs_of graph.
Proof. destruct (all_traced graph scope) as (E & HE & _). by rewrite HE. Qed.

Lemma producers_before_ge nodes k :
  (length nodes ≤ k)%nat → producers_before nodes k = producers_before nodes (length nodes).
Proof.
  intros Hk. unfold producers_before. by rewrite !take_ge by lia.
Qed.

Lemma producers_before_spec nodes k x i :
  producers_before nodes k !! x = Some i ↔
  (i < k)%nat ∧ (∃ n, nodes !! i = Some n ∧ x ∈ n_output n) ∧
  ∀ i' n', (i < i' < k)%nat → nodes !! i' = Some n' → x ∉ n_output n'.
Proof.
  revert i. induction k as [|k IH]; intros i.
  - rewrite producers_before_0, lookup_empty. split; [done|]. lia.
  - destruct (nodes !! k) as [node|] eqn:Hk.
    + rewrite (producers_before_S _ _ _ Hk), lookup_record_outputs.
      case_decide as Hin.
      * split.
        -- intros [= <-]. split; [lia|]. split; [eauto|]. lia.
        -- intros (Hi & (n & Hn & Hx) & Hlast).
           destruct (decide (i = k)) as [->|Hne]; [done|].
           exfalso. apply (Hlast k node); [lia|done|done].
      * rewrite IH. split.
        -- intros (Hi & Hex & Hlast). split; [lia|]. split; [done|].
           intros i' n' Hi' Hn'. destruct (decide (i' = k)) as [->|Hne].
           ++ congruence.
           ++ apply (Hlast i' n'); [lia|done].
        -- intros (Hi & (n & Hn & Hx) & Hlast).
           destruct (decide (i = k)) as [->|Hne]; [congruence|].
           split; [lia|]. split; [eauto|].
           intros i' n' Hi'. apply Hlast. lia.
    + apply lookup_ge_None in Hk.
      rewrite (producers_before_ge nodes (S k)) by lia.
      rewrite <- (producers_before_ge nodes k) by lia.
      rewrite IH. split.
      * intros (Hi & Hex & Hlast). split; [lia|]. split; [done|].
        intros i' n' Hi' Hn'. destruct (decide (i' = k)) as [->|Hne].
        -- apply lookup_lt_Some in Hn'. lia.
        -- apply (Hlast i' n'); [lia|done].
      * intros (Hi & (n & Hn & Hx) & Hlast).
        assert (i < length nodes)%nat by (by eapply lookup_lt_Some).
        split; [lia|]. split; [eauto|].
        intros i' n' Hi'. apply Hlast. lia.
Qed.

Lemma elem_of_producer_indices_from nodes k x i :
  i ∈ producer_indices_from nodes k x ↔
  ∃ i' node, i = (k + i')%nat ∧ nodes !! i' = Some node ∧ x ∈ n_output node.
Proof.
  revert k. induction nodes as [|node nodes IH]; intros k; simpl.
  - split; [inversion 1|]. by intros (i' & n & _ & ? & _).
  - assert (i ∈ producer_indices_from nodes (S k) x ↔
            ∃ i' n, i = (k + S i')%nat ∧ nodes !! i' = Some n ∧ x ∈ n_output n) as IH'.
    { rewrite IH. by setoid_rewrite Nat.add_succ_r. }
    case_decide as Hin.
    + rewrite elem_of_cons, IH'. split.
      * intros [->|(i' & n & -> & Hl & Hx)].
        -- exists 0, node. by rewrite Nat.add_0_r.
        -- exists (S i'), n. done.
      * intros ([|i'] & n & -> & Hl & Hx).
        -- left. lia.
        -- right. exists i', n. done.
    + rewrite IH'. split.
      * intros (i' & n & -> & Hl & Hx). exists (S i'), n. done.
      * intros ([|i'] & n & -> & Hl & Hx); simpl in Hl.
        -- congruence.
        -- exists i', n. done.
Qed.

Lemma elem_of_producer_indices graph x i :
  i ∈ producer_indices graph x ↔
  ∃ node, g_node graph !! i = Some node ∧ x ∈ n_output node.
Proof.
  unfold producer_indices. rewrite elem_of_producer_indices_from. naive_solver.
Qed.

Lemma elem_of_dom_producers_before nodes k x :
  x ∈ dom (producers_before nodes k) ↔
  ∃ i node, (i < k)%nat ∧ nodes !! i = Some node ∧ x ∈ n_output node.
Proof.
  rewrite elem_of_dom. split.
  - intros [i Hi]. apply producers_before_spec in Hi as (Hlt & (n & Hn & Hx) & _).
    eauto.
  - induction k as [|k IH]; intros (i & n & Hlt & Hn & Hx); [lia|].
    destruct (nodes !! k) as [node|] eqn:Hk.
    + rewrite (producers_before_S _ _ _ Hk), lookup_record_outputs.
      case_decide as Hin; [done|]. apply IH.
      destruct (decide (i = k)) as [->|Hne]; [congruence|].
      exists i, n. split; [lia|done].
    + apply lookup_ge_None in Hk.
      rewrite (producers_before_ge nodes (S k)) by lia.
      rewrite <- (producers_before_ge nodes k) by lia.
      apply IH. exists i, n. apply lookup_lt_Some in Hn as Hlen.
      split; [lia|done].
Qed.

Lemma resolvable_false graph k x :
  resolvable graph k x = false ↔
  (x ∉ map vi_name (g_input graph)) ∧ (x ∉ map t_name (g_initializer graph)) ∧
  ∀ i node, (i < k)%nat → g_node graph !! i = Some node → x ∉ n_output node.
Proof.
  unfold resolvable, is_local_value, graph_inputs_of, initializers_of.
  rewrite !orb_false_iff, !bool_decide_eq_false, dom_fmap_L.
  rewrite !elem_of_list_to_set, elem_of_dom_producers_before. naive_solver.
Qed.

Lemma resolvable_false_mono graph k k' x :
  (k ≤ k')%nat → resolvable graph k' x = false → resolvable graph k x = false.
Proof.
  rewrite !resolvable_false. intros Hk (Hi & Hini & Hn).
  do 2 (split; [done|]). intros i n Hlt. apply Hn. lia.
Qed.

Lemma elem_of_effective_inputs node x :
  x ∈ effective_inputs node ↔
  x ∈ n_input node ∨
  ∃ attr sub, attr ∈ n_attribute node ∧ g attr = Some sub ∧
              x ∈ implicit_inputs_of sub.
Proof.
  unfold effective_inputs. rewrite elem_of_app.
  assert (x ∈ concat (map attr_inputs (n_attribute node)) ↔
          ∃ attr sub, attr ∈ n_attribute node ∧ g attr = Some sub ∧
                      x ∈ implicit_inputs_of sub) as ->; [|done].
  rewrite list_elem_of_In, in_concat. split.
  - intros (l & Hl & Hx). apply list_elem_of_In in Hl, Hx.
    apply list_elem_of_fmap in Hl as (attr & -> & Ha).
    unfold attr_inputs in Hx. destruct (g attr) as [sub|] eqn:Hg; [|inversion Hx].
    apply elem_of_elements in Hx. eauto.
  - intros (attr & sub & Ha & Hg & Hx). exists (attr_inputs attr).
    rewrite <- !list_elem_of_In. split.
    + apply list_elem_of_fmap. eauto.
    + unfold attr_inputs. rewrite Hg. by apply elem_of_elements.
Qed.

(** ** The maps of a whole graph *)

Lemma root_links graph p c :
  (linked (node_to_producers (links_of graph)) c p ↔ edge graph [] p c) ∧
  (linked (node_to_consumers (links_of graph)) p c ↔ edge graph [] p c).
Proof.
  unfold links_of.
  destruct (all_traced graph []) as (E & HE & Hmem). rewrite HE. simpl.
  rewrite linked_link_all_producers, linked_link_all_consumers, Hmem.
  unfold linked. simpl. setoid_rewrite lookup_empty. naive_solver.
Qed.

Lemma link_all_nonempty edges links :
  (∀ k s, node_to_producers links !! k = Some s → s ≠ ∅) →
  (∀ k s, node_to_consumers links !! k = Some s → s ≠ ∅) →
  (∀ k s, node_to_producers (link_all links edges) !! k = Some s → s ≠ ∅) ∧
  (∀ k s, node_to_consumers (link_all links edges) !! k = Some s → s ≠ ∅).
Proof.
  revert links. induction edges as [|[p c] edges IH]; intros links Hp Hc.
  - done.
  - unfold link_all. simpl. apply IH; simpl; by apply add_link_nonempty.
Qed.

Lemma get_producer_consumer_maps_inr graph cls cls' producers consumers :
  get_producer_consumer_maps graph cls = (cls', inr (producers, consumers)) →
  producers = node_to_producers (links_of graph) ∧
  consumers = node_to_consumers (links_of graph) ∧
  implicit_inputs_of graph = ∅.
Proof.
  unfold get_producer_consumer_maps, implicit_inputs_of, links_of.
  destruct (_map_node_dependencies graph [] no_links) as [imp links]. simpl.
  case_decide as Himp; [done|]. intros Heq. by simplify_eq.
Qed.

Lemma str_le_total : Total str_le.
Proof. intros a b. apply String.leb_total. Qed.

(** C1. For every graph on which [get_producer_consumer_maps] succeeds,
    the two maps it returns mirror each other: for every pair of nodes
    [a], [b], [b] is in [node_to_consumers[a]] if and only if [a] is in
    [node_to_producers[b]]. *)
Theorem producer_consumer_maps_mirror graph cls cls' producers consumers :
  get_producer_consumer_maps graph cls = (cls', inr (producers, consumers)) →
  ∀ a b, linked consumers a b ↔ linked producers b a.
Proof.
  intros Hget a b. apply get_producer_consumer_maps_inr in Hget as (-> & -> & _).
  destruct (root_links graph a b) as [Hp Hc]. by rewrite Hp, Hc.
Qed.

(** The mirror property on the chain of two nodes. *)
Lemma producer_consumer_maps_mirror_witness :
  get_producer_consumer_maps chain_graph any_class
  = (id_class, inr (node_to_producers (links_of chain_graph),
                    node_to_consumers (links_of chain_graph))) ∧
  (linked (node_to_consumers (links_of chain_graph)) [0] [1] ↔
   linked (node_to_producers (links_of chain_graph)) [1] [0]).
Proof.
  split.
  - vm_compute. reflexivity.
  - apply (producer_consumer_maps_mirror chain_graph any_class id_class).
    vm_compute. reflexivity.
Defined.

(** C9. For every graph on which [get_producer_consumer_maps] succeeds,
    every key of [node_to_producers] and every key of [node_to_consumers]
    maps to a set with at least one member: a node without producers
    (without consumers) is not a key of the map. *)
Theorem producer_consumer_maps_nonempty graph cls cls' producers consumers :
  get_producer_consumer_maps graph cls = (cls', inr (producers, consumers)) →
  (∀ node s, producers !! node = Some s → ∃ p, p ∈ s) ∧
  (∀ node s, consumers !! node = Some s → ∃ c, c ∈ s).
Proof.
  intros Hget.
  apply get_producer_consumer_maps_inr in Hget as (-> & -> & _).
  unfold links_of. destruct (all_traced graph []) as (E & HE & _).
  rewrite HE. simpl.
  destruct (link_all_nonempty E no_links) as [Hp Hc];
    [intros k s; simpl; by rewrite lookup_empty..|].
  split; intros node s Hs; apply set_choose_L; eauto.
Qed.

(** No empty set in the maps of the chain of two nodes. *)
Lemma producer_consumer_maps_nonempty_witness :
  get_producer_consumer_maps chain_graph any_class
  = (id_class, inr (node_to_producers (links_of chain_graph),
                    node_to_consumers (links_of chain_graph))) ∧
  (∀ node s, node_to_producers (links_of chain_graph) !! node = Some s → ∃ p, p ∈ s) ∧
  (∀ node s, node_to_consumers (links_of chain_graph) !! node = Some s → ∃ c, c ∈ s).
Proof.
  split.
  - vm_compute. reflexivity.
  - apply (producer_consumer_maps_nonempty chain_graph any_class id_class).
    vm_compute. reflexivity.
Defined.

(** *** The text of the error *)

Lemma append_cons c (s t : string) : String c s +:+ t = String c (s +:+ t).
Proof. reflexivity. Qed.

Lemma append_empty_r (s : string) : s +:+ "" = s.
Proof. induction s as [|c s IH]; [done|]. by rewrite append_cons, IH. Qed.

Lemma append_assoc (a b c : string) : a +:+ (b +:+ c) = (a +:+ b) +:+ c.
Proof. induction a as [|x a IH]; [done|]. by rewrite !append_cons, IH. Qed.

Lemma split_on_piece sep x rest :
  occurs sep x = false →
  split_on sep (x +:+ String sep rest) = x :: split_on sep rest.
Proof.
  induction x as [|c x IH]; intros Hx.
  - change ("" +:+ String sep rest) with (String sep rest). simpl.
    by case_decide.
  - simpl in Hx. apply orb_false_iff in Hx as [Hc Hx].
    apply bool_decide_eq_false in Hc. rewrite append_cons. simpl.
    case_decide; [done|]. by rewrite IH.
Qed.

Lemma split_on_last sep x : occurs sep x = false → split_on sep x = [x].
Proof.
  induction x as [|c x IH]; simpl; intros Hx; [done|].
  apply orb_false_iff in Hx as [Hc Hx]. apply bool_decide_eq_false in Hc.
  case_decide; [done|]. by rewrite IH.
Qed.

Lemma join_cons sep x y names :
  join sep (x :: y :: names) = x +:+ sep +:+ join sep (y :: names).
Proof. reflexivity. Qed.

(** Splitting the joined names at the separator gives the names back. *)
Lemma split_on_join sep names :
  names ≠ [] → Forall (fun x => occurs sep x = false) names →
  split_on sep (join (String sep "") names) = names.
Proof.
  intros Hne Hall. induction Hall as [|x names Hx Hall IH]; [done|].
  destruct names as [|y names].
  - simpl. by apply split_on_last.
  - rewrite join_cons.
    change (String sep "" +:+ join (String sep "") (y :: names))
      with (String sep (join (String sep "") (y :: names))).
    rewrite split_on_piece by done. by rewrite IH.
Qed.

Lemma join_occurs sep names x :
  x ∈ names → ∃ before after, join sep names = before +:+ x +:+ after.
Proof.
  induction names as [|y names IH]; [by intros ?%elem_of_nil|].
  intros [->|Hx]%elem_of_cons.
  - destruct names as [|z names].
    + exists "", "". simpl. by rewrite append_empty_r.
    + exists "", (sep +:+ join sep (z :: names)). done.
  - destruct (IH Hx) as (before & after & Heq). destruct names as [|z names].
    + by apply elem_of_nil in Hx.
    + exists (y +:+ sep +:+ before), after.
      rewrite join_cons, Heq. by rewrite !append_assoc.
Qed.

(** C2. [get_producer_consumer_maps] raises if and only if the implicit
    inputs of the top-level graph are not empty. A name is an implicit
    input when it is not empty, some node has it among its inputs or among
    the implicit inputs of one of its subgraphs, no earlier node produces
    it, and it is neither an initializer nor a declared input of the graph.
    The error carries every such name once, in ascending order, and its
    message lists them: after the fixed opening words comes a text in
    which every name occurs and which, split at the commas, gives the
    names back in that order (when no name has a comma in it). When there
    is no implicit input the two maps are returned. *)
Theorem get_producer_consumer_maps_raises_iff graph cls :
  let result := (get_producer_consumer_maps graph cls).2 in
  let implicit := implicit_inputs_of graph in
  (∀ x, x ∈ implicit ↔
        x ≠ "" ∧
        ∃ k node,
          g_node graph !! k = Some node ∧
          (x ∈ n_input node ∨
           ∃ attr sub, attr ∈ n_attribute node ∧ g attr = Some sub ∧
                       x ∈ implicit_inputs_of sub) ∧
          (∀ i earlier, (i < k)%nat → g_node graph !! i = Some earlier →
                        x ∉ n_output earlier) ∧
          (x ∉ map t_name (g_initializer graph)) ∧
          (x ∉ map vi_name (g_input graph))) ∧
  ((∃ e, result = inl e) ↔ implicit ≠ ∅) ∧
  (implicit ≠ ∅ →
   ∃ names listing,
     result = inl (MissingInputs names) ∧
     names ≡ₚ elements implicit ∧ Sorted str_le names ∧
     message (MissingInputs names) =
       "This appears to be an invalid model with missing inputs of " +:+
       listing ∧
     (∀ x, x ∈ implicit → ∃ before after, listing = before +:+ x +:+ after) ∧
     ((∀ x, x ∈ implicit → occurs "," x = false) →
      split_on "," listing = names)) ∧
  (implicit = ∅ →
   result = inr (node_to_producers (links_of graph),
                 node_to_consumers (links_of graph))).
Proof.
  intros result implicit. split.
  { intros x. unfold implicit. rewrite implicit_inputs_spec.
    setoid_rewrite resolvable_false. setoid_rewrite elem_of_effective_inputs.
    naive_solver. }
  assert (Hres : result =
                 if decide (implicit ≠ ∅)
                 then inl (MissingInputs (sorted (elements implicit)))
                 else inr (node_to_producers (links_of graph),
                           node_to_consumers (links_of graph))).
  { unfold result, implicit, get_producer_consumer_maps, implicit_inputs_of, links_of.
    destruct (_map_node_dependencies graph [] no_links) as [imp links]. simpl.
    by case_decide. }
  rewrite Hres. split; [|split].
  - case_decide as Himp.
    + split; [done|]. eauto.
    + split; [intros [e ?]; done|done].
  - intros Himp. rewrite decide_True by done.
    assert (Hperm : sorted (elements implicit) ≡ₚ elements implicit)
      by apply merge_sort_Permutation.
    exists (sorted (elements implicit)), (join "," (sorted (elements implicit))).
    split; [done|]. split; [done|]. split; [|split; [done|split]].
    + apply Sorted_merge_sort, str_le_total.
    + intros x Hx. apply join_occurs. rewrite Hperm. by apply elem_of_elements.
    + intros Hcomma. apply (split_on_join ","%char).
      * intros Hnil. rewrite Hnil in Hperm. symmetry in Hperm.
        apply Permutation_nil_r in Hperm. apply elements_empty_inv in Hperm.
        apply Himp. by apply leibniz_equiv.
      * apply Forall_forall. intros x Hx. apply Hcomma.
        rewrite Hperm in Hx. by apply elem_of_elements in Hx.
  - intros Himp. rewrite decide_False; [done|]. by intros ?.
Qed.

Lemma linked_intro graph place sub i k node x :
  subgraph_at graph place = Some sub →
  g_node sub !! k = Some node → x ∈ effective_inputs node → x ≠ "" →
  producers_before (g_node sub) k !! x = Some i →
  linked (node_to_producers (links_of graph)) (place ++ [k]) (place ++ [i]) ∧
  linked (node_to_consumers (links_of graph)) (place ++ [i]) (place ++ [k]).
Proof.
  intros Hat Hk Hx Hne Hp.
  destruct (root_links graph (place ++ [i]) (place ++ [k])) as [-> ->].
  assert (edge graph [] (place ++ [i]) (place ++ [k])); [|done].
  exists place, sub. split; [done|]. exists i, k, node, x. done.
Qed.

Lemma linked_inv graph place sub k p :
  subgraph_at graph place = Some sub →
  linked (node_to_producers (links_of graph)) (place ++ [k]) p →
  ∃ i node x,
    p = place ++ [i] ∧ g_node sub !! k = Some node ∧
    x ∈ effective_inputs node ∧ x ≠ "" ∧
    producers_before (g_node sub) k !! x = Some i.
Proof.
  intros Hat Hl. apply root_links in Hl as (place' & sub' & Hat' & Hloc).
  destruct Hloc as (i & k' & node & x & -> & Hc & Hk & Hx & Hne & Hp).
  simpl in Hc. apply app_inj_tail in Hc as [-> ->].
  rewrite Hat in Hat'. injection Hat' as <-. exists i, node, x. done.
Qed.

Lemma linked_ordered graph p c :
  linked (node_to_producers (links_of graph)) c p →
  ∃ scope i k, p = scope ++ [i] ∧ c = scope ++ [k] ∧ (i < k)%nat.
Proof.
  intros Hl. apply root_links in Hl as (place & sub & Hat & Hloc).
  destruct Hloc as (i & k & node & x & -> & -> & Hk & Hx & Hne & Hp).
  apply producers_before_spec in Hp as (Hlt & _). by exists place, i, k.
Qed.

(** C5. Edges follow the order of the nodes in a scope. A producer
    recorded for a node, in either map, is always a node of the same graph
    that comes before it. So when node [a] comes before node [b] in the
    graph at [place] and [a] has among its inputs a non-empty name [x]
    that [b] produces, that no node before [a] produces (as when only [b]
    produces it) and that is neither a declared input nor an initializer
    of the graph, no link from [b] to [a] is made, in either map, and [x]
    is an implicit input of the graph. *)
Theorem edges_follow_document_order graph :
  (∀ p c,
     linked (node_to_producers (links_of graph)) c p ∨
     linked (node_to_consumers (links_of graph)) p c →
     ∃ scope i k, p = scope ++ [i] ∧ c = scope ++ [k] ∧ (i < k)%nat) ∧
  (∀ place sub a b node_a node_b x,
     subgraph_at graph place = Some sub →
     g_node sub !! a = Some node_a → x ∈ effective_inputs node_a → x ≠ "" →
     (a < b)%nat → g_node sub !! b = Some node_b → x ∈ n_output node_b →
     (∀ i n, (i < a)%nat → g_node sub !! i = Some n → x ∉ n_output n) →
     (x ∉ map vi_name (g_input sub)) → (x ∉ map t_name (g_initializer sub)) →
     ¬ linked (node_to_producers (links_of graph)) (place ++ [a]) (place ++ [b]) ∧
     ¬ linked (node_to_consumers (links_of graph)) (place ++ [b]) (place ++ [a]) ∧
     x ∈ implicit_inputs_of sub).
Proof.
  assert (Hgen : ∀ p c,
            linked (node_to_producers (links_of graph)) c p ∨
            linked (node_to_consumers (links_of graph)) p c →
            ∃ scope i k, p = scope ++ [i] ∧ c = scope ++ [k] ∧ (i < k)%nat).
  { intros p c Hl. apply (linked_ordered graph).
    destruct (root_links graph p c) as [Hp Hc]. destruct Hl as [Hl|Hl]; [done|].
    by rewrite Hp, <- Hc. }
  split; [done|].
  intros place sub a b node_a node_b x Hat Ha Hx Hne Hab Hb Hout Hbefore Hin Hini.
  assert (Hno : ∀ p c, p = place ++ [b] → c = place ++ [a] →
                       ¬ (linked (node_to_producers (links_of graph)) c p ∨
                          linked (node_to_consumers (links_of graph)) p c)).
  { intros p c -> -> Hl. apply Hgen in Hl as (scope & i & k & Hp & Hc & Hlt).
    apply app_inj_tail in Hc as [_ ->]. apply app_inj_tail in Hp as [_ ->]. lia. }
  split; [intros Hl; apply (Hno _ _ eq_refl eq_refl); by left|].
  split; [intros Hl; apply (Hno _ _ eq_refl eq_refl); by right|].
  apply implicit_inputs_spec. exists a, node_a. do 3 (split; [done|]).
  apply resolvable_false. done.
Qed.

(** Node 1 is linked to node 0, before it, through w; it reads x, which
    only node 2 produces, and is not linked to node 2. *)
Lemma edges_follow_document_order_witness :
  linked (node_to_producers (links_of out_of_order_graph)) [1] [0] ∧
  (∃ scope i k, [0] = scope ++ [i] ∧ [1] = scope ++ [k] ∧ (i < k)%nat) ∧
  ¬ linked (node_to_producers (links_of out_of_order_graph)) [1] [2] ∧
  ¬ linked (node_to_consumers (links_of out_of_order_graph)) [2] [1] ∧
  "x" ∈ implicit_inputs_of out_of_order_graph.
Proof.
  destruct (edges_follow_document_order out_of_order_graph) as [Hordered Hforward].
  assert (Hlink : linked (node_to_producers (links_of out_of_order_graph)) [1] [0])
    by by_compute.
  split; [exact Hlink|]. split; [apply Hordered; left; exact Hlink|].
  apply (Hforward [] out_of_order_graph 1 2
           (mk_node ["w"; "x"] ["y"] []) (mk_node ["a"] ["x"] []) "x").
  - reflexivity.
  - reflexivity.
  - by_compute.
  - by_compute.
  - lia.
  - reflexivity.
  - by_compute.
  - intros i n Hi Hn. destruct i as [|i]; [|lia].
    injection Hn as <-. by_compute.
  - by_compute.
  - by_compute.
Defined.

(** C4, amended. In the graph at [place] let node [i2] produce [x], let
    no node between it and node [k] produce [x], and let node [k] have [x]
    among its inputs, its own or those its subgraphs bring in: node [i2]
    is the last producer of [x] before [k], the second when two nodes
    produce [x] before [k]. Then [producers] maps [x] to node [i2] when
    node [k] is processed, and node [k] is linked to node [i2] in both
    maps. The name [x] links node [k] to no other node: node [k] is linked
    to another node [i1], an earlier producer of [x] for one, exactly when
    it also consumes another name whose last producer before [k] is node
    [i1]. *)
Theorem last_writer_wins graph place sub i2 k second consumer x :
  subgraph_at graph place = Some sub →
  (i2 < k)%nat → g_node sub !! i2 = Some second → x ∈ n_output second →
  (∀ i n, (i2 < i < k)%nat → g_node sub !! i = Some n → x ∉ n_output n) →
  g_node sub !! k = Some consumer → x ∈ effective_inputs consumer → x ≠ "" →
  producers_before (g_node sub) k !! x = Some i2 ∧
  linked (node_to_producers (links_of graph)) (place ++ [k]) (place ++ [i2]) ∧
  linked (node_to_consumers (links_of graph)) (place ++ [i2]) (place ++ [k]) ∧
  ∀ i1, i1 ≠ i2 →
    (linked (node_to_producers (links_of graph)) (place ++ [k]) (place ++ [i1]) ↔
     ∃ y first,
       y ≠ x ∧ y ≠ "" ∧ y ∈ effective_inputs consumer ∧
       (i1 < k)%nat ∧ g_node sub !! i1 = Some first ∧ y ∈ n_output first ∧
       ∀ i n, (i1 < i < k)%nat → g_node sub !! i = Some n → y ∉ n_output n).
Proof.
  intros Hat Hlt Hi2 Hout Hlast Hk Hx Hne.
  assert (Hp : producers_before (g_node sub) k !! x = Some i2).
  { apply producers_before_spec. split; [done|]. split; [eauto|done]. }
  split; [done|].
  destruct (linked_intro graph place sub i2 k consumer x) as [Hl1 Hl2]; try done.
  do 2 (split; [done|]). intros i1 Hi1. split.
  - intros Hl.
    destruct (linked_inv _ _ _ _ _ Hat Hl) as (i & node & y & Hi & Hk' & Hy & Hyne & Hpy).
    apply app_inj_tail in Hi as [_ <-]. rewrite Hk in Hk'. injection Hk' as <-.
    assert (y ≠ x) by (intros ->; rewrite Hp in Hpy; by injection Hpy).
    apply producers_before_spec in Hpy as (Hlt1 & (first & Hfirst & Hyout) & Hylast).
    exists y, first. done.
  - intros (y & first & _ & Hyne & Hy & Hlt1 & Hfirst & Hyout & Hylast).
    apply (linked_intro graph place sub i1 k consumer y); try done.
    apply producers_before_spec. split; [done|]. split; [eauto|done].
Qed.

(** Nodes 0 and 1 produce x, node 2 reads it, node 3 produces x again:
    node 2 is linked to node 1 and not to node 0. *)
Lemma last_writer_wins_witness :
  producers_before (g_node rewritten_later_graph) 2 !! "x" = Some 1%nat ∧
  linked (node_to_producers (links_of rewritten_later_graph)) [2] [1] ∧
  linked (node_to_consumers (links_of rewritten_later_graph)) [1] [2] ∧
  ¬ linked (node_to_producers (links_of rewritten_later_graph)) [2] [0].
Proof.
  destruct (last_writer_wins rewritten_later_graph [] rewritten_later_graph 1 2
              (mk_node ["a"] ["x"] []) (mk_node ["x"] ["y"] []) "x")
    as (Htable & Hproducer & Hconsumer & Hother).
  - reflexivity.
  - lia.
  - reflexivity.
  - by_compute.
  - intros i n Hi. lia.
  - reflexivity.
  - by_compute.
  - by_compute.
  - do 3 (split; [done|]).
    intros Hl. apply (Hother 0%nat) in Hl as (y & first & Hyx & _ & Hy & _); [|lia].
    apply list_elem_of_singleton in Hy. done.
Defined.

(** C4 as first stated fails: when the first producer of x also produces w
    and the consumer reads both, the consumer is linked to the second
    producer and to the first. *)
Lemma shadowed_producer_still_linked :
  let graph := shadow_two_outputs_graph in
  g_node graph !! 0 = Some (mk_node ["a"] ["x"; "w"] []) ∧
  g_node graph !! 1 = Some (mk_node ["a"] ["x"] []) ∧
  g_node graph !! 2 = Some (mk_node ["x"; "w"] ["y"] []) ∧
  producer_indices graph "x" = [0; 1] ∧
  ¬ (linked (node_to_producers (links_of graph)) [2] [1] ∧
     ¬ linked (node_to_producers (links_of graph)) [2] [0]).
Proof.
  simpl. do 3 (split; [reflexivity|]). split; [by vm_compute|].
  intros [_ Hno]. apply Hno. by_compute.
Qed.

(** C3, amended. In the graph [enclosing] found at [place], let node [k]
    own the subgraph [sub], let a node of [sub] have the non-empty name
    [x] among its inputs, let [sub] neither produce nor declare [x], let
    node [p] be the last node before [k] that produces [x], and let no
    other node of [enclosing] have [x] among its inputs. Then [x] is an
    implicit input of [sub], it is one of the inputs of node [k], node [k]
    is linked to node [p] in both maps, and [x] is not an implicit input of
    [enclosing]. *)
Theorem implicit_input_resolved_by_owner
    graph place enclosing k owner j attr sub q node p x :
  subgraph_at graph place = Some enclosing →
  g_node enclosing !! k = Some owner →
  n_attribute owner !! j = Some attr → g attr = Some sub →
  g_node sub !! q = Some node → x ∈ effective_inputs node → x ≠ "" →
  defined_in_scope sub x = false →
  producers_before (g_node enclosing) k !! x = Some p →
  Forall (fun other => x ∉ effective_inputs other) (delete k (g_node enclosing)) →
  (∀ scope links, x ∈ (_map_node_dependencies sub scope links).1) ∧
  x ∈ effective_inputs owner ∧
  linked (node_to_producers (links_of graph)) (place ++ [k]) (place ++ [p]) ∧
  linked (node_to_consumers (links_of graph)) (place ++ [p]) (place ++ [k]) ∧
  (∀ scope links, x ∉ (_map_node_dependencies enclosing scope links).1).
Proof.
  intros Hat Hk Hj Hg Hq Hx Hne Hdef Hp Honly.
  assert (Hsub : x ∈ implicit_inputs_of sub).
  { apply implicit_inputs_spec. exists q, node. do 3 (split; [done|]).
    apply (resolvable_false_mono sub q (length (g_node sub))); [|done].
    apply lookup_lt_Some in Hq. lia. }
  assert (Hown : x ∈ effective_inputs owner).
  { apply elem_of_effective_inputs. right. exists attr, sub.
    split; [by eapply list_elem_of_lookup_2|done]. }
  split; [intros; by rewrite implicit_inputs_any|]. split; [done|].
  destruct (linked_intro graph place enclosing p k owner x) as [Hl1 Hl2]; try done.
  do 2 (split; [done|]).
  intros scope links. rewrite implicit_inputs_any, implicit_inputs_spec.
  intros (k' & other & Hk' & Hxo & _ & Hres).
  destruct (decide (k' = k)) as [->|Hneq].
  - apply resolvable_false in Hres as (_ & _ & Hnone).
    apply producers_before_spec in Hp as (Hlt & (n & Hn & Hout) & _).
    by apply (Hnone p n).
  - rewrite Forall_forall in Honly. apply (Honly other); [|done].
    destruct (decide (k' < k)%nat) as [Hlt|Hge].
    + apply (list_elem_of_lookup_2 _ k'). by rewrite list_lookup_delete_lt.
    + destruct k' as [|k'']; [lia|].
      apply (list_elem_of_lookup_2 _ k''). rewrite list_lookup_delete_ge by lia. done.
Qed.

(** Node 0 produces x, the subgraph of node 1 reads it. *)
Lemma implicit_input_resolved_by_owner_witness :
  (∀ scope links,
     "x" ∈ (_map_node_dependencies (mk_graph [mk_node ["x"] ["z"] []] []) scope links).1) ∧
  "x" ∈ effective_inputs
          (mk_node [] ["y"] [body (mk_graph [mk_node ["x"] ["z"] []] [])]) ∧
  linked (node_to_producers (links_of closure_graph)) [1] [0] ∧
  linked (node_to_consumers (links_of closure_graph)) [0] [1] ∧
  (∀ scope links, "x" ∉ (_map_node_dependencies closure_graph scope links).1).
Proof.
  apply (implicit_input_resolved_by_owner closure_graph [] closure_graph 1
           (mk_node [] ["y"] [body (mk_graph [mk_node ["x"] ["z"] []] [])])
           0 (body (mk_graph [mk_node ["x"] ["z"] []] []))
           (mk_graph [mk_node ["x"] ["z"] []] [])
           0 (mk_node ["x"] ["z"] []) 0 "x").
  - reflexivity.
  - reflexivity.
  - reflexivity.
  - reflexivity.
  - reflexivity.
  - by_compute.
  - by_compute.
  - vm_compute. reflexivity.
  - vm_compute. reflexivity.
  - by_compute.
Defined.

(** C3 as first stated fails: x is produced only in the enclosing graph,
    by node 1, and read only in the subgraph of node 0. The subgraph
    returns x, but no link is made and x is an implicit input of the
    enclosing graph, which [get_producer_consumer_maps] rejects. *)
Lemma implicit_input_owner_before_producer :
  let graph := late_producer_graph in
  let sub := mk_graph [mk_node ["x"] ["z"] []] [] in
  g_node graph !! 0 = Some (mk_node [] ["y"] [body sub]) ∧
  producer_indices graph "x" = [1] ∧
  defined_in_scope sub "x" = false ∧
  Forall (fun node => "x" ∉ n_input node) (g_node graph) ∧
  "x" ∈ implicit_inputs_of sub ∧
  "x" ∈ implicit_inputs_of graph ∧
  ¬ linked (node_to_producers (links_of graph)) [0] [1] ∧
  (get_producer_consumer_maps graph any_class).2 = inl (MissingInputs ["x"]).
Proof.
  simpl. split; [reflexivity|]. split; [by vm_compute|]. split; [by vm_compute|].
  split; [by_compute|]. split; [by_compute|]. split; [by_compute|].
  split; [by_compute|]. by vm_compute.
Qed.

(** ** Fixing a symbolic dimension *)

Lemma iterate_graph_per_graph_func_unfold f graph :
  iterate_graph_per_graph_func f graph =
  {| g_node :=
       map (fun node =>
              {| n_name := n_name node;
                 op_type := op_type node;
                 n_input := n_input node;
                 n_output := n_output node;
                 n_attribute :=
                   map (fun attr =>
                          match g attr with
                          | Some sub =>
                              {| a_name := a_name attr;
                                 g := Some (iterate_graph_per_graph_func f sub) |}
                          | None => attr
                          end)
                       (n_attribute node) |})
           (g_node graph);
     g_input := g_input (f graph);
     g_output := g_output (f graph);
     g_value_info := g_value_info (f graph);
     g_initializer := g_initializer (f graph) |}.
Proof. by destruct graph. Qed.

Lemma subgraph_at_iterate f graph place :
  subgraph_at (iterate_graph_per_graph_func f graph) place =
  iterate_graph_per_graph_func f <$> subgraph_at graph place.
Proof.
  revert graph place. fix IH 2. intros graph [|k [|j place]]; [done..|].
  rewrite iterate_graph_per_graph_func_unfold. simpl.
  rewrite list_lookup_fmap.
  destruct (g_node graph !! k) as [node|]; simpl; [|done].
  rewrite list_lookup_fmap.
  destruct (n_attribute node !! j) as [attr|]; simpl; [|done].
  destruct (g attr) as [sub|] eqn:Hg; simpl; [|by rewrite Hg].
  apply IH.
Qed.

Lemma replace_dim_fixed param_name value d :
  dim_fixed param_name value d (replace_dim param_name value d).
Proof.
  unfold dim_fixed, replace_dim. destruct (d_value d) as [v|p|] eqn:Hd.
  - split; [done|done].
  - case_decide as Hp.
    + subst p. split; [done|done].
    + split; [intros [= ?]; done|done].
  - split; [done|done].
Qed.

Lemma update_dim_value_fixed param_name value vi :
  value_info_fixed param_name value vi (update_dim_value param_name value vi).
Proof.
  unfold value_info_fixed, update_dim_value.
  destruct (vi_type vi) as [t|kind|] eqn:Hty; simpl; rewrite ?Hty; [|done..].
  split; [done|]. split; [done|].
  destruct (shape t) as [s|]; simpl; [|done].
  apply Forall2_fmap_r, Forall_Forall2_diag, Forall_forall.
  intros d _. apply replace_dim_fixed.
Qed.

Lemma update_dim_values_fixed param_name value vis :
  Forall2 (value_info_fixed param_name value) vis
          (update_dim_values param_name value vis).
Proof.
  apply Forall2_fmap_r, Forall_Forall2_diag, Forall_forall.
  intros vi _. apply update_dim_value_fixed.
Qed.

Lemma make_dim_param_fixed_scope param_name value graph :
  scope_fixed param_name value graph (_make_dim_param_fixed graph param_name value).
Proof.
  unfold _make_dim_param_fixed. rewrite iterate_graph_per_graph_func_unfold.
  unfold scope_fixed. simpl.
  do 3 (split; [apply update_dim_values_fixed|]). split; [done|].
  apply Forall2_fmap_r, Forall_Forall2_diag, Forall_forall.
  intros node _. unfold same_node_shell. simpl. do 4 (split; [done|]).
  apply Forall2_fmap_r, Forall_Forall2_diag, Forall_forall.
  intros attr _. simpl. destruct (g attr) as [sub|] eqn:Hg; simpl.
  - split; [done|]. split; eauto.
  - rewrite Hg. split; [done|tauto].
Qed.

(** C8. For a value in the range of [dim_value],
    [_make_dim_param_fixed] keeps the tree of graphs, and for the graph at
    every place of it: in the declared inputs, outputs and value-infos,
    every dimension of a tensor shape whose [dim_param] is [param_name]
    becomes the value [value] and every other dimension is unchanged;
    names, element types, the presence of a shape, types that are not
    tensors, initializers, and the names, operators, inputs, outputs and
    attributes of the nodes are unchanged. *)
Theorem make_dim_param_fixed_frame graph param_name value place :
  is_int64 value →
  match subgraph_at graph place,
        subgraph_at (_make_dim_param_fixed graph param_name value) place with
  | Some sub, Some sub' => scope_fixed param_name value sub sub'
  | None, None => True
  | _, _ => False
  end.
Proof.
  intros _.
  assert (subgraph_at (_make_dim_param_fixed graph param_name value) place =
          (fun sub => _make_dim_param_fixed sub param_name value)
            <$> subgraph_at graph place) as ->
    by apply subgraph_at_iterate.
  destruct (subgraph_at graph place) as [sub|]; simpl; [|done].
  apply make_dim_param_fixed_scope.
Qed.

(** Fixing batch to 8, in the graph itself and in the subgraph of its
    node. *)
Lemma make_dim_param_fixed_frame_witness :
  is_int64 8 ∧
  scope_fixed "batch" 8 batch_graph
    (_make_dim_param_fixed batch_graph "batch" 8) ∧
  ∃ sub sub',
    subgraph_at batch_graph [0; 0] = Some sub ∧
    subgraph_at (_make_dim_param_fixed batch_graph "batch" 8) [0; 0] = Some sub' ∧
    scope_fixed "batch" 8 sub sub'.
Proof.
  assert (Hrange : is_int64 8) by (unfold is_int64; lia).
  split; [exact Hrange|]. split.
  - exact (make_dim_param_fixed_frame batch_graph "batch" 8 [] Hrange).
  - eexists _, _. split; [reflexivity|]. split; [reflexivity|].
    exact (make_dim_param_fixed_frame batch_graph "batch" 8 [0; 0]%nat Hrange).
Defined.

Example make_dim_param_fixed_batch :
  _make_dim_param_fixed batch_graph "batch" 8 = batch_graph_fixed.
Proof. reflexivity. Qed.

(** ** Fixing the shape of an input *)

Lemma find_input_lookup inputs input_name start pos i :
  find_input inputs input_name start = Some (pos, i) →
  (start ≤ pos)%nat ∧ inputs !! (pos - start)%nat = Some i.
Proof.
  revert start. induction inputs as [|i0 inputs IH]; intros start; simpl; [done|].
  case_decide as Hname.
  - intros [= <- <-]. split; [lia|]. by rewrite Nat.sub_diag.
  - intros Hf. apply IH in Hf as [Hle Hl]. split; [lia|].
    replace (pos - start)%nat with (S (pos - S start)) by lia. done.
Qed.

Lemma input_dims_make_dim_param_fixed graph p v pos :
  input_dims (_make_dim_param_fixed graph p v) pos =
  map (replace_dim p v) (input_dims graph pos).
Proof.
  unfold _make_dim_param_fixed. rewrite iterate_graph_per_graph_func_unfold.
  unfold input_dims. simpl. unfold update_dim_values. rewrite list_lookup_fmap.
  destruct (g_input graph !! pos) as [i|]; simpl; [|done].
  unfold update_dim_value.
  destruct (vi_type i) as [t|kind|] eqn:Hty; simpl; rewrite ?Hty; [|done..].
  unfold shape_of. simpl. by destruct (shape t).
Qed.

Lemma input_dims_set_input_dim graph pos idx d :
  input_dims (set_input_dim graph pos idx d) pos =
  <[idx := d]> (input_dims graph pos).
Proof.
  unfold input_dims, set_input_dim. simpl. rewrite list_lookup_alter_eq.
  destruct (g_input graph !! pos) as [i|]; simpl; [|done].
  destruct (vi_type i) as [t|kind|] eqn:Hty; simpl; rewrite ?Hty; [|done..].
  unfold shape_of. simpl. by destruct (shape t).
Qed.

Lemma replace_dim_value p v d existing :
  d_value d = dim_value existing → replace_dim p v d = d.
Proof. unfold replace_dim. by intros ->. Qed.

(** *** Compatible shapes *)

Lemma compatible_cons_value d dims r fixed_shape e :
  d_value d = dim_value e →
  compatible (d :: dims) (r :: fixed_shape) ↔ e = r ∧ compatible dims fixed_shape.
Proof.
  intros Hd. unfold compatible. split.
  - intros H. split.
    + specialize (H 0%nat d r eq_refl eq_refl). by rewrite Hd in H.
    + intros idx d' r' Hd' Hr'. specialize (H (S idx) d' r' Hd' Hr').
      destruct (d_value d') as [e'|p|]; [done| |done].
      intros j dj rj Hj Hdj Hp Hrj. apply (H (S j) dj rj); [lia|done..].
  - intros [-> H] [|idx] d' r' Hd' Hr'; simpl in *.
    + injection Hd' as <-. injection Hr' as <-. by rewrite Hd.
    + specialize (H idx d' r' Hd' Hr').
      destruct (d_value d') as [e'|p|]; [done| |done].
      intros [|j] dj rj Hj Hdj Hp Hrj; simpl in *.
      * injection Hdj as <-. congruence.
      * apply (H j dj rj); [lia|done..].
Qed.

Lemma compatible_cons_unset d dims r fixed_shape :
  d_value d = dim_unset →
  compatible (d :: dims) (r :: fixed_shape) ↔ compatible dims fixed_shape.
Proof.
  intros Hd. unfold compatible. split.
  - intros H idx d' r' Hd' Hr'. specialize (H (S idx) d' r' Hd' Hr').
    destruct (d_value d') as [e'|p|]; [done| |done].
    intros j dj rj Hj Hdj Hp Hrj. apply (H (S j) dj rj); [lia|done..].
  - intros H [|idx] d' r' Hd' Hr'; simpl in *.
    + injection Hd' as <-. by rewrite Hd.
    + specialize (H idx d' r' Hd' Hr').
      destruct (d_value d') as [e'|p|]; [done| |done].
      intros [|j] dj rj Hj Hdj Hp Hrj; simpl in *.
      * injection Hdj as <-. congruence.
      * apply (H j dj rj); [lia|done..].
Qed.

Lemma replace_dim_param_other p r d q :
  q ≠ p → d_value (replace_dim p r d) = dim_param q ↔ d_value d = dim_param q.
Proof.
  intros Hq. unfold replace_dim. destruct (d_value d) as [e|p'|] eqn:Hd;
    rewrite ?Hd; [done| |done].
  case_decide as Hp; simpl; [|by rewrite Hd].
  subst p'. split; [done|]. intros [= ?]. congruence.
Qed.

Lemma compatible_cons_param d dims r fixed_shape p :
  d_value d = dim_param p →
  compatible (d :: dims) (r :: fixed_shape) ↔
  compatible (map (replace_dim p r) dims) fixed_shape.
Proof.
  intros Hd. unfold compatible. split.
  - intros H idx d' r' Hd' Hr'.
    change (map (replace_dim p r) dims) with (replace_dim p r <$> dims) in Hd'.
    rewrite list_lookup_fmap in Hd'.
    destruct (dims !! idx) as [d0|] eqn:Hd0; [|done]. injection Hd' as <-.
    specialize (H (S idx) d0 r' Hd0 Hr').
    destruct (d_value d0) as [e|q|] eqn:Hv0.
    + unfold replace_dim. by rewrite Hv0, Hv0.
    + destruct (decide (q = p)) as [->|Hq].
      * unfold replace_dim. rewrite Hv0, decide_True by done. simpl.
        by apply (H 0%nat d r); [lia|done..].
      * unfold replace_dim. rewrite Hv0, decide_False by done. rewrite Hv0.
        intros j dj rj Hj Hdj Hp Hrj.
        change (map (replace_dim p r) dims) with (replace_dim p r <$> dims) in Hdj.
        rewrite list_lookup_fmap in Hdj.
        destruct (dims !! j) as [dj0|] eqn:Hdj0; [|done]. injection Hdj as <-.
        apply (H (S j) dj0 rj); [lia|done| |done].
        by apply (replace_dim_param_other p r dj0 q).
    + unfold replace_dim. by rewrite Hv0, Hv0.
  - intros H.
    assert (Hmapped : ∀ k dk rk,
              dims !! k = Some dk → fixed_shape !! k = Some rk →
              match d_value (replace_dim p r dk) with
              | dim_value e => e = rk
              | dim_param q =>
                  ∀ j dj rj,
                    (j < k)%nat → dims !! j = Some dj →
                    d_value (replace_dim p r dj) = dim_param q →
                    fixed_shape !! j = Some rj → rj = rk
              | dim_unset => True
              end).
    { intros k dk rk Hk Hrk. specialize (H k (replace_dim p r dk) rk).
      change (map (replace_dim p r) dims) with (replace_dim p r <$> dims) in H.
      rewrite list_lookup_fmap, Hk in H. specialize (H eq_refl Hrk).
      destruct (d_value (replace_dim p r dk)) as [e|q|]; [done| |done].
      intros j dj rj Hj Hdj Hq Hrj. apply (H j (replace_dim p r dj) rj); try done.
      by rewrite list_lookup_fmap, Hdj. }
    assert (Hsame : ∀ k dk rk,
              dims !! k = Some dk → d_value dk = dim_param p →
              fixed_shape !! k = Some rk → r = rk).
    { intros k dk rk Hk Hv Hrk. specialize (Hmapped k dk rk Hk Hrk).
      unfold replace_dim in Hmapped. by rewrite Hv, decide_True in Hmapped. }
    intros [|idx] d' r' Hd' Hr'; simpl in *.
    + injection Hd' as <-. rewrite Hd. intros j ? ? Hj. lia.
    + destruct (d_value d') as [e|q|] eqn:Hv'.
      * specialize (Hmapped idx d' r' Hd' Hr').
        unfold replace_dim in Hmapped. by rewrite Hv', Hv' in Hmapped.
      * destruct (decide (q = p)) as [->|Hq].
        -- pose proof (Hsame idx d' r' Hd' Hv' Hr') as <-.
           intros [|j] dj rj Hj Hdj Hp Hrj; simpl in *.
           ++ by injection Hrj.
           ++ symmetry. by apply (Hsame j dj rj).
        -- specialize (Hmapped idx d' r' Hd' Hr').
           unfold replace_dim in Hmapped at 1.
           rewrite Hv', decide_False, Hv' in Hmapped by done.
           intros [|j] dj rj Hj Hdj Hp Hrj; simpl in *.
           ++ injection Hdj as <-. congruence.
           ++ apply (Hmapped j dj rj); [lia|done| |done].
              by apply replace_dim_param_other.
      * done.
Qed.

Lemma shapes_agree_compatible fixed_shape :
  ∀ dims, length dims = length fixed_shape →
          shapes_agree dims fixed_shape = true ↔ compatible dims fixed_shape.
Proof.
  induction fixed_shape as [|r fixed_shape IH]; intros [|d dims] Hlen;
    simpl in Hlen; try lia.
  - simpl. split; [|done]. intros _ idx d r Hd. inversion Hd.
  - simpl. destruct (d_value d) as [e|p|] eqn:Hd.
    + rewrite (compatible_cons_value _ _ _ _ _ Hd), andb_true_iff,
        bool_decide_eq_true, IH by lia. done.
    + rewrite (compatible_cons_param _ _ _ _ _ Hd), IH; [done|].
      rewrite length_map. lia.
    + rewrite (compatible_cons_unset _ _ _ _ Hd), IH by lia. done.
Qed.

Lemma compatible_take dims fixed_shape n :
  compatible dims fixed_shape → compatible (take n dims) (take n fixed_shape).
Proof.
  intros H idx d r Hd Hr.
  apply lookup_take_Some in Hd as [Hd Hlt]. apply lookup_take_Some in Hr as [Hr _].
  specialize (H idx d r Hd Hr). destruct (d_value d) as [e|p|]; [done| |done].
  intros j dj rj Hj Hdj Hp Hrj.
  apply lookup_take_Some in Hdj as [Hdj _]. apply lookup_take_Some in Hrj as [Hrj _].
  by apply (H j dj rj).
Qed.

Lemma compatible_nil fixed_shape : compatible [] fixed_shape.
Proof. intros idx d r Hd. inversion Hd. Qed.

(** *** Where the loop stops *)

Lemma fix_dims_first_conflict pos fixed_shape remaining :
  ∀ graph idx0,
    length (input_dims graph pos) = (idx0 + remaining)%nat →
    length fixed_shape = (idx0 + remaining)%nat →
    (fix_dims graph pos fixed_shape idx0 remaining).2
    = first_conflict (drop idx0 (input_dims graph pos)) (drop idx0 fixed_shape) idx0.
Proof.
  induction remaining as [|remaining IH]; intros graph idx0 Hlen Hflen.
  - simpl. rewrite !drop_ge by lia. done.
  - simpl.
    destruct (lookup_lt_is_Some_2 (input_dims graph pos) idx0 ltac:(lia)) as [d0 Hd0].
    destruct (lookup_lt_is_Some_2 fixed_shape idx0 ltac:(lia)) as [r0 Hr0].
    rewrite Hd0, Hr0.
    rewrite (drop_S _ _ _ Hd0), (drop_S _ _ _ Hr0). simpl.
    destruct (d_value d0) as [e|p|] eqn:Hv0.
    + case_decide as Hconf; [done|]. apply IH; lia.
    + rewrite IH by (rewrite ?input_dims_make_dim_param_fixed, ?length_map; lia).
      rewrite input_dims_make_dim_param_fixed.
      change (map (replace_dim p r0) (input_dims graph pos))
        with (replace_dim p r0 <$> input_dims graph pos).
      by rewrite <- fmap_drop.
    + rewrite IH by (rewrite ?input_dims_set_input_dim, ?length_insert; lia).
      rewrite input_dims_set_input_dim. by rewrite drop_insert_lt by lia.
Qed.

(** The loop stops at the first index where the request stops being
    compatible with the declared dimensions. *)
Lemma first_conflict_spec fixed_shape :
  ∀ dims idx0 err,
    first_conflict dims fixed_shape idx0 = Some err →
    ∃ n e r,
      err = FixedSizeConflict e r (idx0 + n + 1) ∧
      fixed_shape !! n = Some r ∧ e ≠ r ∧
      compatible (take n dims) (take n fixed_shape) ∧
      ¬ compatible (take (S n) dims) (take (S n) fixed_shape) ∧
      ∀ d v, dims !! n = Some d → d_value d = dim_value v → e = v.
Proof.
  induction fixed_shape as [|r0 fixed_shape IH]; intros [|d0 dims] idx0 err;
    simpl; try done.
  destruct (d_value d0) as [e0|p|] eqn:Hv0.
  - case_decide as Hconf.
    + intros [= <-]. exists 0%nat, e0, r0. rewrite Nat.add_0_r.
      do 3 (split; [done|]). split; [apply compatible_nil|]. split.
      * simpl. rewrite !take_0.
        rewrite (compatible_cons_value _ _ _ _ _ Hv0). by intros [? _].
      * intros d v [= <-] Hv. congruence.
    + intros Herr. subst r0.
      destruct (IH _ _ _ Herr) as (n & e & r & -> & Hr & Hne & Hc & Hnc & Hval).
      exists (S n), e, r. split; [f_equal; lia|]. split; [done|]. split; [done|].
      split; [|split; [|done]].
      * simpl. by rewrite (compatible_cons_value _ _ _ _ _ Hv0).
      * change (take (S (S n)) (d0 :: dims)) with (d0 :: take (S n) dims).
        change (take (S (S n)) (e0 :: fixed_shape)) with (e0 :: take (S n) fixed_shape).
        rewrite (compatible_cons_value _ _ _ _ _ Hv0). by intros [_ ?].
  - intros Herr.
    destruct (IH _ _ _ Herr) as (n & e & r & -> & Hr & Hne & Hc & Hnc & Hval).
    change (map (replace_dim p r0) dims) with (replace_dim p r0 <$> dims) in *.
    rewrite <- !fmap_take in *.
    exists (S n), e, r. split; [f_equal; lia|]. split; [done|]. split; [done|].
    split; [|split].
    + simpl. by rewrite (compatible_cons_param _ _ _ _ _ Hv0).
    + change (take (S (S n)) (d0 :: dims)) with (d0 :: take (S n) dims).
      change (take (S (S n)) (r0 :: fixed_shape)) with (r0 :: take (S n) fixed_shape).
      by rewrite (compatible_cons_param _ _ _ _ _ Hv0).
    + intros d v Hd Hv. simpl in Hd. apply (Hval (replace_dim p r0 d) v).
      * by rewrite list_lookup_fmap, Hd.
      * by rewrite (replace_dim_value _ _ _ v).
  - intros Herr.
    destruct (IH _ _ _ Herr) as (n & e & r & -> & Hr & Hne & Hc & Hnc & Hval).
    exists (S n), e, r. split; [f_equal; lia|]. split; [done|]. split; [done|].
    split; [|split; [|done]].
    + simpl. by rewrite (compatible_cons_unset _ _ _ _ Hv0).
    + change (take (S (S n)) (d0 :: dims)) with (d0 :: take (S n) dims).
      change (take (S (S n)) (r0 :: fixed_shape)) with (r0 :: take (S n) fixed_shape).
      by rewrite (compatible_cons_unset _ _ _ _ Hv0).
Qed.

Lemma first_conflict_None fixed_shape :
  ∀ dims idx0, first_conflict dims fixed_shape idx0 = None ↔
               shapes_agree dims fixed_shape = true.
Proof.
  induction fixed_shape as [|r0 fixed_shape IH]; intros [|d0 dims] idx0;
    simpl; try done.
  destruct (d_value d0) as [e0|p|].
  - case_decide as Hconf.
    + rewrite bool_decide_eq_false_2 by done. done.
    + rewrite bool_decide_eq_true_2 by done. simpl. apply IH.
  - apply IH.
  - apply IH.
Qed.

(** A dimension that holds a value differing from the request makes the
    loop stop at it or before it: at it when the request is compatible
    with the dimensions before. *)
Lemma first_conflict_at dims fixed_shape idx0 idx d existing requested :
  length dims = length fixed_shape →
  dims !! idx = Some d → d_value d = dim_value existing →
  fixed_shape !! idx = Some requested → existing ≠ requested →
  (∃ at_ e r,
     first_conflict dims fixed_shape idx0
     = Some (FixedSizeConflict e r (idx0 + at_ + 1)) ∧
     (at_ ≤ idx)%nat ∧ fixed_shape !! at_ = Some r ∧ e ≠ r ∧
     compatible (take at_ dims) (take at_ fixed_shape) ∧
     ¬ compatible (take (S at_) dims) (take (S at_) fixed_shape)) ∧
  (compatible (take idx dims) (take idx fixed_shape) →
   first_conflict dims fixed_shape idx0
   = Some (FixedSizeConflict existing requested (idx0 + idx + 1))).
Proof.
  intros Hlen Hd Hv Hr Hne.
  assert (Hbad : ∀ n, (idx < n)%nat →
                      ¬ compatible (take n dims) (take n fixed_shape)).
  { intros n Hn Hc. specialize (Hc idx d requested).
    rewrite !lookup_take_lt in Hc by done. specialize (Hc Hd Hr).
    rewrite Hv in Hc. done. }
  destruct (first_conflict dims fixed_shape idx0) as [err|] eqn:Herr.
  - destruct (first_conflict_spec _ _ _ _ Herr)
      as (n & e & r & -> & Hrn & Hern & Hc & Hnc & Hval).
    assert (n ≤ idx)%nat as Hle.
    { destruct (decide (n ≤ idx)%nat) as [|Hgt]; [done|].
      exfalso. apply (Hbad n); [lia|done]. }
    split; [by exists n, e, r|]. intros Hcompat.
    assert (n = idx) as ->.
    { destruct (decide (n = idx)) as [|Hneq]; [done|]. exfalso. apply Hnc.
      replace (take (S n) dims) with (take (S n) (take idx dims))
        by (rewrite take_take; f_equal; lia).
      replace (take (S n) fixed_shape) with (take (S n) (take idx fixed_shape))
        by (rewrite take_take; f_equal; lia).
      by apply compatible_take. }
    rewrite Hr in Hrn. injection Hrn as <-. by rewrite (Hval d existing Hd Hv).
  - exfalso. apply first_conflict_None, shapes_agree_compatible in Herr; [|done].
    apply (Hbad (length dims)); [by apply lookup_lt_Some in Hd|].
    rewrite firstn_all. rewrite Hlen, firstn_all. done.
Qed.

(** C7, amended. Let the first graph input called [input_name] be a
    tensor. If the rank of [fixed_shape] differs from the rank of the
    declared shape, the call raises the rank mismatch error. If the ranks
    agree, dimension [idx] of the declared shape holds a value that
    differs from the requested one, and the values requested for the
    dimensions before it are in the range of [dim_value], the call raises
    the conflict error, which names a position counted from one: the
    first position at which the request stops being compatible with the
    declared shape. That is position [idx + 1] when the request is
    compatible with the dimensions before [idx], those with a symbolic
    name included, and an earlier position otherwise. *)
Theorem make_input_shape_fixed_errors graph input_name fixed_shape pos i t :
  find_input (g_input graph) input_name 0 = Some (pos, i) →
  vi_type i = tensor_type t →
  let declared := dim (shape_of t) in
  let raised := (_make_input_shape_fixed graph input_name fixed_shape).2 in
  (length declared ≠ length fixed_shape →
   raised = Some (RankMismatch (length declared) (length fixed_shape))) ∧
  (length declared = length fixed_shape →
   ∀ idx d existing requested,
     declared !! idx = Some d → d_value d = dim_value existing →
     fixed_shape !! idx = Some requested → existing ≠ requested →
     Forall is_int64 (take idx fixed_shape) →
     (∃ at_ e r,
        raised = Some (FixedSizeConflict e r (at_ + 1)) ∧
        (at_ ≤ idx)%nat ∧ fixed_shape !! at_ = Some r ∧ e ≠ r ∧
        compatible (take at_ declared) (take at_ fixed_shape) ∧
        ¬ compatible (take (S at_) declared) (take (S at_) fixed_shape)) ∧
     (compatible (take idx declared) (take idx fixed_shape) →
      raised = Some (FixedSizeConflict existing requested (idx + 1)))).
Proof.
  intros Hfind Hty declared raised.
  assert (Hdims : input_dims graph pos = declared).
  { apply find_input_lookup in Hfind as [_ Hl]. rewrite Nat.sub_0_r in Hl.
    unfold input_dims. by rewrite Hl, Hty. }
  assert (Hraised : raised =
            if decide (length declared ≠ length fixed_shape)
            then Some (RankMismatch (length declared) (length fixed_shape))
            else first_conflict declared fixed_shape 0).
  { unfold raised, _make_input_shape_fixed. rewrite Hfind, Hty.
    fold declared. case_decide as Hrank; [done|].
    rewrite fix_dims_first_conflict by (rewrite ?Hdims; lia).
    by rewrite !drop_0, Hdims. }
  rewrite Hraised. split.
  - intros Hrank. by rewrite decide_True.
  - intros Hrank idx d existing requested Hidx Hd Hreq Hne _.
    rewrite decide_False by (intros Hc; by apply Hc).
    apply (first_conflict_at declared fixed_shape 0 idx d existing requested);
      done.
Qed.

(** The input of shape [1, 3, 224, 224] against [1, 3, 224, 225] and
    against a shape of rank 3. *)
Lemma make_input_shape_fixed_errors_witness :
  (_make_input_shape_fixed image_graph "x" [1; 3; 224; 225]%Z).2
  = Some (FixedSizeConflict 224 225 (3 + 1)) ∧
  (_make_input_shape_fixed image_graph "x" [1; 3; 224]%Z).2
  = Some (RankMismatch 4 3).
Proof.
  split.
  - destruct (make_input_shape_fixed_errors image_graph "x" [1; 3; 224; 225]%Z 0
                (tensor_value "x" [fixed_dim 1; fixed_dim 3; fixed_dim 224; fixed_dim 224])
                {| elem_type := 1;
                   shape := Some {| dim := [fixed_dim 1; fixed_dim 3; fixed_dim 224; fixed_dim 224] |} |}
                eq_refl eq_refl) as [_ Hconflict].
    destruct (Hconflict eq_refl 3%nat (fixed_dim 224) 224%Z 225%Z
                eq_refl eq_refl eq_refl ltac:(lia)) as [_ Hfirst].
    + simpl. repeat (apply Forall_cons_2; [unfold is_int64; lia|]).
      apply Forall_nil_2.
    + apply Hfirst. apply shapes_agree_compatible; reflexivity.
  - destruct (make_input_shape_fixed_errors image_graph "x" [1; 3; 224]%Z 0
                (tensor_value "x" [fixed_dim 1; fixed_dim 3; fixed_dim 224; fixed_dim 224])
                {| elem_type := 1;
                   shape := Some {| dim := [fixed_dim 1; fixed_dim 3; fixed_dim 224; fixed_dim 224] |} |}
                eq_refl eq_refl) as [Hrank _].
    apply Hrank. simpl. lia.
Defined.

(** C7 as first stated fails: for the conflict in the last of four
    dimensions, whose index is 3, the error names dimension 4. *)
Lemma conflict_reports_one_based_dimension :
  let raised := (_make_input_shape_fixed image_graph "x" [1; 3; 224; 225]%Z).2 in
  input_dims image_graph 0 = [fixed_dim 1; fixed_dim 3; fixed_dim 224; fixed_dim 224] ∧
  raised = Some (FixedSizeConflict 224 225 4) ∧
  raised ≠ Some (FixedSizeConflict 224 225 3) ∧
  (message <$> raised) =
    Some "Can't replace existing fixed size of 224 with 225 for dimension 4".
Proof.
  simpl. split; [reflexivity|]. split; [by vm_compute|]. split; [by vm_compute|].
  by vm_compute.
Qed.

(** ** The fixed-size test *)

Lemma all_dims_fixed_spec dims :
  all_dims_fixed dims = true ↔
  Forall (fun d => ∃ v, d_value d = dim_value v ∧ (v > 0)%Z) dims.
Proof.
  induction dims as [|d dims IH]; simpl.
  - split; [by constructor|done].
  - rewrite Forall_cons, <- IH. destruct (d_value d) as [v|p|].
    + case_decide as Hv.
      * split; [|tauto]. intros ?. split; [|done]. by exists v.
      * split; [done|]. intros [(v' & [= <-] & ?) _]. done.
    + split; [done|]. by intros [(v' & ? & _) _].
    + split; [done|]. by intros [(v' & ? & _) _].
Qed.

Lemma is_fixed_size_tensor_spec value :
  is_fixed_size_tensor value = true ↔
  ∃ t, vi_type value = tensor_type t ∧
       Forall (fun d => ∃ v, d_value d = dim_value v ∧ (v > 0)%Z)
              (dim (shape_of t)).
Proof.
  unfold is_fixed_size_tensor. destruct (vi_type value) as [t|kind|]; simpl.
  - rewrite all_dims_fixed_spec. split; [eauto|]. by intros (t' & [= <-] & ?).
  - split; [done|]. by intros (t' & ? & _).
  - split; [done|]. by intros (t' & ? & _).
Qed.

(** C6, at the input on which the code departs from it: a tensor value
    for which no shape was declared is reported as fixed. *)
Theorem is_fixed_size_tensor_without_shape :
  vi_type shapeless_value = tensor_type {| elem_type := 1; shape := None |} ∧
  is_fixed_size_tensor shapeless_value = true.
Proof. split; reflexivity. Qed.

Example is_fixed_size_tensor_image :
  is_fixed_size_tensor
    (tensor_value "x" [fixed_dim 1; fixed_dim 3; fixed_dim 224; fixed_dim 224]) = true.
Proof. reflexivity. Qed.

Example is_fixed_size_tensor_symbolic :
  is_fixed_size_tensor
    (tensor_value "x" [symbolic_dim "N"; fixed_dim 3; fixed_dim 224; fixed_dim 224]) = false.
Proof. reflexivity. Qed.

Example is_fixed_size_tensor_scalar :
  is_fixed_size_tensor (tensor_value "x" []) = true.
Proof. reflexivity. Qed.

(** C10. Whatever the graph and whatever the class held before, after a
    call of [get_producer_consumer_maps], whether it returns or raises,
    [NodeProto.__hash__] maps every node object to its [id]. *)
Theorem get_producer_consumer_maps_sets_hash graph cls :
  ∀ self : NodeObject,
    __hash__ (get_producer_consumer_maps graph cls).1 self = hash_is (id self).
Proof.
  intros self. unfold get_producer_consumer_maps.
  destruct (_map_node_dependencies graph [] no_links) as [imp links].
  by case_decide.
Qed.

(** * Further properties *)

(** ** The traversals *)

Lemma iterate_graph_per_node_func_unfold {State} (f : NodeProto → State → State)
    graph state :
  iterate_graph_per_node_func f graph state =
  foldl (fun state node =>
           foldl (fun state attr =>
                    match g attr with
                    | Some sub => iterate_graph_per_node_func f sub state
                    | None => state
                    end)
                 (f node state) (n_attribute node))
        state (g_node graph).
Proof. by destruct graph. Qed.

Lemma foldl_snoc_collect {A} (l acc : list A) :
  foldl (fun seen x => seen ++ [x]) acc l = acc ++ l.
Proof.
  revert acc. induction l as [|x l IH]; intros acc; simpl.
  - by rewrite app_nil_r.
  - rewrite IH. by rewrite <- app_assoc.
Qed.

Lemma attribute_calls attrs :
  (∀ attr sub, attr ∈ attrs → g attr = Some sub → ∃ calls, calls_of sub calls) →
  ∃ calls,
    (∀ State (f : NodeProto → State → State) state,
       foldl (fun state attr =>
                match g attr with
                | Some sub => iterate_graph_per_node_func f sub state
                | None => state
                end) state attrs
       = foldl (fun state node => f node state) state calls) ∧
    (∀ node, node ∈ calls ↔
             ∃ j attr sub, attrs !! j = Some attr ∧ g attr = Some sub ∧
                           node_of sub node).
Proof.
  induction attrs as [|attr attrs IH]; intros Hsub.
  - exists []. split; [done|]. intros node. split; [inversion 1|].
    by intros (j & ? & ? & ? & _).
  - destruct IH as (rest & Hrest & Hmem).
    { intros a s Ha. apply Hsub. by right. }
    destruct (g attr) as [sub|] eqn:Hg.
    + destruct (Hsub attr sub ltac:(by left) Hg) as (calls & Hcalls & Hcmem).
      exists (calls ++ rest). split.
      * intros State f state. simpl. rewrite Hg, Hcalls, Hrest.
        by rewrite foldl_app.
      * intros node. rewrite elem_of_app, Hcmem, Hmem. split.
        -- intros [Hn|(j & a & s & Hj & Hs & Hn)].
           ++ by exists 0, attr, sub.
           ++ by exists (S j), a, s.
        -- intros ([|j] & a & s & Hj & Hs & Hn); simpl in Hj.
           ++ left. injection Hj as <-. rewrite Hg in Hs. by injection Hs as <-.
           ++ right. by exists j, a, s.
    + exists rest. split.
      * intros State f state. simpl. by rewrite Hg, Hrest.
      * intros node. rewrite Hmem. split.
        -- intros (j & a & s & Hj & Hs & Hn). by exists (S j), a, s.
        -- intros ([|j] & a & s & Hj & Hs & Hn); simpl in Hj.
           ++ injection Hj as <-. congruence.
           ++ by exists j, a, s.
Qed.

Lemma node_calls nodes :
  (∀ node attr sub,
     node ∈ nodes → attr ∈ n_attribute node → g attr = Some sub →
     ∃ calls, calls_of sub calls) →
  ∃ calls,
    (∀ State (f : NodeProto → State → State) state,
       foldl (fun state node =>
                foldl (fun state attr =>
                         match g attr with
                         | Some sub => iterate_graph_per_node_func f sub state
                         | None => state
                         end)
                      (f node state) (n_attribute node))
             state nodes
       = foldl (fun state node => f node state) state calls) ∧
    (∀ node, node ∈ calls ↔
             (∃ k, nodes !! k = Some node) ∨
             (∃ k owner j attr sub,
                nodes !! k = Some owner ∧ n_attribute owner !! j = Some attr ∧
                g attr = Some sub ∧ node_of sub node)).
Proof.
  induction nodes as [|n nodes IH]; intros Hsub.
  - exists []. split; [done|]. intros node. split; [inversion 1|].
    intros [(k & ?)|(k & ? & ? & ? & ? & ? & _)]; done.
  - destruct IH as (rest & Hrest & Hmem).
    { intros n' a s Hn. apply Hsub. by right. }
    destruct (attribute_calls (n_attribute n)) as (inner & Hinner & Himem).
    { intros a s. apply Hsub. by left. }
    exists (n :: inner ++ rest). split.
    + intros State f state. simpl. rewrite Hinner, Hrest. by rewrite foldl_app.
    + intros node. rewrite elem_of_cons, elem_of_app, Himem, Hmem. split.
      * intros [->|[(j & a & s & Hj & Hs & Hn)|
                    [(k & Hk)|(k & o & j & a & s & Hk & Hrest')]]].
        -- left. by exists 0.
        -- right. by exists 0, n, j, a, s.
        -- left. by exists (S k).
        -- right. by exists (S k), o, j, a, s.
      * intros [([|k] & Hk)|([|k] & o & j & a & s & Hk & Hj & Hs & Hn)];
          simpl in Hk.
        -- left. by injection Hk.
        -- right. right. left. by exists k.
        -- injection Hk as <-. right. left. by exists j, a, s.
        -- right. right. right. by exists k, o, j, a, s.
Qed.

Lemma calls_of_exists graph : ∃ calls, calls_of graph calls.
Proof.
  induction graph as [graph IH] using GraphProto_nested_ind.
  destruct (node_calls (g_node graph) IH) as (calls & Hcalls & Hmem).
  exists calls. split.
  - intros State f state. by rewrite iterate_graph_per_node_func_unfold.
  - intros node. rewrite Hmem. unfold node_of. split.
    + intros [(k & Hk)|(k & o & j & a & s & Hk & Hj & Hs & place & sub & k' & Hat & Hk')].
      * by exists [], graph, k.
      * exists (k :: j :: place), sub, k'. split; [|done].
        simpl. rewrite Hk. simpl. rewrite Hj. simpl. by rewrite Hs.
    + intros (place & sub & k' & Hat & Hk').
      destruct place as [|k [|j place]]; simpl in Hat; [|done|].
      * injection Hat as <-. left. by exists k'.
      * destruct (g_node graph !! k) as [o|] eqn:Hk; simpl in Hat; [|done].
        destruct (n_attribute o !! j) as [a|] eqn:Hj; simpl in Hat; [|done].
        destruct (g a) as [s|] eqn:Hs; simpl in Hat; [|done].
        right. exists k, o, j, a, s. do 3 (split; [done|]).
        by exists place, sub, k'.
Qed.

Lemma calls_of_visited_nodes graph : calls_of graph (visited_nodes graph).
Proof.
  destruct (calls_of_exists graph) as (calls & Hcalls & Hmem).
  assert (visited_nodes graph = calls) as ->; [|done].
  unfold visited_nodes. rewrite Hcalls. apply foldl_snoc_collect.
Qed.

Lemma iterate_collect graph seen :
  iterate_graph_per_node_func (fun node seen => seen ++ [node]) graph seen
  = seen ++ visited_nodes graph.
Proof.
  destruct (calls_of_visited_nodes graph) as [Hfold _].
  rewrite Hfold. apply foldl_snoc_collect.
Qed.


(** X2. The nodes [iterate_graph_per_node_func] passes to its callback are
    the nodes of the graph and of every graph nested in it, and they come
    in this order: the nodes of a graph in their order, each followed by
    the nodes of its subgraphs, attribute after attribute. *)
Theorem visited_nodes_spec graph :
  (∀ node, node ∈ visited_nodes graph ↔ node_of graph node) ∧
  visited_nodes graph =
    concat (map (fun node =>
                   node :: concat (map (fun attr =>
                                          match g attr with
                                          | Some sub => visited_nodes sub
                                          | None => []
                                          end)
                                       (n_attribute node)))
                (g_node graph)).
Proof.
  split; [apply calls_of_visited_nodes|].
  unfold visited_nodes at 1. rewrite iterate_graph_per_node_func_unfold.
  assert (Hattrs : ∀ attrs seen,
            foldl (fun state attr =>
                     match g attr with
                     | Some sub =>
                         iterate_graph_per_node_func
                           (fun node seen => seen ++ [node]) sub state
                     | None => state
                     end) seen attrs
            = seen ++ concat (map (fun attr =>
                                     match g attr with
                                     | Some sub => visited_nodes sub
                                     | None => []
                                     end) attrs)).
  { induction attrs as [|attr attrs IH]; intros seen; simpl.
    - by rewrite app_nil_r.
    - rewrite IH. destruct (g attr) as [sub|].
      + by rewrite iterate_collect, <- app_assoc.
      + done. }
  assert (∀ nodes seen,
            foldl (fun state node =>
                     foldl (fun state attr =>
                              match g attr with
                              | Some sub =>
                                  iterate_graph_per_node_func
                                    (fun node seen => seen ++ [node]) sub state
                              | None => state
                              end)
                           (state ++ [node]) (n_attribute node)) seen nodes
            = seen ++ concat (map (fun node =>
                   node :: concat (map (fun attr =>
                                          match g attr with
                                          | Some sub => visited_nodes sub
                                          | None => []
                                          end)
                                       (n_attribute node))) nodes)) as Hnodes.
  { induction nodes as [|node nodes IH]; intros seen; simpl.
    - by rewrite app_nil_r.
    - rewrite Hattrs, IH. by rewrite <- !app_assoc. }
  by rewrite Hnodes.
Qed.

(** ** More on the traversal of graphs and on symbolic dimensions *)

(** The rewriting of the nodes that the traversal of graphs does. *)
Lemma make_dim_param_fixed_unfold graph p v :
  _make_dim_param_fixed graph p v =
  {| g_node :=
       map (fun node =>
              {| n_name := n_name node;
                 op_type := op_type node;
                 n_input := n_input node;
                 n_output := n_output node;
                 n_attribute :=
                   map (fun attr =>
                          match g attr with
                          | Some sub =>
                              {| a_name := a_name attr;
                                 g := Some (_make_dim_param_fixed sub p v) |}
                          | None => attr
                          end)
                       (n_attribute node) |})
           (g_node graph);
     g_input := update_dim_values p v (g_input graph);
     g_output := update_dim_values p v (g_output graph);
     g_value_info := update_dim_values p v (g_value_info graph);
     g_initializer := g_initializer graph |}.
Proof.
  unfold _make_dim_param_fixed at 1.
  by rewrite iterate_graph_per_graph_func_unfold.
Qed.

(** Rewriting the subgraphs of the nodes by a function that leaves them as
    they are leaves the nodes as they are. *)
Lemma map_subgraphs_id (rec : GraphProto → GraphProto) nodes :
  (∀ node attr sub,
     node ∈ nodes → attr ∈ n_attribute node → g attr = Some sub →
     rec sub = sub) →
  map (fun node =>
         {| n_name := n_name node;
            op_type := op_type node;
            n_input := n_input node;
            n_output := n_output node;
            n_attribute :=
              map (fun attr =>
                     match g attr with
                     | Some sub => {| a_name := a_name attr; g := Some (rec sub) |}
                     | None => attr
                     end)
                  (n_attribute node) |})
      nodes
  = nodes.
Proof.
  intros Hrec. rewrite <- (map_id nodes) at 2. apply map_ext_in.
  intros node Hnode%list_elem_of_In. destruct node as [nm op ins outs attrs].
  simpl. f_equal. rewrite <- (map_id attrs) at 2. apply map_ext_in.
  intros attr Hattr%list_elem_of_In. destruct attr as [an [sub|]]; simpl; [|done].
  f_equal. f_equal. by apply (Hrec _ _ _ Hnode Hattr).
Qed.

(** The traversal rewrites nothing by itself. *)
Lemma iterate_graph_per_graph_func_id graph :
  iterate_graph_per_graph_func (fun graph => graph) graph = graph.
Proof.
  induction graph as [graph IH] using GraphProto_nested_ind.
  rewrite iterate_graph_per_graph_func_unfold, map_subgraphs_id by done.
  by destruct graph.
Qed.

(** X3. For a callback that leaves the nodes of the graph it is given as
    they are, [iterate_graph_per_graph_func] applies it to the graph at
    every place of the tree, once: the inputs, outputs, value-infos and
    initializers there are those of the callback's result on the graph
    that was there, and the names, operators, inputs, outputs and
    attributes of the nodes are unchanged. *)
Theorem iterate_graph_per_graph_func_everywhere
    (per_graph_func : GraphProto → GraphProto) graph place :
  (∀ graph, g_node (per_graph_func graph) = g_node graph) →
  match subgraph_at graph place,
        subgraph_at (iterate_graph_per_graph_func per_graph_func graph) place with
  | Some sub, Some sub' =>
      g_input sub' = g_input (per_graph_func sub) ∧
      g_output sub' = g_output (per_graph_func sub) ∧
      g_value_info sub' = g_value_info (per_graph_func sub) ∧
      g_initializer sub' = g_initializer (per_graph_func sub) ∧
      Forall2 same_node_shell (g_node (per_graph_func sub)) (g_node sub')
  | None, None => True
  | _, _ => False
  end.
Proof.
  intros Hnodes. rewrite subgraph_at_iterate.
  destruct (subgraph_at graph place) as [sub|]; simpl; [|done].
  rewrite Hnodes.
  rewrite iterate_graph_per_graph_func_unfold. simpl. do 4 (split; [done|]).
  apply Forall2_fmap_r, Forall_Forall2_diag, Forall_forall.
  intros node _. unfold same_node_shell. simpl. do 4 (split; [done|]).
  apply Forall2_fmap_r, Forall_Forall2_diag, Forall_forall.
  intros attr _. simpl. destruct (g attr) as [s|] eqn:Hg; simpl.
  - split; [done|]. split; eauto.
  - rewrite Hg. split; [done|tauto].
Qed.

(** The callback that fixes batch to 8 in the declarations of a graph,
    at the subgraph of node 0 of [batch_graph]. *)
Lemma iterate_graph_per_graph_func_everywhere_witness :
  (∀ graph,
     g_node (_replace_symbolic_dim_value graph "batch" 8) = g_node graph) ∧
  ∃ sub sub',
    subgraph_at batch_graph [0; 0] = Some sub ∧
    subgraph_at
      (iterate_graph_per_graph_func
         (fun graph => _replace_symbolic_dim_value graph "batch" 8) batch_graph)
      [0; 0] = Some sub' ∧
    g_value_info sub' = g_value_info (_replace_symbolic_dim_value sub "batch" 8).
Proof.
  assert (Hnodes : ∀ graph,
            g_node (_replace_symbolic_dim_value graph "batch" 8) = g_node graph)
    by (intros graph; reflexivity).
  split; [exact Hnodes|].
  eexists _, _. split; [reflexivity|]. split; [reflexivity|].
  pose proof (iterate_graph_per_graph_func_everywhere
                (fun graph => _replace_symbolic_dim_value graph "batch" 8)
                batch_graph [0; 0]%nat Hnodes) as Hplace.
  simpl in Hplace. destruct Hplace as (_ & _ & Hinfo & _). exact Hinfo.
Defined.

(** *** Occurrences of a symbolic dimension *)

Lemma dims_use_replace p v dims :
  dims_use p (map (replace_dim p v) dims) = false.
Proof.
  unfold dims_use. induction dims as [|d dims IH]; simpl; [done|].
  rewrite IH, orb_false_r.
  unfold dim_uses, replace_dim. destruct (d_value d) as [e|q|] eqn:Hd; simpl.
  - by rewrite Hd.
  - case_decide as Hq; simpl; [done|]. rewrite Hd. by apply bool_decide_eq_false.
  - by rewrite Hd.
Qed.

Lemma dims_use_false_replace p v dims :
  dims_use p dims = false → map (replace_dim p v) dims = dims.
Proof.
  unfold dims_use. induction dims as [|d dims IH]; simpl; [done|].
  intros [Hd Hrest]%orb_false_iff. rewrite IH by done. f_equal.
  unfold dim_uses in Hd. unfold replace_dim.
  destruct (d_value d) as [e|q|]; [done| |done].
  apply bool_decide_eq_false in Hd. by rewrite decide_False.
Qed.

Lemma value_info_uses_update p v vi :
  value_info_uses p (update_dim_value p v vi) = false.
Proof.
  unfold value_info_uses, update_dim_value.
  destruct (vi_type vi) as [t|kind|] eqn:Hty; simpl; rewrite ?Hty; [|done..].
  unfold shape_of. simpl. destruct (shape t) as [s|]; simpl; [|done].
  apply dims_use_replace.
Qed.

Lemma value_info_uses_false_update p v vi :
  value_info_uses p vi = false → update_dim_value p v vi = vi.
Proof.
  unfold value_info_uses, update_dim_value. destruct vi as [name ty]. simpl.
  destruct ty as [t|kind|]; [|done..]. destruct t as [et [s|]]; simpl; [|done].
  intros Hd. rewrite (dims_use_false_replace _ _ _ Hd). by destruct s.
Qed.

Lemma existsb_update_dim_values p v vis :
  existsb (value_info_uses p) (update_dim_values p v vis) = false.
Proof.
  unfold update_dim_values. induction vis as [|vi vis IH]; simpl; [done|].
  by rewrite value_info_uses_update, IH.
Qed.

Lemma update_dim_values_unused p v vis :
  existsb (value_info_uses p) vis = false → update_dim_values p v vis = vis.
Proof.
  unfold update_dim_values. induction vis as [|vi vis IH]; simpl; [done|].
  intros [Hvi Hrest]%orb_false_iff.
  by rewrite value_info_uses_false_update, IH.
Qed.

Lemma graph_uses_unfold p graph :
  graph_uses p graph =
  existsb (value_info_uses p) (g_input graph)
  || existsb (value_info_uses p) (g_output graph)
  || existsb (value_info_uses p) (g_value_info graph)
  || existsb (fun node =>
                existsb (fun attr =>
                           match g attr with
                           | Some sub => graph_uses p sub
                           | None => false
                           end)
                        (n_attribute node))
             (g_node graph).
Proof. by destruct graph. Qed.

Lemma existsb_false_iff {A} (f : A → bool) l :
  existsb f l = false ↔ ∀ x, x ∈ l → f x = false.
Proof.
  induction l as [|a l IH]; simpl.
  - split; [intros _ x; inversion 1|done].
  - rewrite orb_false_iff, IH. split.
    + intros [Ha Hl] x [->|Hx]%elem_of_cons; eauto.
    + intros H. split; [apply H; by left|]. intros x Hx. apply H. by right.
Qed.

Lemma graph_uses_make_dim_param_fixed graph param_name value :
  graph_uses param_name (_make_dim_param_fixed graph param_name value) = false.
Proof.
  induction graph as [graph IH] using GraphProto_nested_ind.
  rewrite make_dim_param_fixed_unfold, graph_uses_unfold. simpl.
  rewrite !existsb_update_dim_values. simpl.
  apply existsb_false_iff. intros node' Hnode'.
  apply list_elem_of_fmap in Hnode' as (node & -> & Hnode). simpl.
  apply existsb_false_iff. intros attr' Hattr'.
  apply list_elem_of_fmap in Hattr' as (attr & -> & Hattr).
  destruct (g attr) as [sub|] eqn:Hg; simpl.
  - by apply (IH node attr sub).
  - by rewrite Hg.
Qed.

Lemma make_dim_param_fixed_unused_id graph param_name value :
  graph_uses param_name graph = false →
  _make_dim_param_fixed graph param_name value = graph.
Proof.
  induction graph as [graph IH] using GraphProto_nested_ind.
  rewrite graph_uses_unfold, !orb_false_iff.
  intros [[[Hin Hout] Hvi] Hnodes].
  rewrite make_dim_param_fixed_unfold.
  rewrite !update_dim_values_unused by done.
  rewrite map_subgraphs_id; [by destruct graph|].
  intros node attr sub Hnode Hattr Hg. apply (IH node attr sub Hnode Hattr Hg).
  rewrite existsb_false_iff in Hnodes. specialize (Hnodes node Hnode).
  rewrite existsb_false_iff in Hnodes. specialize (Hnodes attr Hattr).
  by rewrite Hg in Hnodes.
Qed.

(** X5. Fixing a symbolic name that no declared shape of the graph or of
    its subgraphs uses changes nothing, whatever the value. So a name can
    be fixed once: after it is fixed to a value in the range of
    [dim_value], fixing it again, to the same or to another value,
    changes nothing. *)
Theorem make_dim_param_fixed_unused graph param_name value later :
  (graph_uses param_name graph = false →
   _make_dim_param_fixed graph param_name value = graph) ∧
  (is_int64 value →
   _make_dim_param_fixed (_make_dim_param_fixed graph param_name value)
                         param_name later
   = _make_dim_param_fixed graph param_name value).
Proof.
  split.
  - apply make_dim_param_fixed_unused_id.
  - intros _.
    apply make_dim_param_fixed_unused_id, graph_uses_make_dim_param_fixed.
Qed.

Lemma replace_dim_comm p q v w d :
  p ≠ q →
  replace_dim p v (replace_dim q w d) = replace_dim q w (replace_dim p v d).
Proof.
  intros Hpq. unfold replace_dim. destruct (d_value d) as [e|r|] eqn:Hd; simpl.
  - by rewrite !Hd.
  - destruct (decide (r = q)) as [Hrq|Hrq]; destruct (decide (r = p)) as [Hrp|Hrp];
      simpl; rewrite ?Hd; simpl.
    + congruence.
    + by rewrite decide_True.
    + by rewrite decide_True.
    + by rewrite !decide_False.
  - by rewrite !Hd.
Qed.

Lemma update_dim_value_comm p q v w vi :
  p ≠ q →
  update_dim_value p v (update_dim_value q w vi)
  = update_dim_value q w (update_dim_value p v vi).
Proof.
  intros Hpq. unfold update_dim_value.
  destruct (vi_type vi) as [t|kind|] eqn:Hty; simpl; rewrite ?Hty; [|done..].
  f_equal. f_equal. f_equal. destruct (shape t) as [s|]; simpl; [|done].
  f_equal. f_equal. rewrite !map_map. apply map_ext.
  intros d. by apply replace_dim_comm.
Qed.

Lemma update_dim_values_comm p q v w vis :
  p ≠ q →
  update_dim_values p v (update_dim_values q w vis)
  = update_dim_values q w (update_dim_values p v vis).
Proof.
  intros Hpq. unfold update_dim_values. rewrite !map_map. apply map_ext.
  intros vi. by apply update_dim_value_comm.
Qed.

(** X6. Two different symbolic names can be fixed in either order: the
    graph that results is the same. *)
Theorem make_dim_param_fixed_comm graph p q v w :
  p ≠ q →
  _make_dim_param_fixed (_make_dim_param_fixed graph q w) p v
  = _make_dim_param_fixed (_make_dim_param_fixed graph p v) q w.
Proof.
  intros Hpq. induction graph as [graph IH] using GraphProto_nested_ind.
  rewrite (make_dim_param_fixed_unfold (_make_dim_param_fixed graph q w)).
  rewrite (make_dim_param_fixed_unfold (_make_dim_param_fixed graph p v)).
  rewrite (make_dim_param_fixed_unfold graph q w).
  rewrite (make_dim_param_fixed_unfold graph p v). simpl.
  rewrite !(update_dim_values_comm p q) by done.
  f_equal. rewrite !map_map. apply map_ext_in.
  intros node Hnode%list_elem_of_In. simpl. f_equal.
  rewrite !map_map. apply map_ext_in. intros attr Hattr%list_elem_of_In.
  destruct (g attr) as [sub|] eqn:Hg; simpl.
  - f_equal. f_equal. by apply (IH node attr sub).
  - by rewrite !Hg.
Qed.

Lemma make_dim_param_fixed_comm_witness :
  "batch" ≠ "seq" ∧
  _make_dim_param_fixed (_make_dim_param_fixed batch_graph "seq" 16) "batch" 8
  = _make_dim_param_fixed (_make_dim_param_fixed batch_graph "batch" 8) "seq" 16.
Proof.
  split; [done|].
  apply (make_dim_param_fixed_comm batch_graph "batch" "seq" 8 16). done.
Defined.

Lemma all_dims_fixed_replace p v dims :
  all_dims_fixed (map (replace_dim p v) dims) = true ↔
  Forall (fun d => (∃ e, d_value d = dim_value e ∧ (e > 0)%Z) ∨
                   (d_value d = dim_param p ∧ (v > 0)%Z)) dims.
Proof.
  rewrite all_dims_fixed_spec, Forall_fmap. apply Forall_iff. intros d.
  unfold compose, replace_dim. destruct (d_value d) as [e|q|] eqn:Hd; simpl.
  - rewrite Hd. split; [eauto|]. intros [?|[? _]]; [done|congruence].
  - case_decide as Hq; simpl.
    + subst q. split.
      * intros (e & [= <-] & He). by right.
      * intros [(e & ? & _)|[_ Hv]]; [done|]. by exists v.
    + rewrite Hd. split.
      * by intros (e & ? & _).
      * intros [(e & ? & _)|[? _]]; [done|congruence].
  - rewrite Hd. split.
    + by intros (e & ? & _).
    + intros [(e & ? & _)|[? _]]; done.
Qed.

(** X7. After [_make_dim_param_fixed] with a value in the range of
    [dim_value], a declared input is a fixed-size tensor exactly when it
    was a tensor whose every dimension held a value greater than zero or
    was named [param_name], the value given being greater than zero in
    that case. A value of zero or less (the default of
    [make_dynamic_shape_fixed] is -1) leaves every input that used the
    name not fixed. *)
Theorem make_dim_param_fixed_is_fixed_size graph param_name value i vi :
  is_int64 value →
  g_input graph !! i = Some vi →
  ∃ vi',
    g_input (_make_dim_param_fixed graph param_name value) !! i = Some vi' ∧
    vi_name vi' = vi_name vi ∧
    (is_fixed_size_tensor vi' = true ↔
     ∃ t, vi_type vi = tensor_type t ∧
          Forall (fun d => (∃ e, d_value d = dim_value e ∧ (e > 0)%Z) ∨
                           (d_value d = dim_param param_name ∧ (value > 0)%Z))
                 (dim (shape_of t))).
Proof.
  intros _ Hi. exists (update_dim_value param_name value vi). split.
  { rewrite make_dim_param_fixed_unfold. simpl. unfold update_dim_values.
    by rewrite list_lookup_fmap, Hi. }
  split.
  { unfold update_dim_value. by destruct (vi_type vi). }
  rewrite is_fixed_size_tensor_spec. unfold update_dim_value.
  destruct (vi_type vi) as [t|kind|] eqn:Hty; simpl.
  - split.
    + intros (t' & [= <-] & Hall). exists t. split; [done|].
      apply all_dims_fixed_replace. apply all_dims_fixed_spec.
      unfold shape_of in *. simpl in Hall. by destruct (shape t).
    + intros (t' & [= <-] & Hall). eexists. split; [done|].
      apply all_dims_fixed_replace, all_dims_fixed_spec in Hall.
      unfold shape_of in *. simpl. by destruct (shape t).
  - rewrite Hty. split; intros (t' & ? & _); done.
  - rewrite Hty. split; intros (t' & ? & _); done.
Qed.

Lemma make_dim_param_fixed_is_fixed_size_witness :
  ∃ vi', g_input (_make_dim_param_fixed batch_graph "batch" 8) !! 0%nat = Some vi' ∧
         vi_name vi' = "data" ∧ is_fixed_size_tensor vi' = true.
Proof.
  destruct (make_dim_param_fixed_is_fixed_size batch_graph "batch" 8 0
              (tensor_value "data"
                 [symbolic_dim "batch"; fixed_dim 3; fixed_dim 224; fixed_dim 224]))
    as (vi' & Hvi' & Hname & Hfixed); [unfold is_int64; lia|reflexivity|].
  exists vi'. do 2 (split; [done|]). apply Hfixed.
  eexists. split; [reflexivity|]. simpl.
  apply Forall_cons_2; [right; split; [reflexivity|lia]|].
  repeat (apply Forall_cons_2; [left; eexists; split; [reflexivity|lia]|]).
  apply Forall_nil_2.
Defined.

(** *** Which error, and when *)

Lemma find_input_None inputs input_name start :
  find_input inputs input_name start = None ↔
  input_name ∉ map vi_name inputs.
Proof.
  revert start. induction inputs as [|i inputs IH]; intros start; simpl.
  - split; [intros _; inversion 1|done].
  - case_decide as Hname.
    + split; [done|]. intros Hnot. exfalso. apply Hnot. rewrite Hname. by left.
    + rewrite IH, not_elem_of_cons. naive_solver.
Qed.

Lemma find_input_first inputs input_name pos i :
  find_input inputs input_name 0 = Some (pos, i) ↔
  inputs !! pos = Some i ∧ vi_name i = input_name ∧
  ∀ j i', (j < pos)%nat → inputs !! j = Some i' → vi_name i' ≠ input_name.
Proof.
  assert (∀ start p,
            find_input inputs input_name start = Some (p, i) ↔
            (start ≤ p)%nat ∧ inputs !! (p - start)%nat = Some i ∧
            vi_name i = input_name ∧
            ∀ j i', (j < p - start)%nat → inputs !! j = Some i' →
                    vi_name i' ≠ input_name) as Hgen.
  { induction inputs as [|i0 inputs IH]; intros start p; simpl.
    - split; [done|]. by intros (_ & ? & _).
    - case_decide as Hname.
      + split.
        * intros [= <- <-]. rewrite Nat.sub_diag. split; [lia|].
          split; [done|]. split; [done|]. lia.
        * intros (Hle & Hl & Hn & Hfirst).
          destruct (p - start)%nat as [|m] eqn:Hm.
          -- simpl in Hl. injection Hl as <-. do 2 f_equal. lia.
          -- exfalso. apply (Hfirst 0%nat i0); [lia|done|done].
      + rewrite IH. split.
        * intros (Hle & Hl & Hn & Hfirst). split; [lia|].
          replace (p - start)%nat with (S (p - S start)) by lia. simpl.
          split; [done|]. split; [done|].
          intros [|j] i' Hj Hi'; simpl in Hi'.
          -- by injection Hi' as <-.
          -- apply (Hfirst j); [lia|done].
        * intros (Hle & Hl & Hn & Hfirst).
          destruct (p - start)%nat as [|m] eqn:Hm.
          -- simpl in Hl. injection Hl as <-. done.
          -- simpl in Hl. split; [lia|].
             replace (p - S start)%nat with m by lia. split; [done|].
             split; [done|]. intros j i' Hj. apply (Hfirst (S j)). lia. }
  rewrite Hgen, Nat.sub_0_r. split.
  - intros (_ & ? & ? & ?). done.
  - intros (? & ? & ?). split; [lia|done].
Qed.

Lemma fix_dims_error graph pos fixed_shape idx remaining e :
  (fix_dims graph pos fixed_shape idx remaining).2 = Some e →
  ∃ existing requested dimension,
    e = FixedSizeConflict existing requested dimension.
Proof.
  revert graph idx. induction remaining as [|remaining IH]; intros graph idx;
    simpl; [done|].
  destruct (input_dims graph pos !! idx) as [d|]; [|done].
  destruct (fixed_shape !! idx) as [r|]; [|done].
  destruct (d_value d) as [v|p|].
  - case_decide; [|apply IH]. simpl. intros [= <-]. eauto.
  - apply IH.
  - apply IH.
Qed.

(** X8. The first graph input called [input_name] decides the outcome of
    [_make_input_shape_fixed]. When no input has the name the call raises
    with the list of all input names, in the order of their declaration;
    when the first one is not a tensor, or its rank is not that of
    [fixed_shape], it raises the matching error; in all three cases the
    graph is left untouched. Otherwise, the requested values being in
    the range of [dim_value], the call returns or raises the conflict
    error. An input of the same name declared later is never looked
    at. *)
Theorem make_input_shape_fixed_first_match graph input_name fixed_shape :
  let result := _make_input_shape_fixed graph input_name fixed_shape in
  (input_name ∉ map vi_name (g_input graph) →
   result = (graph, Some (InputNotFound input_name (map vi_name (g_input graph))))) ∧
  (∀ pos i,
     g_input graph !! pos = Some i → vi_name i = input_name →
     (∀ j i', (j < pos)%nat → g_input graph !! j = Some i' →
              vi_name i' ≠ input_name) →
     match vi_type i with
     | tensor_type t =>
         if decide (length (dim (shape_of t)) = length fixed_shape)
         then Forall is_int64 fixed_shape →
              result.2 = None ∨
              ∃ existing requested dimension,
                result.2 = Some (FixedSizeConflict existing requested dimension)
         else result = (graph, Some (RankMismatch (length (dim (shape_of t)))
                                                   (length fixed_shape)))
     | _ => result = (graph, Some (NotATensor input_name))
     end).
Proof.
  intros result. unfold result, _make_input_shape_fixed. split.
  - intros Hnot. apply (find_input_None _ _ 0) in Hnot. by rewrite Hnot.
  - intros pos i Hpos Hname Hfirst.
    assert (find_input (g_input graph) input_name 0 = Some (pos, i)) as ->
      by (by apply find_input_first).
    destruct (vi_type i) as [t|kind|]; [|done..].
    destruct (decide (length (dim (shape_of t)) = length fixed_shape)) as [Hr|Hr].
    + rewrite decide_False by (intros Hc; by apply Hc). intros _.
      destruct (fix_dims graph pos fixed_shape 0 (length (dim (shape_of t))))
        as [graph' [e|]] eqn:Hfix; [|by left].
      right. simpl.
      destruct (fix_dims_error graph pos fixed_shape 0
                  (length (dim (shape_of t))) e) as (a & b & c & ->);
        [by rewrite Hfix|eauto].
    + by rewrite decide_True.
Qed.

(** *** What is kept *)

Lemma Forall2_chain {A} (R : A → A → Prop) :
  (∀ x y z, R x y → R y z → R x z) →
  ∀ l1 l2 l3, Forall2 R l1 l2 → Forall2 R l2 l3 → Forall2 R l1 l3.
Proof.
  intros HR l1 l2 l3 H12. revert l3.
  induction H12; inversion 1; subst; constructor; eauto.
Qed.

Lemma dim_kept_refl d : dim_kept d d.
Proof. by left. Qed.

Lemma dim_kept_trans d1 d2 d3 : dim_kept d1 d2 → dim_kept d2 d3 → dim_kept d1 d3.
Proof.
  intros [->|[Hno (e & ->)]] H23; [done|].
  destruct H23 as [->|[Hno' _]].
  - right. eauto.
  - exfalso. by apply (Hno' e).
Qed.

Lemma value_info_kept_refl vi : value_info_kept vi vi.
Proof.
  split; [done|]. destruct (vi_type vi) as [t|kind|]; [|done..].
  split; [done|]. unfold shape_kept. destruct (shape t); [|done].
  apply Forall_Forall2_diag, Forall_forall. intros d _. apply dim_kept_refl.
Qed.

Lemma value_info_kept_trans vi1 vi2 vi3 :
  value_info_kept vi1 vi2 → value_info_kept vi2 vi3 → value_info_kept vi1 vi3.
Proof.
  intros [Hn12 H12] [Hn23 H23]. split; [congruence|].
  destruct (vi_type vi1) as [t1|k1|], (vi_type vi2) as [t2|k2|],
    (vi_type vi3) as [t3|k3|]; try done; try congruence.
  destruct H12 as [He12 Hs12], H23 as [He23 Hs23]. split; [congruence|].
  unfold shape_kept in *.
  destruct (shape t1), (shape t2), (shape t3); try done.
  eapply (Forall2_chain _ dim_kept_trans); done.
Qed.

Lemma same_node_shell_refl node : same_node_shell node node.
Proof.
  do 4 (split; [done|]). apply Forall_Forall2_diag, Forall_forall.
  intros attr _. done.
Qed.

Lemma same_node_shell_trans n1 n2 n3 :
  same_node_shell n1 n2 → same_node_shell n2 n3 → same_node_shell n1 n3.
Proof.
  intros (? & ? & ? & ? & H12) (? & ? & ? & ? & H23).
  do 4 (split; [congruence|]).
  eapply Forall2_chain; [|done..].
  intros a1 a2 a3 [? ?] [? ?]. split; [congruence|]. tauto.
Qed.

Lemma scope_kept_refl graph : scope_kept graph graph.
Proof.
  repeat split; try done;
    apply Forall_Forall2_diag, Forall_forall; intros x _;
    first [apply value_info_kept_refl | apply same_node_shell_refl].
Qed.

Lemma scope_kept_trans g1 g2 g3 :
  scope_kept g1 g2 → scope_kept g2 g3 → scope_kept g1 g3.
Proof.
  intros (Hi & Ho & Hv & Hini & Hn) (Hi' & Ho' & Hv' & Hini' & Hn').
  split; [|split; [|split; [|split]]].
  - eapply (Forall2_chain _ value_info_kept_trans); done.
  - eapply (Forall2_chain _ value_info_kept_trans); done.
  - eapply (Forall2_chain _ value_info_kept_trans); done.
  - congruence.
  - eapply (Forall2_chain _ same_node_shell_trans); done.
Qed.

Lemma graph_kept_refl graph : graph_kept graph graph.
Proof.
  intros place. destruct (subgraph_at graph place); [|done].
  apply scope_kept_refl.
Qed.

Lemma graph_kept_trans g1 g2 g3 :
  graph_kept g1 g2 → graph_kept g2 g3 → graph_kept g1 g3.
Proof.
  intros H12 H23 place. specialize (H12 place). specialize (H23 place).
  destruct (subgraph_at g1 place), (subgraph_at g2 place),
    (subgraph_at g3 place); try done.
  by eapply scope_kept_trans.
Qed.

Lemma dim_fixed_kept p v d d' : dim_fixed p v d d' → dim_kept d d'.
Proof.
  intros [Hyes Hno]. destruct d as [[e|q|] den]; simpl in *.
  - left. by apply Hno.
  - destruct (decide (q = p)) as [->|Hq].
    + right. split; [done|]. exists v. by apply Hyes.
    + left. apply Hno. congruence.
  - left. by apply Hno.
Qed.

Lemma value_info_fixed_kept p v vi vi' :
  value_info_fixed p v vi vi' → value_info_kept vi vi'.
Proof.
  intros [Hn H]. split; [done|].
  destruct (vi_type vi) as [t|k|], (vi_type vi') as [t'|k'|]; try done.
  destruct H as [He Hs]. split; [done|]. unfold shape_fixed, shape_kept in *.
  destruct (shape t), (shape t'); try done.
  eapply Forall2_impl; [done|]. apply dim_fixed_kept.
Qed.

Lemma scope_fixed_kept p v graph graph' :
  scope_fixed p v graph graph' → scope_kept graph graph'.
Proof.
  intros (Hi & Ho & Hv & Hini & Hn).
  split; [|split; [|split; [|split]]]; try done;
    (eapply Forall2_impl; [done|]); apply value_info_fixed_kept.
Qed.

Lemma make_dim_param_fixed_kept graph p v :
  graph_kept graph (_make_dim_param_fixed graph p v).
Proof.
  intros place.
  assert (subgraph_at (_make_dim_param_fixed graph p v) place =
          (fun sub => _make_dim_param_fixed sub p v)
            <$> subgraph_at graph place) as ->
    by apply subgraph_at_iterate.
  destruct (subgraph_at graph place) as [sub|]; simpl; [|done].
  apply (scope_fixed_kept p v), make_dim_param_fixed_scope.
Qed.

Lemma set_input_dim_kept graph pos idx d r :
  input_dims graph pos !! idx = Some d → d_value d = dim_unset →
  graph_kept graph
    (set_input_dim graph pos idx {| d_value := dim_value r; d_denotation := None |}).
Proof.
  intros Hidx Hd [|k [|j place]]; simpl; [| |].
  - unfold scope_kept. simpl.
    split; [|split; [|split; [|split]]]; try done;
      try (apply Forall_Forall2_diag, Forall_forall; intros x _;
           first [apply value_info_kept_refl | apply same_node_shell_refl]).
    apply Forall2_same_length_lookup. split; [by rewrite length_alter|].
    intros i vi vi' Hvi Hvi'.
    destruct (decide (i = pos)) as [->|Hne].
    + rewrite list_lookup_alter_eq, Hvi in Hvi'. simpl in Hvi'.
      injection Hvi' as <-. unfold input_dims in Hidx. rewrite Hvi in Hidx.
      destruct (vi_type vi) as [t|kind|] eqn:Hty; [|done..].
      split; [done|]. simpl. rewrite Hty. split; [done|].
      unfold shape_of, shape_kept in *. destruct (shape t) as [s|]; simpl in *; [|done].
      apply Forall2_same_length_lookup. split; [by rewrite length_insert|].
      intros i' d0 d0' Hd0 Hd0'.
      destruct (decide (i' = idx)) as [->|Hne'].
      * rewrite list_lookup_insert_eq in Hd0' by (by eapply lookup_lt_Some).
        injection Hd0' as <-. rewrite Hidx in Hd0. injection Hd0 as <-.
        right. split; [by rewrite Hd|eauto].
      * rewrite list_lookup_insert_ne in Hd0' by done. left. congruence.
    + rewrite list_lookup_alter_ne in Hvi' by done.
      assert (vi' = vi) as -> by congruence. apply value_info_kept_refl.
  - done.
  - destruct (g_node graph !! k) as [node|]; simpl; [|done].
    destruct (n_attribute node !! j) as [attr|]; simpl; [|done].
    destruct (g attr) as [sub|]; simpl; [|done].
    destruct (subgraph_at sub place); [|done]. apply scope_kept_refl.
Qed.

Lemma fix_dims_kept pos fixed_shape remaining :
  ∀ graph idx, graph_kept graph (fix_dims graph pos fixed_shape idx remaining).1.
Proof.
  induction remaining as [|remaining IH]; intros graph idx; simpl.
  - apply graph_kept_refl.
  - destruct (input_dims graph pos !! idx) as [d|] eqn:Hd;
      [|apply graph_kept_refl].
    destruct (fixed_shape !! idx) as [r|]; [|apply graph_kept_refl].
    destruct (d_value d) as [e|p|] eqn:Hv.
    + case_decide; [apply graph_kept_refl|apply IH].
    + eapply graph_kept_trans; [apply make_dim_param_fixed_kept|apply IH].
    + eapply graph_kept_trans; [by eapply set_input_dim_kept|apply IH].
Qed.

Lemma make_input_shape_fixed_kept graph input_name fixed_shape :
  graph_kept graph (_make_input_shape_fixed graph input_name fixed_shape).1.
Proof.
  unfold _make_input_shape_fixed.
  destruct (find_input (g_input graph) input_name 0) as [[pos i]|];
    [|apply graph_kept_refl].
  destruct (vi_type i) as [t|kind|]; [|apply graph_kept_refl..].
  case_decide; [apply graph_kept_refl|apply fix_dims_kept].
Qed.

(** X9. For requested values in the range of [dim_value], whether it
    returns or raises, [_make_input_shape_fixed] leaves the tree of graphs
    as it is and, in the graph at every place: a dimension that held a
    value is unchanged, any other dimension is unchanged or now holds a
    value; names, element types, ranks, types that are not tensors,
    initializers, and the names, operators, inputs, outputs and attributes
    of the nodes are unchanged. *)
Theorem make_input_shape_fixed_keeps graph input_name fixed_shape place :
  Forall is_int64 fixed_shape →
  match subgraph_at graph place,
        subgraph_at (_make_input_shape_fixed graph input_name fixed_shape).1 place
  with
  | Some sub, Some sub' => scope_kept sub sub'
  | None, None => True
  | _, _ => False
  end.
Proof.
  intros _.
  pose proof (make_input_shape_fixed_kept graph input_name fixed_shape) as Hkept.
  exact (Hkept place).
Qed.

(** The call that fixes the input of [batch_graph] to [8, 3, 224, 224]. *)
Lemma make_input_shape_fixed_keeps_witness :
  Forall is_int64 [8; 3; 224; 224]%Z ∧
  scope_kept batch_graph
    (_make_input_shape_fixed batch_graph "data" [8; 3; 224; 224]%Z).1.
Proof.
  assert (Hrange : Forall is_int64 [8; 3; 224; 224]%Z).
  { repeat (apply Forall_cons_2; [unfold is_int64; lia|]). apply Forall_nil_2. }
  split; [exact Hrange|].
  exact (make_input_shape_fixed_keeps batch_graph "data" [8; 3; 224; 224]%Z []
           Hrange).
Defined.

(** *** What a call that returns has done *)

Lemma input_dims_kept graph graph' pos :
  graph_kept graph graph' →
  Forall2 dim_kept (input_dims graph pos) (input_dims graph' pos).
Proof.
  intros Hkept. specialize (Hkept []). simpl in Hkept.
  destruct Hkept as (Hin & _). unfold input_dims.
  destruct (g_input graph !! pos) as [vi|] eqn:Hvi.
  - destruct (Forall2_lookup_l _ _ _ _ _ Hin Hvi) as (vi' & -> & [_ Hty]).
    destruct (vi_type vi) as [t|k|], (vi_type vi') as [t'|k'|]; try done.
    destruct Hty as [_ Hs]. unfold shape_of, shape_kept in *.
    destruct (shape t), (shape t'); try done; constructor.
  - apply Forall2_length in Hin. apply lookup_ge_None in Hvi.
    rewrite (proj2 (lookup_ge_None _ _)) by lia. constructor.
Qed.

Lemma dim_kept_value d d' e :
  dim_kept d d' → d_value d = dim_value e → d_value d' = dim_value e.
Proof.
  intros [->|[Hno _]] Hd; [done|]. exfalso. by apply (Hno e).
Qed.

Lemma fix_dims_values pos fixed_shape remaining :
  ∀ graph idx0 graph',
    fix_dims graph pos fixed_shape idx0 remaining = (graph', None) →
    length (input_dims graph pos) = (idx0 + remaining)%nat →
    length fixed_shape = (idx0 + remaining)%nat →
    ∀ i d', (idx0 ≤ i)%nat → input_dims graph' pos !! i = Some d' →
            ∃ r, fixed_shape !! i = Some r ∧ d_value d' = dim_value r.
Proof.
  induction remaining as [|remaining IH];
    intros graph idx0 graph' Hfix Hlen Hflen i d' Hi Hd'.
  - simpl in Hfix. injection Hfix as <-. apply lookup_lt_Some in Hd'. lia.
  - simpl in Hfix.
    destruct (lookup_lt_is_Some_2 (input_dims graph pos) idx0 ltac:(lia)) as [d0 Hd0].
    destruct (lookup_lt_is_Some_2 fixed_shape idx0 ltac:(lia)) as [r0 Hr0].
    rewrite Hd0, Hr0 in Hfix.
    (* the graph after the step, where dimension idx0 holds r0 *)
    assert (∃ graph1,
              fix_dims graph1 pos fixed_shape (S idx0) remaining = (graph', None) ∧
              length (input_dims graph1 pos) = (idx0 + S remaining)%nat ∧
              ∃ d1, input_dims graph1 pos !! idx0 = Some d1 ∧
                    d_value d1 = dim_value r0) as (graph1 & Hrec & Hlen1 & d1 & Hd1 & Hv1).
    { destruct (d_value d0) as [e|p|] eqn:Hv0.
      - case_decide as Hconf; [by simplify_eq|]. subst r0. exists graph. eauto.
      - exists (_make_dim_param_fixed graph p r0). split; [done|].
        rewrite input_dims_make_dim_param_fixed, length_map. split; [done|].
        exists (replace_dim p r0 d0). rewrite list_lookup_fmap, Hd0.
        split; [done|]. unfold replace_dim. rewrite Hv0. by rewrite decide_True.
      - exists (set_input_dim graph pos idx0
                  {| d_value := dim_value r0; d_denotation := None |}).
        split; [done|]. rewrite input_dims_set_input_dim, length_insert.
        split; [done|]. eexists.
        split; [apply list_lookup_insert_eq; lia|done]. }
    destruct (decide (i = idx0)) as [->|Hne].
    + exists r0. split; [done|].
      pose proof (fix_dims_kept pos fixed_shape remaining graph1 (S idx0)) as Hk.
      rewrite Hrec in Hk. simpl in Hk.
      apply (input_dims_kept _ _ pos) in Hk.
      destruct (Forall2_lookup_l _ _ _ _ _ Hk Hd1) as (d'' & Hd'' & Hkept).
      rewrite Hd' in Hd''. injection Hd'' as <-.
      by eapply dim_kept_value.
    + apply (IH graph1 (S idx0) graph'); [done|lia|lia|lia|done].
Qed.

Lemma make_input_shape_fixed_done_at graph input_name fixed_shape graph' :
  _make_input_shape_fixed graph input_name fixed_shape = (graph', None) →
  ∃ pos i i' t',
    find_input (g_input graph) input_name 0 = Some (pos, i) ∧
    g_input graph' !! pos = Some i' ∧ vi_name i' = input_name ∧
    vi_type i' = tensor_type t' ∧
    map d_value (dim (shape_of t')) = map dim_value fixed_shape ∧
    (Forall (fun r => (r > 0)%Z) fixed_shape → is_fixed_size_tensor i' = true).
Proof.
  intros Hres. pose proof (make_input_shape_fixed_kept graph input_name fixed_shape) as Hkept.
  rewrite Hres in Hkept. simpl in Hkept.
  unfold _make_input_shape_fixed in Hres.
  destruct (find_input (g_input graph) input_name 0) as [[pos i]|] eqn:Hfind; [|done].
  destruct (vi_type i) as [t|kind|] eqn:Hty; [|done..].
  case_decide as Hrank; [done|].
  apply find_input_first in Hfind as Hfirst. destruct Hfirst as (Hpos & Hname & _).
  assert (Hdims : input_dims graph pos = dim (shape_of t))
    by (unfold input_dims; by rewrite Hpos, Hty).
  pose proof (Hkept []) as Htop. simpl in Htop. destruct Htop as (Hin & _).
  destruct (Forall2_lookup_l _ _ _ _ _ Hin Hpos) as (i' & Hpos' & Hn' & Hty').
  rewrite Hty in Hty'. destruct (vi_type i') as [t'|k'|] eqn:Hti'; [|done..].
  assert (Hdims' : input_dims graph' pos = dim (shape_of t'))
    by (unfold input_dims; by rewrite Hpos', Hti').
  assert (Hvalues : map d_value (dim (shape_of t')) = map dim_value fixed_shape).
  { apply list_eq. intros k. rewrite !list_lookup_fmap.
    pose proof (input_dims_kept _ _ pos Hkept) as Hk.
    apply Forall2_length in Hk. rewrite Hdims, Hdims' in Hk.
    destruct (dim (shape_of t') !! k) as [d'|] eqn:Hd'; simpl.
    - destruct (fix_dims_values pos fixed_shape (length (dim (shape_of t)))
                  graph 0 graph' Hres ltac:(by rewrite Hdims) ltac:(lia) k d')
        as (r & -> & ->); [lia|by rewrite Hdims'|done].
    - apply lookup_ge_None in Hd'.
      rewrite (proj2 (lookup_ge_None _ _)) by lia. done. }
  exists pos, i, i', t'. do 2 (split; [done|]). split; [congruence|].
  do 2 (split; [done|]). intros Hpositive.
  apply is_fixed_size_tensor_spec. exists t'. split; [done|].
  apply Forall_lookup. intros k d' Hd'.
  assert (d_value <$> dim (shape_of t') = dim_value <$> fixed_shape) as Hvalues'
    by exact Hvalues.
  assert (d_value <$> dim (shape_of t') !! k = dim_value <$> fixed_shape !! k) as Hk
    by (by rewrite <- !list_lookup_fmap, Hvalues').
  rewrite Hd' in Hk. simpl in Hk.
  destruct (fixed_shape !! k) as [r|] eqn:Hr; [|done]. simpl in Hk.
  injection Hk as Hk. exists r. split; [done|].
  by apply (Forall_lookup_1 _ _ _ _ Hpositive Hr).
Qed.

Lemma find_input_kept graph graph' input_name pos i :
  graph_kept graph graph' →
  find_input (g_input graph) input_name 0 = Some (pos, i) →
  ∀ i', g_input graph' !! pos = Some i' →
        find_input (g_input graph') input_name 0 = Some (pos, i').
Proof.
  intros Hkept Hfind i' Hpos'.
  pose proof (Hkept []) as Htop. simpl in Htop. destruct Htop as (Hin & _).
  apply find_input_first. apply find_input_first in Hfind as (Hpos & Hname & Hfirst).
  split; [done|]. split.
  - destruct (Forall2_lookup_l _ _ _ _ _ Hin Hpos) as (i0 & Hi0 & [Hn _]).
    rewrite Hpos' in Hi0. injection Hi0 as <-. congruence.
  - intros j i0' Hj Hi0'.
    destruct (Forall2_lookup_r _ _ _ _ _ Hin Hi0') as (i0 & Hi0 & [Hn _]).
    rewrite Hn. by apply (Hfirst j).
Qed.

(** X10. When [_make_input_shape_fixed] returns, the first input called
    [input_name] is a tensor whose dimensions hold, one by one, the values
    of [fixed_shape]; if these are all greater than zero, the input is a
    fixed-size tensor for [is_fixed_size_tensor]. *)
Theorem make_input_shape_fixed_done graph input_name fixed_shape graph' :
  _make_input_shape_fixed graph input_name fixed_shape = (graph', None) →
  ∃ pos i' t',
    find_input (g_input graph') input_name 0 = Some (pos, i') ∧
    vi_type i' = tensor_type t' ∧
    map d_value (dim (shape_of t')) = map dim_value fixed_shape ∧
    (Forall (fun r => (r > 0)%Z) fixed_shape → is_fixed_size_tensor i' = true).
Proof.
  intros Hres.
  destruct (make_input_shape_fixed_done_at _ _ _ _ Hres)
    as (pos & i & i' & t' & Hfind & Hpos' & _ & Hty' & Hvalues & Hfixed).
  pose proof (make_input_shape_fixed_kept graph input_name fixed_shape) as Hkept.
  rewrite Hres in Hkept. simpl in Hkept.
  exists pos, i', t'. split; [by eapply find_input_kept|done].
Qed.

Lemma make_input_shape_fixed_done_witness :
  _make_input_shape_fixed batch_graph "data" [8; 3; 224; 224]%Z
  = (batch_graph_fixed, None) ∧
  ∃ pos i' t',
    find_input (g_input batch_graph_fixed) "data" 0 = Some (pos, i') ∧
    vi_type i' = tensor_type t' ∧
    map d_value (dim (shape_of t')) = map dim_value [8; 3; 224; 224]%Z ∧
    (Forall (fun r => (r > 0)%Z) [8; 3; 224; 224]%Z →
     is_fixed_size_tensor i' = true).
Proof.
  split; [reflexivity|].
  apply (make_input_shape_fixed_done batch_graph "data" [8; 3; 224; 224]%Z).
  reflexivity.
Defined.

(** *** When a call returns *)

Lemma fix_dims_agree pos fixed_shape remaining :
  ∀ graph idx0,
    length (input_dims graph pos) = (idx0 + remaining)%nat →
    length fixed_shape = (idx0 + remaining)%nat →
    (fix_dims graph pos fixed_shape idx0 remaining).2 = None ↔
    shapes_agree (drop idx0 (input_dims graph pos)) (drop idx0 fixed_shape) = true.
Proof.
  induction remaining as [|remaining IH]; intros graph idx0 Hlen Hflen.
  - simpl. rewrite !drop_ge by lia. done.
  - simpl.
    destruct (lookup_lt_is_Some_2 (input_dims graph pos) idx0 ltac:(lia)) as [d0 Hd0].
    destruct (lookup_lt_is_Some_2 fixed_shape idx0 ltac:(lia)) as [r0 Hr0].
    rewrite Hd0, Hr0.
    rewrite (drop_S _ _ _ Hd0), (drop_S _ _ _ Hr0). simpl.
    destruct (d_value d0) as [e|p|] eqn:Hv0.
    + case_decide as Hconf.
      * simpl. rewrite bool_decide_eq_false_2 by done. done.
      * rewrite bool_decide_eq_true_2 by done. simpl. apply IH; lia.
    + rewrite IH by (rewrite ?input_dims_make_dim_param_fixed, ?length_map; lia).
      rewrite input_dims_make_dim_param_fixed.
      change (map (replace_dim p r0) (input_dims graph pos))
        with (replace_dim p r0 <$> input_dims graph pos).
      by rewrite <- fmap_drop.
    + rewrite IH by (rewrite ?input_dims_set_input_dim, ?length_insert; lia).
      rewrite input_dims_set_input_dim. by rewrite drop_insert_lt by lia.
Qed.

(** X11. For requested values in the range of [dim_value],
    [_make_input_shape_fixed] returns, rather than raises, exactly when
    the first input called [input_name] is a tensor of the rank of
    [fixed_shape] and the two shapes are compatible: every dimension that
    holds a value is asked to keep it, and dimensions with the same
    symbolic name are asked to take the same value. *)
Theorem make_input_shape_fixed_returns_iff graph input_name fixed_shape :
  Forall is_int64 fixed_shape →
  (_make_input_shape_fixed graph input_name fixed_shape).2 = None ↔
  ∃ pos i t,
    find_input (g_input graph) input_name 0 = Some (pos, i) ∧
    vi_type i = tensor_type t ∧
    length (dim (shape_of t)) = length fixed_shape ∧
    compatible (dim (shape_of t)) fixed_shape.
Proof.
  intros _. unfold _make_input_shape_fixed.
  destruct (find_input (g_input graph) input_name 0) as [[pos i]|] eqn:Hfind.
  - destruct (vi_type i) as [t|kind|] eqn:Hty.
    + assert (Hdims : input_dims graph pos = dim (shape_of t)).
      { apply find_input_first in Hfind as (Hpos & _).
        unfold input_dims. by rewrite Hpos, Hty. }
      case_decide as Hrank.
      * split; [done|]. intros (pos' & i' & t' & Hf & Ht & Hl & _).
        injection Hf as <- <-. rewrite Hty in Ht. injection Ht as <-. done.
      * rewrite fix_dims_agree by (rewrite ?Hdims; lia).
        rewrite !drop_0, Hdims, shapes_agree_compatible by done. split.
        -- intros Hc. by exists pos, i, t.
        -- intros (pos' & i' & t' & Hf & Ht & _ & Hc).
           injection Hf as <- <-. rewrite Hty in Ht. by injection Ht as <-.
    + split; [done|]. intros (pos' & i' & t' & Hf & Ht & _).
      injection Hf as <- <-. by rewrite Hty in Ht.
    + split; [done|]. intros (pos' & i' & t' & Hf & Ht & _).
      injection Hf as <- <-. by rewrite Hty in Ht.
  - split; [done|]. by intros (? & ? & ? & ? & _).
Qed.

(** The request [8, 3, 224, 224] for the input of [batch_graph], declared
    [batch, 3, 224, 224]: the call returns and the shapes are compatible. *)
Lemma make_input_shape_fixed_returns_iff_witness :
  Forall is_int64 [8; 3; 224; 224]%Z ∧
  (_make_input_shape_fixed batch_graph "data" [8; 3; 224; 224]%Z).2 = None ∧
  ∃ pos i t,
    find_input (g_input batch_graph) "data" 0 = Some (pos, i) ∧
    vi_type i = tensor_type t ∧
    length (dim (shape_of t)) = length [8; 3; 224; 224]%Z ∧
    compatible (dim (shape_of t)) [8; 3; 224; 224]%Z.
Proof.
  assert (Hrange : Forall is_int64 [8; 3; 224; 224]%Z).
  { repeat (apply Forall_cons_2; [unfold is_int64; lia|]). apply Forall_nil_2. }
  split; [exact Hrange|]. split; [reflexivity|].
  apply (make_input_shape_fixed_returns_iff batch_graph "data"
           [8; 3; 224; 224]%Z Hrange).
  reflexivity.
Defined.

(** *** Where a replaced name is left *)

Lemma existsb_true_iff {A} (f : A → bool) l :
  existsb f l = true ↔ ∃ x, x ∈ l ∧ f x = true.
Proof. rewrite existsb_exists. by setoid_rewrite list_elem_of_In. Qed.

Lemma graph_uses_spec p graph :
  graph_uses p graph = true ↔
  ∃ place sub vi,
    subgraph_at graph place = Some sub ∧
    (vi ∈ g_input sub ∨ vi ∈ g_output sub ∨ vi ∈ g_value_info sub) ∧
    value_info_uses p vi = true.
Proof.
  induction graph as [graph IH] using GraphProto_nested_ind.
  rewrite graph_uses_unfold, !orb_true_iff, !existsb_true_iff. split.
  - intros [[[(vi & Hvi & Hu)|(vi & Hvi & Hu)]|(vi & Hvi & Hu)]|(node & Hnode & Hu)].
    + exists [], graph, vi. eauto.
    + exists [], graph, vi. eauto.
    + exists [], graph, vi. eauto 6.
    + apply existsb_true_iff in Hu as (attr & Hattr & Hu).
      destruct (g attr) as [s|] eqn:Hg; [|done].
      apply (IH node attr s Hnode Hattr Hg) in Hu as (place & sub & vi & Hat & Hvi & Hu).
      apply list_elem_of_lookup in Hnode as [k Hk].
      apply list_elem_of_lookup in Hattr as [j Hj].
      exists (k :: j :: place), sub, vi. split; [|done].
      simpl. rewrite Hk. simpl. rewrite Hj. simpl. by rewrite Hg.
  - intros (place & sub & vi & Hat & Hvi & Hu).
    destruct place as [|k [|j place]]; simpl in Hat; [|done|].
    + injection Hat as <-. destruct Hvi as [Hvi|[Hvi|Hvi]]; eauto 8.
    + destruct (g_node graph !! k) as [node|] eqn:Hk; simpl in Hat; [|done].
      destruct (n_attribute node !! j) as [attr|] eqn:Hj; simpl in Hat; [|done].
      destruct (g attr) as [s|] eqn:Hg; simpl in Hat; [|done].
      right. exists node. split; [by eapply list_elem_of_lookup_2|].
      apply existsb_true_iff. exists attr.
      split; [by eapply list_elem_of_lookup_2|]. rewrite Hg.
      apply (IH node attr s); [by eapply list_elem_of_lookup_2..|done|].
      by exists place, sub, vi.
Qed.

(** X4. After [_make_dim_param_fixed] with a value in the range of
    [dim_value] the name is used nowhere: in the graph at every place of
    the tree, no dimension of a declared input, output or value-info is
    still named [param_name]. *)
Theorem make_dim_param_fixed_removes graph param_name value :
  is_int64 value →
  graph_uses param_name (_make_dim_param_fixed graph param_name value) = false ∧
  ∀ place sub vi t d,
    subgraph_at (_make_dim_param_fixed graph param_name value) place = Some sub →
    vi ∈ g_input sub ∨ vi ∈ g_output sub ∨ vi ∈ g_value_info sub →
    vi_type vi = tensor_type t → d ∈ dim (shape_of t) →
    d_value d ≠ dim_param param_name.
Proof.
  intros _.
  pose proof (graph_uses_make_dim_param_fixed graph param_name value) as Hno.
  split; [done|]. intros place sub vi t d Hat Hvi Hty Hd Hp.
  assert (graph_uses param_name (_make_dim_param_fixed graph param_name value)
          = true) as Hyes; [|congruence].
  apply graph_uses_spec. exists place, sub, vi. do 2 (split; [done|]).
  unfold value_info_uses. rewrite Hty. apply existsb_true_iff. exists d.
  split; [done|]. unfold dim_uses. rewrite Hp. by apply bool_decide_eq_true.
Qed.

(** batch is used in [batch_graph] and no longer once it is fixed to 8. *)
Lemma make_dim_param_fixed_removes_witness :
  is_int64 8 ∧ graph_uses "batch" batch_graph = true ∧
  graph_uses "batch" (_make_dim_param_fixed batch_graph "batch" 8) = false.
Proof.
  assert (Hrange : is_int64 8) by (unfold is_int64; lia).
  split; [exact Hrange|]. split; [reflexivity|].
  apply (make_dim_param_fixed_removes batch_graph "batch" 8 Hrange).
Defined.

Lemma value_info_kept_uses p vi vi' :
  value_info_kept vi vi' → value_info_uses p vi' = true →
  value_info_uses p vi = true.
Proof.
  intros [_ Hty]. unfold value_info_uses.
  destruct (vi_type vi) as [t|k|], (vi_type vi') as [t'|k'|]; try done.
  destruct Hty as [_ Hs]. unfold shape_of, shape_kept in *.
  destruct (shape t) as [s|], (shape t') as [s'|]; try done. simpl.
  unfold dims_use. rewrite !existsb_true_iff.
  intros (d' & Hd' & Hu). apply list_elem_of_lookup in Hd' as [k Hk].
  destruct (Forall2_lookup_r _ _ _ _ _ Hs Hk) as (d & Hd & [->|[_ (e & ->)]]).
  - exists d. split; [by eapply list_elem_of_lookup_2|done].
  - done.
Qed.

Lemma graph_kept_uses p graph graph' :
  graph_kept graph graph' → graph_uses p graph = false →
  graph_uses p graph' = false.
Proof.
  intros Hkept Hno. apply not_true_is_false. intros Hu.
  apply graph_uses_spec in Hu as (place & sub' & vi' & Hat' & Hvi' & Hu).
  specialize (Hkept place). rewrite Hat' in Hkept.
  destruct (subgraph_at graph place) as [sub|] eqn:Hat; [|done].
  destruct Hkept as (Hin & Hout & Hval & _).
  assert (∃ vi, (vi ∈ g_input sub ∨ vi ∈ g_output sub ∨ vi ∈ g_value_info sub) ∧
                value_info_kept vi vi') as (vi & Hvi & Hk).
  { destruct Hvi' as [Hvi'|[Hvi'|Hvi']];
      apply list_elem_of_lookup in Hvi' as [k Hk].
    - destruct (Forall2_lookup_r _ _ _ _ _ Hin Hk) as (vi & Hvi & ?).
      exists vi. split; [left; by eapply list_elem_of_lookup_2|done].
    - destruct (Forall2_lookup_r _ _ _ _ _ Hout Hk) as (vi & Hvi & ?).
      exists vi. split; [right; left; by eapply list_elem_of_lookup_2|done].
    - destruct (Forall2_lookup_r _ _ _ _ _ Hval Hk) as (vi & Hvi & ?).
      exists vi. split; [right; right; by eapply list_elem_of_lookup_2|done]. }
  assert (graph_uses p graph = true); [|congruence].
  apply graph_uses_spec. exists place, sub, vi.
  split; [done|]. split; [done|]. by eapply value_info_kept_uses.
Qed.

Lemma fix_dims_propagates pos fixed_shape remaining :
  ∀ graph idx0 graph',
    fix_dims graph pos fixed_shape idx0 remaining = (graph', None) →
    length (input_dims graph pos) = (idx0 + remaining)%nat →
    length fixed_shape = (idx0 + remaining)%nat →
    ∀ i d p, (idx0 ≤ i)%nat → input_dims graph pos !! i = Some d →
             d_value d = dim_param p → graph_uses p graph' = false.
Proof.
  induction remaining as [|remaining IH];
    intros graph idx0 graph' Hfix Hlen Hflen i d p Hi Hd Hp.
  - apply lookup_lt_Some in Hd. lia.
  - simpl in Hfix.
    destruct (lookup_lt_is_Some_2 (input_dims graph pos) idx0 ltac:(lia)) as [d0 Hd0].
    destruct (lookup_lt_is_Some_2 fixed_shape idx0 ltac:(lia)) as [r0 Hr0].
    rewrite Hd0, Hr0 in Hfix.
    destruct (d_value d0) as [e|q|] eqn:Hv0.
    + case_decide as Hconf; [by simplify_eq|].
      assert (i ≠ idx0) by (intros ->; congruence).
      apply (IH graph (S idx0) graph' Hfix) with (i := i) (d := d);
        [lia|lia|lia|done|done].
    + destruct (decide (q = p)) as [->|Hq].
      * pose proof (fix_dims_kept pos fixed_shape remaining
                      (_make_dim_param_fixed graph p r0) (S idx0)) as Hk.
        rewrite Hfix in Hk. simpl in Hk.
        apply (graph_kept_uses p _ _ Hk), graph_uses_make_dim_param_fixed.
      * assert (i ≠ idx0) by (intros ->; congruence).
        apply (IH _ (S idx0) graph' Hfix) with (i := i) (d := replace_dim q r0 d);
          rewrite ?input_dims_make_dim_param_fixed, ?length_map; try lia.
        -- by rewrite list_lookup_fmap, Hd.
        -- by apply replace_dim_param_other.
    + assert (i ≠ idx0) by (intros ->; congruence).
      apply (IH _ (S idx0) graph' Hfix) with (i := i) (d := d);
        rewrite ?input_dims_set_input_dim, ?length_insert; try lia.
      * by rewrite list_lookup_insert_ne.
      * done.
Qed.

(** X12. A symbolic name replaced while the shape of the input is fixed
    is replaced through the whole graph: when the call returns, no
    declared shape of the graph or of its subgraphs uses a name that a
    dimension of the input had. *)
Theorem make_input_shape_fixed_propagates
    graph input_name fixed_shape graph' pos i t d p :
  _make_input_shape_fixed graph input_name fixed_shape = (graph', None) →
  find_input (g_input graph) input_name 0 = Some (pos, i) →
  vi_type i = tensor_type t →
  d ∈ dim (shape_of t) → d_value d = dim_param p →
  graph_uses p graph' = false.
Proof.
  intros Hres Hfind Hty Hd Hp. unfold _make_input_shape_fixed in Hres.
  rewrite Hfind, Hty in Hres. case_decide as Hrank; [done|].
  apply list_elem_of_lookup in Hd as [k Hk].
  apply find_input_first in Hfind as (Hpos & _).
  assert (Hdims : input_dims graph pos = dim (shape_of t))
    by (unfold input_dims; by rewrite Hpos, Hty).
  apply (fix_dims_propagates pos fixed_shape _ graph 0 graph' Hres)
    with (i := k) (d := d); rewrite ?Hdims; try done; lia.
Qed.

Lemma make_input_shape_fixed_propagates_witness :
  graph_uses "batch" batch_graph_fixed = false.
Proof.
  apply (make_input_shape_fixed_propagates batch_graph "data" [8; 3; 224; 224]%Z
           batch_graph_fixed 0
           (tensor_value "data"
              [symbolic_dim "batch"; fixed_dim 3; fixed_dim 224; fixed_dim 224])
           {| elem_type := 1;
              shape := Some {| dim := [symbolic_dim "batch"; fixed_dim 3;
                                       fixed_dim 224; fixed_dim 224] |} |}
           (symbolic_dim "batch") "batch").
  - reflexivity.
  - reflexivity.
  - reflexivity.
  - simpl. apply list_elem_of_here.
  - reflexivity.
Defined.

(** ** More on the two dictionaries *)

Lemma lookup_add_link d key n k :
  add_link d key n !! k =
  if decide (k = key) then Some (default ∅ (d !! key) ∪ {[n]}) else d !! k.
Proof.
  unfold add_link. destruct (decide (k = key)) as [->|Hk].
  - rewrite lookup_alter_eq. destruct (decide (is_Some (d !! key))) as [Hs|Hs].
    + destruct Hs as [s Hs]. by rewrite Hs.
    + rewrite lookup_insert_eq. simpl.
      destruct (d !! key) as [s|] eqn:Hd; [|done]. exfalso. apply Hs. eauto.
  - rewrite lookup_alter_ne by done.
    destruct (decide (is_Some (d !! key))); [done|].
    by rewrite lookup_insert_ne.
Qed.

Lemma add_link_idemp d key n : add_link (add_link d key n) key n = add_link d key n.
Proof.
  apply map_eq. intros k. rewrite !lookup_add_link.
  rewrite (decide_True (P := key = key)) by done.
  destruct (decide (k = key)); [|done]. simpl. f_equal. set_solver.
Qed.

Lemma add_link_comm d key n key' n' :
  add_link (add_link d key n) key' n' = add_link (add_link d key' n') key n.
Proof.
  apply map_eq. intros k. rewrite !lookup_add_link.
  destruct (decide (key = key')) as [->|Hne].
  - rewrite (decide_True (P := key' = key')) by done.
    destruct (decide (k = key')); [|done]. simpl. f_equal. set_solver.
  - destruct (decide (k = key')) as [Hk'|Hk']; destruct (decide (k = key)) as [Hk|Hk];
      subst;
      rewrite ?(decide_False (P := key = key')),
        ?(decide_False (P := key' = key)) by done; done.
Qed.

Lemma link_comm links p c p' c' :
  _create_producer_consumer_link (_create_producer_consumer_link links p c) p' c'
  = _create_producer_consumer_link (_create_producer_consumer_link links p' c') p c.
Proof.
  unfold _create_producer_consumer_link. simpl. f_equal; apply add_link_comm.
Qed.

Lemma link_all_permutation edges edges' :
  edges ≡ₚ edges' → ∀ links, link_all links edges = link_all links edges'.
Proof.
  induction 1 as [|e l l' _ IH|e e' l|l1 l2 l3 _ IH1 _ IH2]; intros links.
  - done.
  - unfold link_all in *. simpl. apply IH.
  - unfold link_all. simpl. by rewrite link_comm.
  - by rewrite IH1.
Qed.

(** X13. Linking the same pair twice is linking it once, and two links
    can be made in either order; so the dictionaries that a list of links
    builds do not depend on the order of the list. The order in which the
    implicit inputs of a subgraph, a set, are appended to the inputs of a
    node is therefore without effect. *)
Theorem create_producer_consumer_link_order links p c p' c' edges edges' :
  _create_producer_consumer_link (_create_producer_consumer_link links p c) p c
  = _create_producer_consumer_link links p c ∧
  _create_producer_consumer_link (_create_producer_consumer_link links p c) p' c'
  = _create_producer_consumer_link (_create_producer_consumer_link links p' c') p c ∧
  (edges ≡ₚ edges' → link_all links edges = link_all links edges').
Proof.
  split; [|split].
  - unfold _create_producer_consumer_link. simpl. f_equal; apply add_link_idemp.
  - apply link_comm.
  - intros Hperm. by apply link_all_permutation.
Qed.

(** ** More on the maps of a whole graph *)

Lemma node_at_app graph place k :
  node_at graph (place ++ [k]) = sub ← subgraph_at graph place; g_node sub !! k.
Proof. unfold node_at. by rewrite reverse_snoc, reverse_involutive. Qed.

Lemma linked_exactly graph p c :
  linked (node_to_producers (links_of graph)) c p ↔
  ∃ place sub i k np nc x,
    subgraph_at graph place = Some sub ∧
    p = place ++ [i] ∧ c = place ++ [k] ∧
    g_node sub !! i = Some np ∧ g_node sub !! k = Some nc ∧ (i < k)%nat ∧
    x ≠ "" ∧ x ∈ n_output np ∧ x ∈ effective_inputs nc ∧
    ∀ i' n', (i < i' < k)%nat → g_node sub !! i' = Some n' → x ∉ n_output n'.
Proof.
  destruct (root_links graph p c) as [-> _]. unfold edge, local_edge. split.
  - intros (place & sub & Hat & i & k & nc & x & -> & -> & Hk & Hx & Hne & Hp).
    apply producers_before_spec in Hp as (Hlt & (np & Hnp & Hout) & Hlast).
    exists place, sub, i, k, np, nc, x. done.
  - intros (place & sub & i & k & np & nc & x & Hat & -> & -> & Hi & Hk & Hlt &
            Hne & Hout & Hx & Hlast).
    exists place, sub. split; [done|]. exists i, k, nc, x. do 5 (split; [done|]).
    apply producers_before_spec. eauto.
Qed.

(** X14. The content of the maps. A node [c] has [p] among its producers
    exactly when both are nodes of the same graph of the tree, [p] before
    [c], and some non-empty name is an output of [p], is an input of [c]
    (its own, or an implicit input of one of its subgraphs) and is not an
    output of a node between the two. Every node named in the maps is a
    node of the tree. *)
Theorem producer_consumer_maps_exactly graph p c :
  let links := (_map_node_dependencies graph [] no_links).2 in
  (linked (node_to_producers links) c p ↔
   ∃ place sub i k np nc x,
     subgraph_at graph place = Some sub ∧
     p = place ++ [i] ∧ c = place ++ [k] ∧
     g_node sub !! i = Some np ∧ g_node sub !! k = Some nc ∧ (i < k)%nat ∧
     x ≠ "" ∧ x ∈ n_output np ∧ x ∈ effective_inputs nc ∧
     ∀ i' n', (i < i' < k)%nat → g_node sub !! i' = Some n' → x ∉ n_output n') ∧
  (linked (node_to_producers links) c p →
   is_Some (node_at graph p) ∧ is_Some (node_at graph c)).
Proof.
  intros links. split; [apply linked_exactly|].
  intros (place & sub & i & k & np & nc & x & Hat & -> & -> & Hi & Hk & _)%linked_exactly.
  rewrite !node_at_app, Hat. simpl. rewrite Hi, Hk. eauto.
Qed.

(** X15. The producer relation has no cycle: following producers from a
    node never leads back to it. In particular no node is its own producer,
    even when it reads a name it writes. *)
Theorem producer_consumer_maps_acyclic graph node :
  ¬ tc (fun consumer producer =>
          linked (node_to_producers (links_of graph)) consumer producer)
       node node.
Proof.
  assert (∀ c p,
            tc (fun consumer producer =>
                  linked (node_to_producers (links_of graph)) consumer producer) c p →
            ∃ scope i k, p = scope ++ [i] ∧ c = scope ++ [k] ∧ (i < k)%nat) as Hdown.
  { induction 1 as [c p Hl|c m p Hl _ IH].
    - by apply (linked_ordered graph).
    - apply (linked_ordered graph) in Hl as (scope & i & k & -> & -> & Hlt).
      destruct IH as (scope' & i' & k' & -> & Hm & Hlt').
      apply app_inj_tail in Hm as [-> ->]. exists scope', i', k. split; [done|].
      split; [done|]. lia. }
  intros (scope & i & k & -> & Heq & Hlt)%Hdown.
  apply app_inj_tail in Heq as [_ ->]. lia.
Qed.

Lemma maps_ext (m m' : gmap NodeId (gset NodeId)) :
  (∀ k s, m !! k = Some s → s ≠ ∅) → (∀ k s, m' !! k = Some s → s ≠ ∅) →
  (∀ k n, linked m k n ↔ linked m' k n) → m = m'.
Proof.
  intros Hm Hm' Hl. apply map_eq. intros k.
  destruct (m !! k) as [s|] eqn:Hs, (m' !! k) as [s'|] eqn:Hs'.
  - f_equal. apply set_eq. intros n. specialize (Hl k n). unfold linked in Hl.
    rewrite Hs, Hs' in Hl. split.
    + intros Hn. destruct (proj1 Hl) as (? & [= <-] & ?); eauto.
    + intros Hn. destruct (proj2 Hl) as (? & [= <-] & ?); eauto.
  - exfalso. destruct (set_choose_L s (Hm k s Hs)) as [n Hn].
    destruct (proj1 (Hl k n)) as (? & ? & _); [by exists s|congruence].
  - exfalso. destruct (set_choose_L s' (Hm' k s' Hs')) as [n Hn].
    destruct (proj2 (Hl k n)) as (? & ? & _); [by exists s'|congruence].
  - done.
Qed.

Lemma links_of_nonempty graph :
  (∀ k s, node_to_producers (links_of graph) !! k = Some s → s ≠ ∅) ∧
  (∀ k s, node_to_consumers (links_of graph) !! k = Some s → s ≠ ∅).
Proof.
  unfold links_of. destruct (all_traced graph []) as (E & HE & _).
  rewrite HE. simpl. apply link_all_nonempty; intros k s; simpl;
    by rewrite lookup_empty.
Qed.

Lemma edge_same_nodes graph graph' scope p c :
  g_node graph = g_node graph' → edge graph scope p c → edge graph' scope p c.
Proof.
  intros Hnodes (place & sub & Hat & Hloc).
  destruct place as [|k [|j place]]; simpl in Hat; [|done|].
  - injection Hat as <-. exists [], graph'. split; [done|].
    destruct Hloc as (i & k & node & x & Hrest). exists i, k, node, x.
    by rewrite <- Hnodes.
  - exists (k :: j :: place), sub. split; [|done]. simpl. by rewrite <- Hnodes.
Qed.

Lemma links_of_same_nodes graph graph' :
  g_node graph = g_node graph' → links_of graph = links_of graph'.
Proof.
  intros Hnodes.
  destruct (links_of_nonempty graph) as [Hp Hc].
  destruct (links_of_nonempty graph') as [Hp' Hc'].
  assert (∀ p c, edge graph [] p c ↔ edge graph' [] p c) as Hedge.
  { intros p c. split; by apply edge_same_nodes. }
  destruct (links_of graph) as [ntp ntc] eqn:Hl,
    (links_of graph') as [ntp' ntc'] eqn:Hl'.
  simpl in *. f_equal.
  - apply maps_ext; [done..|]. intros c p.
    pose proof (proj1 (root_links graph p c)) as H1.
    pose proof (proj1 (root_links graph' p c)) as H2.
    rewrite Hl in H1. rewrite Hl' in H2. simpl in *. by rewrite H1, H2.
  - apply maps_ext; [done..|]. intros p c.
    pose proof (proj2 (root_links graph p c)) as H1.
    pose proof (proj2 (root_links graph' p c)) as H2.
    rewrite Hl in H1. rewrite Hl' in H2. simpl in *. by rewrite H1, H2.
Qed.

(** X16. The declared inputs, outputs, value-infos and initializers of
    the top-level graph have no effect on the maps: two graphs with the
    same nodes get the same links, and when [get_producer_consumer_maps]
    returns for both it returns the same maps. The declarations only
    decide whether the call raises. *)
Theorem producer_consumer_maps_ignore_declarations graph graph' cls :
  g_node graph = g_node graph' →
  (_map_node_dependencies graph [] no_links).2
  = (_map_node_dependencies graph' [] no_links).2 ∧
  ∀ maps maps',
    (get_producer_consumer_maps graph cls).2 = inr maps →
    (get_producer_consumer_maps graph' cls).2 = inr maps' →
    maps = maps'.
Proof.
  intros Hnodes. pose proof (links_of_same_nodes graph graph' Hnodes) as Hlinks.
  split; [done|]. intros [ntp ntc] [ntp' ntc'] Hget Hget'.
  destruct (get_producer_consumer_maps graph cls) as [cls1 r] eqn:H1.
  destruct (get_producer_consumer_maps graph' cls) as [cls2 r'] eqn:H2.
  simpl in *. subst r r'.
  apply get_producer_consumer_maps_inr in H1 as (-> & -> & _).
  apply get_producer_consumer_maps_inr in H2 as (-> & -> & _).
  by rewrite Hlinks.
Qed.

Lemma producer_consumer_maps_ignore_declarations_witness :
  g_node chain_graph = g_node (without_input chain_graph "a") ∧
  (_map_node_dependencies chain_graph [] no_links).2
  = (_map_node_dependencies (without_input chain_graph "a") [] no_links).2.
Proof.
  split; [reflexivity|].
  apply (producer_consumer_maps_ignore_declarations
           chain_graph (without_input chain_graph "a") any_class).
  reflexivity.
Defined.

Lemma get_producer_consumer_maps_result graph cls :
  (get_producer_consumer_maps graph cls).2 =
  if decide (implicit_inputs_of graph ≠ ∅)
  then inl (MissingInputs (sorted (elements (implicit_inputs_of graph))))
  else inr (node_to_producers (links_of graph), node_to_consumers (links_of graph)).
Proof.
  unfold get_producer_consumer_maps, implicit_inputs_of, links_of.
  destruct (_map_node_dependencies graph [] no_links) as [imp links]. simpl.
  by case_decide.
Qed.

Lemma sorted_singleton x : sorted [x] = [x].
Proof. done. Qed.

(** X17. Let [get_producer_consumer_maps] return for a graph, and let a
    node have among its inputs a name that the graph declares as an input,
    that is no initializer and that no earlier node produces. Without the
    declaration, the call raises and the error names exactly that name. *)
Theorem missing_declared_input graph cls x k node maps :
  (get_producer_consumer_maps graph cls).2 = inr maps →
  g_node graph !! k = Some node → x ∈ effective_inputs node → x ≠ "" →
  resolvable (without_input graph x) k x = false →
  (get_producer_consumer_maps (without_input graph x) cls).2
  = inl (MissingInputs [x]).
Proof.
  intros Hget Hk Hx Hne Hres.
  assert (Himp : implicit_inputs_of graph = ∅).
  { destruct (get_producer_consumer_maps graph cls) as [cls1 r] eqn:H1.
    simpl in Hget. subst r. destruct maps as [ntp ntc].
    by apply get_producer_consumer_maps_inr in H1 as (_ & _ & ?). }
  assert (Himp' : implicit_inputs_of (without_input graph x) = {[x]}).
  { apply set_eq. intros y. rewrite elem_of_singleton, implicit_inputs_spec. split.
    - intros (k' & node' & Hk' & Hy & Hyne & Hyres).
      destruct (decide (y = x)) as [|Hyx]; [done|]. exfalso.
      assert (y ∈ implicit_inputs_of graph) as Hin; [|by rewrite Himp in Hin].
      apply implicit_inputs_spec. exists k', node'. do 3 (split; [done|]).
      apply resolvable_false. apply resolvable_false in Hyres as (Hi & Hini & Hprod).
      split; [|done]. simpl in Hi. intros Hin. apply Hi.
      apply list_elem_of_fmap in Hin as (vi & -> & Hvi).
      apply list_elem_of_fmap. exists vi. split; [done|].
      apply list_elem_of_filter. done.
    - intros ->. by exists k, node. }
  rewrite get_producer_consumer_maps_result, Himp'.
  rewrite decide_True by set_solver.
  by rewrite elements_singleton, sorted_singleton.
Qed.

Lemma missing_declared_input_witness :
  (get_producer_consumer_maps (without_input chain_graph "a") any_class).2
  = inl (MissingInputs ["a"]).
Proof.
  apply (missing_declared_input chain_graph any_class "a" 0
           (mk_node ["a"] ["x"] [])
           (node_to_producers (links_of chain_graph),
            node_to_consumers (links_of chain_graph))).
  - vm_compute. reflexivity.
  - reflexivity.
  - simpl. apply list_elem_of_here.
  - done.
  - by_compute.
Defined.

(** ** get_optimization_level *)

(** X18. [get_optimization_level] returns a level exactly for the four
    names disable, basic, extended and all, written so; any other string
    raises with a message that ends with the string. Different names give
    different levels and every level has a name. *)
Theorem get_optimization_level_spec level :
  (level ∈ ["disable"; "basic"; "extended"; "all"] ↔
   ∃ l, get_optimization_level level = inr l) ∧
  (level ∉ ["disable"; "basic"; "extended"; "all"] →
   get_optimization_level level = inl ("Invalid optimization level of " +:+ level)) ∧
  (∀ other l, get_optimization_level level = inr l →
              get_optimization_level other = inr l → other = level) ∧
  (∀ l, ∃ name, get_optimization_level name = inr l).
Proof.
  unfold get_optimization_level. split; [|split; [|split]].
  - rewrite !elem_of_cons, elem_of_nil. repeat case_decide; subst; split;
      try (intros [l ?]; done); try (intros; by eauto); naive_solver.
  - rewrite !not_elem_of_cons. intros (? & ? & ? & ? & _).
    by rewrite !decide_False.
  - intros other l. unfold get_optimization_level.
    repeat case_decide; subst; try done; intros [= <-]; try done.
  - intros []; [by exists "disable"|by exists "basic"|by exists "extended"|by exists "all"].
Qed.

(** X19. A call of [_map_node_dependencies] returns the same implicit
    inputs whatever the place and the links it is given, and it keeps every
    link it is given. *)
Theorem map_node_dependencies_reentrant graph scope links :
  let result := _map_node_dependencies graph scope links in
  result.1 = (_map_node_dependencies graph [] no_links).1 ∧
  (∀ c p, linked (node_to_producers links) c p →
          linked (node_to_producers result.2) c p) ∧
  (∀ p c, linked (node_to_consumers links) p c →
          linked (node_to_consumers result.2) p c).
Proof.
  intros result. unfold result.
  destruct (all_traced graph scope) as (E & HE & _). rewrite HE. simpl.
  split; [done|]. split.
  - intros c p Hl. apply linked_link_all_producers. by left.
  - intros p c Hl. apply linked_link_all_consumers. by left.
Qed.

(** X20. [is_fixed_size_tensor] answers true exactly when the value is a
    tensor and every dimension of its shape holds a value greater than
    zero; a tensor with a dimension that is symbolic, unknown, zero or
    negative is not fixed. *)
Theorem is_fixed_size_tensor_iff value :
  (is_fixed_size_tensor value = true ↔
   ∃ t, vi_type value = tensor_type t ∧
        Forall (fun d => ∃ v, d_value d = dim_value v ∧ (v > 0)%Z)
               (dim (shape_of t))) ∧
  (∀ t d, vi_type value = tensor_type t → d ∈ dim (shape_of t) →
          (∀ v, d_value d = dim_value v → (v ≤ 0)%Z) →
          is_fixed_size_tensor value = false).
Proof.
  split; [apply is_fixed_size_tensor_spec|].
  intros t d Hty Hd Hbad. apply not_true_is_false.
  intros (t' & Hty' & Hall)%is_fixed_size_tensor_spec.
  rewrite Hty in Hty'. injection Hty' as <-.
  rewrite Forall_forall in Hall. destruct (Hall d Hd) as (v & Hv & Hpos).
  specialize (Hbad v Hv). lia.
Qed.

Lemma fix_dims_noop pos fixed_shape remaining :
  ∀ graph idx0,
    length (input_dims graph pos) = (idx0 + remaining)%nat →
    length fixed_shape = (idx0 + remaining)%nat →
    (∀ i d, input_dims graph pos !! i = Some d →
            ∃ r, fixed_shape !! i = Some r ∧ d_value d = dim_value r) →
    fix_dims graph pos fixed_shape idx0 remaining = (graph, None).
Proof.
  induction remaining as [|remaining IH]; intros graph idx0 Hlen Hflen Hall;
    simpl; [done|].
  destruct (lookup_lt_is_Some_2 (input_dims graph pos) idx0 ltac:(lia)) as [d0 Hd0].
  destruct (Hall idx0 d0 Hd0) as (r0 & Hr0 & Hv0).
  rewrite Hd0, Hr0, Hv0. rewrite decide_False by (intros Hc; by apply Hc).
  apply IH; [lia|lia|done].
Qed.

(** X21. Fixing the shape of an input is idempotent: after a call that
    returned, the same call returns again and leaves the graph as it
    is. *)
Theorem make_input_shape_fixed_again graph input_name fixed_shape graph' :
  _make_input_shape_fixed graph input_name fixed_shape = (graph', None) →
  _make_input_shape_fixed graph' input_name fixed_shape = (graph', None).
Proof.
  intros Hres.
  destruct (make_input_shape_fixed_done_at _ _ _ _ Hres)
    as (pos & i & i' & t' & Hfind & Hpos' & Hname' & Hty' & Hvalues & _).
  pose proof (make_input_shape_fixed_kept graph input_name fixed_shape) as Hkept.
  rewrite Hres in Hkept. simpl in Hkept.
  assert (Hfind' : find_input (g_input graph') input_name 0 = Some (pos, i'))
    by (by eapply find_input_kept).
  assert (Hvalues' : d_value <$> dim (shape_of t') = dim_value <$> fixed_shape)
    by exact Hvalues.
  assert (Hlen : length (dim (shape_of t')) = length fixed_shape).
  { apply (f_equal length) in Hvalues'. by rewrite !length_fmap in Hvalues'. }
  unfold _make_input_shape_fixed. rewrite Hfind', Hty'.
  rewrite decide_False by (intros Hc; by apply Hc).
  assert (Hdims : input_dims graph' pos = dim (shape_of t'))
    by (unfold input_dims; by rewrite Hpos', Hty').
  apply fix_dims_noop; rewrite ?Hdims; [done|lia|].
  intros k d Hd.
  assert (d_value <$> dim (shape_of t') !! k = dim_value <$> fixed_shape !! k) as Hk
    by (by rewrite <- !list_lookup_fmap, Hvalues').
  rewrite Hd in Hk. simpl in Hk.
  destruct (fixed_shape !! k) as [r|]; [|done]. injection Hk as Hk. eauto.
Qed.

Lemma make_input_shape_fixed_again_witness :
  _make_input_shape_fixed batch_graph_fixed "data" [8; 3; 224; 224]%Z
  = (batch_graph_fixed, None).
Proof.
  apply (make_input_shape_fixed_again batch_graph "data" [8; 3; 224; 224]%Z).
  reflexivity.
Defined.
